(** * js-assignments: the kata functions of [10-katas-1-tasks.js] and
    [11-katas-2-tasks.js], embedded in Rocq and checked against their
    specification.

    JavaScript strings are sequences of UTF-16 code units, numbers that the
    functions handle are integers (modelled in [Z]), arrays are lists, sparse
    arrays are finite maps from indices, and a function that can throw returns
    a [result]. *)

From Stdlib Require Import ZArith NArith Lia String Ascii Decimal DecimalPos
  DecimalZ.
From stdpp Require Import base list gmap sorting.

Set Default Proof Using "Type".
Local Open Scope Z_scope.

(** ** JavaScript values shared by the katas *)

(** A string is the list of its UTF-16 code units. *)
Abbreviation jsstring := (list N).

(** [u16 s] is the JavaScript literal with the (ASCII) characters of [s]. *)
Definition u16 (s : string) : jsstring :=
  N_of_ascii <$> list_ascii_of_string s.

Definition LF : N := 10.
Definition COMMA : N := 44.
Definition DASH : N := 45.
Definition DOLLAR : N := 36.
Definition LBRACE : N := 123.
Definition RBRACE : N := 125.
Definition SPACE : N := 32.

Inductive jserror := TypeError | SyntaxError | RangeError.

Inductive result (A : Type) :=
  | Ok (a : A)
  | Throw (e : jserror).
Arguments Ok {A} a.
Arguments Throw {A} e.

#[global] Instance result_ret : MRet result := λ A a, Ok a.
#[global] Instance result_bind : MBind result := λ A B f r,
  match r with Ok a => f a | Throw e => Throw e end.

(** A [for] loop over the values of [l] whose body can throw. *)
Fixpoint for_each {S} (l : list nat) (body : nat → S → result S) (s : S)
  : result S :=
  match l with
  | [] => Ok s
  | x :: r => s' ← body x s; for_each r body s'
  end.

(** [\s] of a regular expression: WhiteSpace and LineTerminator. *)
Definition is_space (c : N) : bool :=
  ((9 <=? c) && (c <=? 13) || (c =? 32) || (c =? 160) || (c =? 5760)
   || (8192 <=? c) && (c <=? 8202) || (c =? 8232) || (c =? 8233)
   || (c =? 8239) || (c =? 8287) || (c =? 12288) || (c =? 65279))%N.

(** [.] of a regular expression without the [s] flag: anything but a
    LineTerminator. *)
Definition is_dot (c : N) : bool :=
  negb ((c =? 10) || (c =? 13) || (c =? 8232) || (c =? 8233))%N.

(** [str.split(sep)] for a one-character separator. *)
Fixpoint split_on (sep : N) (cur : jsstring) (s : jsstring) : list jsstring :=
  match s with
  | [] => [rev cur]
  | c :: r =>
      if (c =? sep)%N then rev cur :: split_on sep [] r
      else split_on sep (c :: cur) r
  end.

Definition split (sep : N) (s : jsstring) : list jsstring := split_on sep [] s.

(** [arr.join(sep)]. *)
Fixpoint join (sep : jsstring) (l : list jsstring) : jsstring :=
  match l with
  | [] => []
  | [x] => x
  | x :: r => x ++ sep ++ join sep r
  end.

(** [arr.indexOf(x)]: the first index holding [x], or -1. *)
Fixpoint indexOf_from {A} `{EqDecision A} (i : Z) (x : A) (l : list A) : Z :=
  match l with
  | [] => -1
  | y :: r => if decide (y = x) then i else indexOf_from (i + 1) x r
  end.

Definition indexOf {A} `{EqDecision A} (l : list A) (x : A) : Z :=
  indexOf_from 0 x l.

(** A sparse array: the map from the property keys that were assigned to
    their values. Only the keys that are array indices (0 .. 2^32-2) are
    elements, the others are plain properties that [reduce] and [filter] do
    not visit. The elements come in the order of the map; the functions
    below only count them. *)
Definition is_index (k : Z) : bool := (0 <=? k) && (k <? 4294967295).

Definition elements (a : gmap Z Z) : list Z :=
  snd <$> filter (λ kv, is_index (fst kv) = true) (map_to_list a).

(** * 10-katas-1-tasks.js *)

Module Katas1.

(** ** createCompassPoints *)

(** A point of the compass; the azimuth, a multiple of 11.25 that a number
    holds exactly, is kept in hundredths of a degree. *)
Record compass_point := CompassPoint {
  abbreviation : jsstring;
  azimuth : Z
}.

Definition sides : list jsstring := [u16 "N"; u16 "E"; u16 "S"; u16 "W"].

Fixpoint starts_with (needle s : jsstring) : bool :=
  match needle, s with
  | [], _ => true
  | a :: n, b :: r => (a =? b)%N && starts_with n r
  | _ :: _, [] => false
  end.

(** [s.replace(new RegExp(needle, 'g'), '')] for a [needle] made of letters:
    the occurrences of [needle] are taken out from left to right; [skip] is
    the number of characters left of the occurrence in progress. *)
Fixpoint remove_all (needle : jsstring) (skip : nat) (s : jsstring) : jsstring :=
  match s with
  | [] => []
  | c :: r =>
      match skip with
      | S k => remove_all needle k r
      | O =>
          if negb (bool_decide (needle = [])) && starts_with needle s
          then remove_all needle (length needle - 1) r
          else c :: remove_all needle 0 r
      end
  end.

Definition getCommonPoint (mainPoint secondaryPoint : jsstring) : jsstring :=
  mainPoint ++ secondaryPoint.

Definition getSmallPoint (mainPoint secondaryPoint : jsstring) : jsstring :=
  mainPoint ++ u16 "b" ++ remove_all mainPoint 0 secondaryPoint.

(** [points[idx]] for an index of the array. *)
Definition point_at (points : list jsstring) (idx : nat) : jsstring :=
  default [] (points !! idx).

Definition getDirection (points : list jsstring) (startIdx endIdx : nat)
    (getPoint : jsstring → jsstring → jsstring) : jsstring :=
  let start := point_at points startIdx in
  let end_ := point_at points (endIdx mod length points) in
  if Nat.eqb (startIdx mod 2) 0 then getPoint start end_ else getPoint end_ start.

(** [points.reduce((acc, dir, idx) => acc.concat(dir, getDirection(...)), [])]. *)
Definition addPoints (points : list jsstring)
    (getPoint : jsstring → jsstring → jsstring) : list jsstring :=
  concat (imap (λ idx dir, [dir; getDirection points idx (idx + 1) getPoint])
            points).

Definition createCompassPoints : list compass_point :=
  let secondPointLevel := addPoints sides getCommonPoint in
  let thirdPointLevel := addPoints secondPointLevel getCommonPoint in
  let fourthPointLevel := addPoints thirdPointLevel getSmallPoint in
  imap (λ idx point, CompassPoint point (Z.of_nat idx * 1125)) fourthPointLevel.

(** ** expandBraces *)

(** The text after a ['{'] up to the next brace, when that brace is ['}']:
    the rest of a match of [{[^{}]*}]. *)
Fixpoint group_body (s : jsstring) : option jsstring :=
  match s with
  | [] => None
  | c :: r =>
      if (c =? RBRACE)%N then Some []
      else if (c =? LBRACE)%N then None
      else (c ::.) <$> group_body r
  end.

(** [getMatch(PATTERN, str)]: the leftmost match of [({[^{}]*})], [None] for
    [null]. *)
Fixpoint getMatch (str : jsstring) : option jsstring :=
  match str with
  | [] => None
  | c :: r =>
      if (c =? LBRACE)%N then
        match group_body r with
        | Some body => Some (LBRACE :: body ++ [RBRACE])
        | None => getMatch r
        end
      else getMatch r
  end.

(** [bracket.slice(1, -1)]. *)
Definition slice_1_m1 (s : jsstring) : jsstring := removelast (tail s).

(** [openBracket]: the alternatives of a group, memoized in [CASH]. *)
Definition openBracket (CASH : gmap jsstring (list jsstring)) (bracket : jsstring)
  : list jsstring * gmap jsstring (list jsstring) :=
  match CASH !! bracket with
  | Some result => (result, CASH)
  | None =>
      let result := split COMMA (slice_1_m1 bracket) in
      (result, <[bracket := result]> CASH)
  end.

(** The first occurrence of [needle] in [hay]: the text before it and the
    text after it. *)
Fixpoint strip_prefix (needle hay : jsstring) : option jsstring :=
  match needle, hay with
  | [], _ => Some hay
  | a :: n, b :: h => if (a =? b)%N then strip_prefix n h else None
  | _ :: _, [] => None
  end.

Fixpoint find_sub (needle hay : jsstring) : option (jsstring * jsstring) :=
  match strip_prefix needle hay with
  | Some after => Some ([], after)
  | None =>
      match hay with
      | [] => None
      | c :: r => (λ ba, (c :: fst ba, snd ba)) <$> find_sub needle r
      end
  end.

(** The replacement text of [String.prototype.replace] for a string pattern
    (no captures): [$$] is a dollar, [$&] the matched text, [$`] the text
    before the match, [$'] the text after it; any other dollar stands for
    itself. *)
Fixpoint GetSubstitution (matched before after replacement : jsstring)
  : jsstring :=
  match replacement with
  | [] => []
  | c :: t =>
      if (c =? DOLLAR)%N then
        match t with
        | 36%N :: r => DOLLAR :: GetSubstitution matched before after r
        | 38%N :: r => matched ++ GetSubstitution matched before after r
        | 96%N :: r => before ++ GetSubstitution matched before after r
        | 39%N :: r => after ++ GetSubstitution matched before after r
        | _ => DOLLAR :: GetSubstitution matched before after t
        end
      else c :: GetSubstitution matched before after t
  end.

(** [line.replace(template, arg)] for strings [template] and [arg]. *)
Definition replace (line template arg : jsstring) : jsstring :=
  match find_sub template line with
  | None => line
  | Some (before, after) =>
      before ++ GetSubstitution template before after arg ++ after
  end.

Definition combine (line template : jsstring) (args : list jsstring)
  : list jsstring :=
  (λ arg, replace line template arg) <$> args.

Definition replaceBracket (CASH : gmap jsstring (list jsstring)) (line : jsstring)
  : list jsstring * gmap jsstring (list jsstring) :=
  match getMatch line with
  | None => ([line], CASH)
  | Some bracket =>
      let '(args, CASH) := openBracket CASH bracket in
      (combine line bracket args, CASH)
  end.

(** [combinations.map((comb) => replaceBracket(comb))], the cache passing
    from one call to the next. *)
Fixpoint map_replaceBracket (CASH : gmap jsstring (list jsstring))
    (combinations : list jsstring)
  : list (list jsstring) * gmap jsstring (list jsstring) :=
  match combinations with
  | [] => ([], CASH)
  | comb :: r =>
      let '(x, CASH) := replaceBracket CASH comb in
      let '(xs, CASH) := map_replaceBracket CASH r in
      (x :: xs, CASH)
  end.

(** The [while (flag)] loop of [findBracets]; [fuel] bounds the number of
    iterations and [None] says that it did not suffice. *)
Fixpoint findBracets_loop (fuel : nat) (CASH : gmap jsstring (list jsstring))
    (combinations : list jsstring) : option (list jsstring) :=
  match fuel with
  | O => None
  | S fuel =>
      let '(replaced, CASH) := map_replaceBracket CASH combinations in
      let flag := forallb (λ comb : list jsstring, negb (length comb =? 1)%nat) replaced in
      let combinations := concat replaced in
      if flag then findBracets_loop fuel CASH combinations
      else Some combinations
  end.

Definition findBracets (fuel : nat) (str : jsstring) : option (list jsstring) :=
  findBracets_loop fuel ∅ [str].

(** [new Set(arr)], as the list of its values in insertion order. *)
Fixpoint Set_add_all (set : list jsstring) (arr : list jsstring)
  : list jsstring :=
  match arr with
  | [] => set
  | x :: r =>
      if bool_decide (x ∈ set) then Set_add_all set r
      else Set_add_all (set ++ [x]) r
  end.

Definition new_Set (arr : list jsstring) : list jsstring := Set_add_all [] arr.

(** The strings that [expandBraces(str)] yields, in order. *)
Definition expandBraces (fuel : nat) (str : jsstring) : option (list jsstring) :=
  new_Set <$> findBracets fuel str.

(** A string with non-nested groups: the text [lit] before the first group,
    then each group body between braces followed by the text up to the next
    group; no brace inside a body or a text. *)
Definition no_brace (s : jsstring) : Prop :=
  Forall (λ c, c ≠ LBRACE ∧ c ≠ RBRACE) s.

Fixpoint render_groups (gs : list (jsstring * jsstring)) : jsstring :=
  match gs with
  | [] => []
  | (body, lit) :: r => LBRACE :: body ++ RBRACE :: lit ++ render_groups r
  end.

Definition render (lit : jsstring) (gs : list (jsstring * jsstring)) : jsstring :=
  lit ++ render_groups gs.

Definition no_dollar (s : jsstring) : Prop := Forall (λ c, c ≠ DOLLAR) s.

(** The number of ['{'] in a string. *)
Definition opens (s : jsstring) : nat :=
  length (filter (λ c, c = LBRACE) s).

(** What [replaceBracket] returns for a candidate [line] without dollar
    sign: the candidate alone when it has no group, or else candidates with
    one ['{'] less each. *)
Definition rewritten (line : jsstring) (comb : list jsstring) : Prop :=
  comb = [line] ∨
  (comb ≠ [] ∧ Forall (λ e, no_dollar e ∧ S (opens e) = opens line) comb).

(** The number of comma-separated alternatives of a group body. *)
Definition alternatives (body : jsstring) : list jsstring := split COMMA body.

Definition alternatives_product (gs : list (jsstring * jsstring)) : nat :=
  foldr (λ g acc, (length (alternatives (fst g)) * acc)%nat) 1%nat gs.

(** A group of at least two alternatives, without a dollar sign. *)
Definition plain_group (g : jsstring * jsstring) : Prop :=
  no_brace (fst g) ∧ no_brace (snd g) ∧ no_dollar (fst g) ∧
  (2 ≤ length (alternatives (fst g)))%nat.

(** The strings that the choices of one alternative for each group give,
    from the texts [prefixes] before the first group. *)
Fixpoint expansions (prefixes : list jsstring) (gs : list (jsstring * jsstring))
  : list jsstring :=
  match gs with
  | [] => prefixes
  | (body, lit) :: r =>
      expansions
        (p ← prefixes; (λ a, p ++ a ++ lit) <$> alternatives body) r
  end.

(** A cache that holds, for a group, what [openBracket] computes for it. *)
Definition cache_ok (CASH : gmap jsstring (list jsstring)) : Prop :=
  ∀ bracket result,
    CASH !! bracket = Some result → result = split COMMA (slice_1_m1 bracket).

(** ** getZigZagMatrix *)

(** The state of the loop that builds the diagonals. *)
Record diagonals_state := DiagonalsState {
  step : Z;
  diagonalLength : Z;
  counter : Z;
  diagonals : list (list Z)
}.

(** [Array.from(Array(len), () => counter += 1)]; [Array(len)] throws for a
    negative length. *)
Definition Array_from_counter (len counter : Z) : result (list Z) :=
  if len <? 0 then Throw RangeError
  else Ok ((λ k : nat, counter + 1 + Z.of_nat k) <$> seq 0 (Z.to_nat len)).

Definition diagonals_body (n : nat) (i : nat) (st : diagonals_state)
  : result diagonals_state :=
  let step := if bool_decide (i = n) then -1 else step st in
  let diagonalLength := diagonalLength st + step in
  diagonal ← Array_from_counter diagonalLength (counter st);
  Ok (DiagonalsState step diagonalLength (counter st + diagonalLength)
        (diagonals st ++ [diagonal])).

Definition build_diagonals (n : nat) : result (list (list Z)) :=
  st ← for_each (seq 0 (n + n - 1)) (diagonals_body n)
         (DiagonalsState 1 0 (-1) []);
  Ok (diagonals st).

(** [diagonal.shift()] and [diagonal.pop()]: the value removed ([None] is
    [undefined], for an empty array) and the array that remains. *)
Definition shift (l : list Z) : option Z * list Z := (head l, tail l).
Definition pop (l : list Z) : option Z * list Z := (last l, removelast l).

(** The body of the inner loop: a cell of the matrix holds a number or
    [undefined] ([None]). *)
Definition cell_body (i j : nat)
    (st : list (list (option Z)) * list (list Z))
  : result (list (list (option Z)) * list (list Z)) :=
  let '(zigZagMatrix, diagonals) := st in
  match diagonals !! (i + j)%nat, zigZagMatrix !! i with
  | Some diagonal, Some row =>
      let '(v, diagonal) :=
        if Nat.eqb ((i + j) mod 2) 0 then pop diagonal else shift diagonal in
      Ok (<[i := <[j := v]> row]> zigZagMatrix, <[(i + j)%nat := diagonal]> diagonals)
  | _, _ => Throw TypeError
  end.

Definition getZigZagMatrix (n : nat) : result (list (list (option Z))) :=
  let zigZagMatrix := replicate n (replicate n (Some 0)) in
  diagonals ← build_diagonals n;
  st ← for_each (seq 0 n)
         (λ i, for_each (seq 0 n) (λ j, cell_body i j))
         (zigZagMatrix, diagonals);
  Ok (fst st).

(** The number of cells of the anti-diagonal [d] of the [n]×[n] matrix in
    the rows from [r] on. *)
Definition remaining (n r d : nat) : nat :=
  if (d <? r)%nat then 0%nat
  else if (d <? n)%nat then (d + 1 - r)%nat
  else (n - Nat.max r (d + 1 - n))%nat.

(** What holds of the state of the first loop before iteration [i]. *)
Definition diagonals_inv (n i : nat) (st : diagonals_state) : Prop :=
  step st = (if (i <=? n)%nat then 1 else -1) ∧
  diagonalLength st = Z.of_nat (if (i <=? n)%nat then i else n + n - i) ∧
  2 * (counter st + 1)
  = (if (i <=? n)%nat then Z.of_nat i * (Z.of_nat i + 1)
     else 2 * Z.of_nat n * Z.of_nat n
          - (2 * Z.of_nat n - 1 - Z.of_nat i) * (2 * Z.of_nat n - Z.of_nat i)) ∧
  length (diagonals st) = i ∧
  (∀ d diagonal,
     diagonals st !! d = Some diagonal → length diagonal = remaining n 0 d) ∧
  concat (diagonals st) = Z.of_nat <$> seq 0 (Z.to_nat (counter st + 1)).

(** What holds of the matrix and the diagonals before the cell of row [i]
    and column [j] is filled: each diagonal holds as many numbers as it has
    cells left, and the numbers written so far with those left in the
    diagonals are the numbers below [n * n]. *)
Definition fill_inv (n i j : nat)
    (st : list (list (option Z)) * list (list Z)) : Prop :=
  length (snd st) = (n + n - 1)%nat ∧
  (∀ d diagonal,
     snd st !! d = Some diagonal →
     length diagonal
     = (remaining n i d - (if (i <=? d)%nat && (d <? i + j)%nat then 1 else 0))%nat) ∧
  length (fst st) = n ∧
  Forall (λ row, length row = n) (fst st) ∧
  ∃ vs : list Z,
    concat (take i (fst st)) ++ take j (default [] (fst st !! i)) = Some <$> vs ∧
    vs ++ concat (snd st) ≡ₚ Z.of_nat <$> seq 0 (n * n).

(** The number of cells on the anti-diagonals before [d], which is the
    number that the diagonal [d] starts with. *)
Fixpoint diagonal_base (n d : nat) : Z :=
  match d with
  | O => 0
  | S d' => diagonal_base n d' + Z.of_nat (remaining n 0 d')
  end.

(** The number at row [i] and column [j] of the zig-zag: the cells of an
    anti-diagonal are numbered from its start, downwards on the odd
    diagonals and upwards on the even ones. *)
Definition zigzag_value (n i j : nat) : Z :=
  let d := (i + j)%nat in
  let k := (i - (d + 1 - n))%nat in
  if Nat.eqb (d mod 2) 0
  then diagonal_base n d + Z.of_nat (remaining n 0 d) - 1 - Z.of_nat k
  else diagonal_base n d + Z.of_nat k.

(** The numbers left in the diagonal [d] when [left] of them are: the
    first ones on an even diagonal, which [pop] empties from its end, the
    last ones on an odd diagonal, which [shift] empties from its start. *)
Definition diagonal_left (n d left : nat) : list Z :=
  if Nat.eqb (d mod 2) 0
  then (λ k : nat, diagonal_base n d + Z.of_nat k) <$> seq 0 left
  else (λ k : nat, diagonal_base n d + Z.of_nat (remaining n 0 d - left)
                   + Z.of_nat k) <$> seq 0 left.

(** The first loop, with what each diagonal holds. *)
Definition diagonals_content_inv (n i : nat) (st : diagonals_state) : Prop :=
  diagonals_inv n i st ∧
  counter st + 1 = diagonal_base n i ∧
  ∀ d diagonal,
    diagonals st !! d = Some diagonal →
    diagonal = (λ k : nat, diagonal_base n d + Z.of_nat k)
                 <$> seq 0 (remaining n 0 d).

(** The second loop, with what each diagonal and each filled cell holds. *)
Definition fill_content_inv (n i j : nat)
    (st : list (list (option Z)) * list (list Z)) : Prop :=
  length (snd st) = (n + n - 1)%nat ∧
  (∀ d diagonal,
     snd st !! d = Some diagonal →
     diagonal
     = diagonal_left n d
         (remaining n i d - (if (i <=? d)%nat && (d <? i + j)%nat then 1 else 0))) ∧
  length (fst st) = n ∧
  Forall (λ row, length row = n) (fst st) ∧
  ∀ i' j' row,
    (i' < i ∨ (i' = i ∧ j' < j))%nat → (j' < n)%nat →
    fst st !! i' = Some row →
    row !! j' = Some (Some (zigzag_value n i' j')).

(** ** canDominoesMakeRow *)

(** [row[domino] = row[domino] ? row[domino] + count : count]. *)
Definition addMove (row : gmap Z Z) (domino count : Z) : gmap Z Z :=
  <[domino := match row !! domino with
              | Some v => if bool_decide (v = 0) then count else v + count
              | None => count
              end]> row.

Definition gameRow (dominoes : list (Z * Z)) : gmap Z Z :=
  foldl (λ row domino,
           let leftSide := fst domino in
           let rightSide := snd domino in
           let shift := if bool_decide (leftSide = rightSide) then -1 else 1 in
           addMove (addMove row leftSide shift) rightSide shift)
        ∅ dominoes.

Definition canDominoesMakeRow (dominoes : list (Z * Z)) : bool :=
  let nonPairSide :=
    foldl (λ acc val,
             if bool_decide (val < 0) || bool_decide (Z.rem val 2 ≠ 0)
             then acc + 1 else acc)
          0 (elements (gameRow dominoes)) in
  bool_decide (nonPairSide < 3).

(** A row of oriented tiles in which each tile starts with the value the one
    before it ends with. *)
Fixpoint is_row (row : list (Z * Z)) : Prop :=
  match row with
  | a :: (b :: _) as r => snd a = fst b ∧ is_row r
  | _ => True
  end.

Definition oriented (tile placed : Z * Z) : Prop :=
  placed = tile ∨ placed = (snd tile, fst tile).

(** Some permutation and orientation of all the tiles is a row. *)
Definition can_be_placed_in_row (dominoes : list (Z * Z)) : Prop :=
  ∃ order row, order ≡ₚ dominoes ∧ Forall2 oriented order row ∧ is_row row.

(** The number of sides equal to [k] on the tiles that are not doubles, and
    the number of doubles [k, k], among the tiles. *)
Definition loose_sides (k : Z) (dominoes : list (Z * Z)) : Z :=
  foldr (λ tile acc,
           (if bool_decide (fst tile = snd tile) then 0
            else (if bool_decide (fst tile = k) then 1 else 0)
                 + (if bool_decide (snd tile = k) then 1 else 0)) + acc)
        0 dominoes.

Definition doubles_of (k : Z) (dominoes : list (Z * Z)) : Z :=
  foldr (λ tile acc,
           (if bool_decide (fst tile = k ∧ snd tile = k) then 1 else 0) + acc)
        0 dominoes.

(** The doubles among the tiles. *)
Definition doubles (dominoes : list (Z * Z)) : list (Z * Z) :=
  filter (λ tile, fst tile = snd tile) dominoes.

(** The value a row ends with, when [a] is the value before its first
    tile. *)
Fixpoint row_end (a : Z) (row : list (Z * Z)) : Z :=
  match row with
  | [] => a
  | tile :: row => row_end (snd tile) row
  end.

(** ** extractRanges *)

(** The numbers of the array: the integers that a number holds, and the
    [Infinity] that the function pushes. *)
Inductive jsnum := Num (z : Z) | Infinity.

#[global] Instance jsnum_eq_dec : EqDecision jsnum.
Proof. solve_decision. Defined.

(** The number nearest to the integer [v], the one with the even
    significand when two are as near: a number holds 53 significant bits. *)
Definition round_double (v : Z) : Z :=
  let e := Z.log2 (Z.abs v) in
  if e <? 53 then v
  else
    let q := 2 ^ (e - 52) in
    let m := Z.abs v / q in
    let r := Z.abs v mod q in
    let m' := if 2 * r <? q then m
              else if q <? 2 * r then m + 1
              else if Z.even m then m else m + 1 in
    Z.sgn v * (m' * q).

(** [Number.isSafeInteger]: the integers up to 2^53 - 1 in magnitude. *)
Definition safe_integer (z : Z) : Prop :=
  -9007199254740991 ≤ z ≤ 9007199254740991.

(** [a + 1]: the sum is rounded to a number. *)
Definition add1 (a : jsnum) : jsnum :=
  match a with Num z => Num (round_double (z + 1)) | Infinity => Infinity end.

Definition lt (a b : jsnum) : bool :=
  match a, b with
  | Num x, Num y => bool_decide (x < y)
  | Num _, Infinity => true
  | Infinity, _ => false
  end.

(** The decimal digits of a number. *)
Fixpoint uint_chars (d : Decimal.uint) : jsstring :=
  match d with
  | Nil => []
  | D0 d => 48%N :: uint_chars d
  | D1 d => 49%N :: uint_chars d
  | D2 d => 50%N :: uint_chars d
  | D3 d => 51%N :: uint_chars d
  | D4 d => 52%N :: uint_chars d
  | D5 d => 53%N :: uint_chars d
  | D6 d => 54%N :: uint_chars d
  | D7 d => 55%N :: uint_chars d
  | D8 d => 56%N :: uint_chars d
  | D9 d => 57%N :: uint_chars d
  end.

(** The decimal notation of an integer, with its sign when negative. *)
Definition decimal (z : Z) : jsstring :=
  match Z.to_int z with
  | Pos d => uint_chars d
  | Neg d => DASH :: uint_chars d
  end.

(** The number of decimal digits of [x], 1 at least, counted from [n]. *)
Fixpoint digits_from (fuel n : nat) (x : Z) : nat :=
  match fuel with
  | O => n
  | S fuel => if x <? 10 ^ Z.of_nat n then n else digits_from fuel (S n) x
  end.

Definition digits (x : Z) : nat := digits_from (Z.to_nat (Z.log2 x)) 1 x.

(** Number::toString looks for integers [n], [k], [s] with [s] of [k]
    digits and [s * 10^(n-k)] a decimal that the number [x] is the nearest
    number to, [k] as small as possible. Of the multiples of [p = 10^(n-k)]
    with [n] digits that [x] is the nearest number to, the one nearest to
    [x] (the one with [s] even of two as near): it is next to [x], below or
    above. *)
Definition best_multiple (x : Z) (n : nat) (p : Z) : option Z :=
  let ok v :=
    (10 ^ (Z.of_nat n - 1) <=? v) && (v <? 10 ^ Z.of_nat n)
    && (round_double v =? x) in
  let lo := x / p in
  let hi := lo + 1 in
  match ok (lo * p), ok (hi * p) with
  | true, true =>
      if x - lo * p <? hi * p - x then Some (lo * p)
      else if hi * p - x <? x - lo * p then Some (hi * p)
      else if Z.even lo then Some (lo * p) else Some (hi * p)
  | true, false => Some (lo * p)
  | false, true => Some (hi * p)
  | false, false => None
  end.

(** The decimal [s * 10^(n-k)] for the least [k], from [k] on: it has as
    many digits [d] as [x], or one more when it is the power of ten above
    [x]; with [d] digits [x] itself is one. *)
Fixpoint shortest_from (fuel k d : nat) (x : Z) : Z :=
  match fuel with
  | O => x
  | S fuel =>
      match best_multiple x d (10 ^ Z.of_nat (d - k)) with
      | Some v => v
      | None =>
          match best_multiple x (S d) (10 ^ Z.of_nat (S d - k)) with
          | Some v => v
          | None => shortest_from fuel (S k) d x
          end
      end
  end.

Definition shortest (x : Z) : Z := shortest_from (digits x) 1 (digits x) x.

(** The digits of [s]: those of [s * 10^(n-k)] without the zeros at the
    end. *)
Fixpoint strip_zeros (fuel : nat) (v : Z) : Z :=
  match fuel with
  | O => v
  | S fuel => if v mod 10 =? 0 then strip_zeros fuel (v / 10) else v
  end.

(** [String(x)] for the numbers of the array: the digits of [s] followed by
    [n-k] zeros when [n] is 21 at most, and the digits of [s], with a point
    after the first when there are more, followed by [e+] and [n-1]
    otherwise. *)
Definition Number_toString (x : jsnum) : jsstring :=
  match x with
  | Infinity => u16 "Infinity"
  | Num z =>
      if z =? 0 then decimal 0
      else
        let v := shortest (Z.abs z) in
        if v <? 10 ^ 21 then decimal (Z.sgn z * v)
        else
          let exponent := decimal (Z.of_nat (digits v) - 1) in
          (if z <? 0 then [DASH] else []) ++
          match decimal (strip_zeros (digits v) v) with
          | [] => []
          | c :: [] => c :: u16 "e+" ++ exponent
          | c :: r => c :: u16 "." ++ r ++ u16 "e+" ++ exponent
          end
  end.

(** [nums.slice(startIndex, endIndex)]. *)
Definition slice {A} (startIndex endIndex : nat) (l : list A) : list A :=
  take (endIndex - startIndex) (drop startIndex l).

(** The [reduce] without initial value: [acc] is the value before [value],
    which is at [endIndex]; [rest] is what remains of [nums] from there. *)
Fixpoint reduce_ranges (nums : list jsnum) (acc : jsnum) (endIndex : nat)
    (rest : list jsnum) (startIndex : nat) (ranges : list (list jsnum))
  : list (list jsnum) :=
  match rest with
  | [] => ranges
  | value :: rest =>
      if lt (add1 acc) value
      then reduce_ranges nums value (S endIndex) rest endIndex
             (ranges ++ [slice startIndex endIndex nums])
      else reduce_ranges nums value (S endIndex) rest startIndex ranges
  end.

(** [toString] of the function: [shift] takes the first number and [pop]
    the last of those that remain. *)
Definition toString (arr : list jsnum) : jsstring :=
  if (2 <? length arr)%nat then
    match head arr, last (tail arr) with
    | Some a, Some b => Number_toString a ++ [DASH] ++ Number_toString b
    | _, _ => []
    end
  else join [COMMA] (Number_toString <$> arr).

(** The string returned, and the content of the caller's array [nums] when
    the function returns. *)
Definition extractRanges (nums : list jsnum) : jsstring * list jsnum :=
  let nums := nums ++ [Infinity] in
  let ranges :=
    match nums with
    | [] => []
    | first :: rest => reduce_ranges nums first 1 rest 0 []
    end in
  (join [COMMA] (toString <$> ranges), nums).

(** *** The arrays as objects

    The caller's array and the arrays that [slice] makes are objects of a
    heap, and a reference to an array is the index of its object: [push],
    [shift] and [pop] change the object they are called on, and [slice]
    makes a new one. *)
Module Heap.

Abbreviation ref := nat.
Abbreviation heap := (list (list jsnum)).

Definition elements_of (h : heap) (arr : ref) : list jsnum :=
  default [] (h !! arr).

(** [arr.push(x)]. *)
Definition push (h : heap) (arr : ref) (x : jsnum) : heap :=
  <[arr := elements_of h arr ++ [x]]> h.

(** [arr.slice(startIndex, endIndex)]: the reference to a new array, and
    the heap with it. *)
Definition slice (h : heap) (arr : ref) (startIndex endIndex : nat)
  : ref * heap :=
  (length h, h ++ [slice startIndex endIndex (elements_of h arr)]).

(** [arr.shift()] and [arr.pop()]: the element taken off, [None] for the
    [undefined] of an empty array, and the heap. *)
Definition shift (h : heap) (arr : ref) : option jsnum * heap :=
  (head (elements_of h arr), <[arr := tail (elements_of h arr)]> h).

Definition pop (h : heap) (arr : ref) : option jsnum * heap :=
  (last (elements_of h arr), <[arr := removelast (elements_of h arr)]> h).

(** A value in a template literal. *)
Definition template (x : option jsnum) : jsstring :=
  match x with
  | Some x => Number_toString x
  | None => u16 "undefined"
  end.

(** [toString] of the function, which takes the ends off the array it is
    given when the array has more than two elements. *)
Definition toString (h : heap) (arr : ref) : jsstring * heap :=
  if (2 <? length (elements_of h arr))%nat then
    let '(a, h) := shift h arr in
    let '(b, h) := pop h arr in
    (template a ++ [DASH] ++ template b, h)
  else (join [COMMA] (Number_toString <$> elements_of h arr), h).

(** What the callback of the [reduce] changes: the heap, the references
    that the array [ranges] holds, and [startIndex]. *)
Record reduce_state := ReduceState {
  st_heap : heap;
  st_ranges : list ref;
  st_startIndex : nat
}.

Definition reduce_body (nums : ref) (st : reduce_state) (acc value : jsnum)
    (endIndex : nat) : reduce_state :=
  if lt (add1 acc) value then
    let '(group, h) := slice (st_heap st) nums (st_startIndex st) endIndex in
    ReduceState h (st_ranges st ++ [group]) endIndex
  else st.

(** The [reduce] without initial value, for the [count] indices from
    [endIndex] on: the element is read from the array when its turn comes,
    and an index that the array does not have is passed over. *)
Fixpoint reduce_loop (nums : ref) (count endIndex : nat) (acc : jsnum)
    (st : reduce_state) : reduce_state :=
  match count with
  | O => st
  | S count =>
      match elements_of (st_heap st) nums !! endIndex with
      | Some value =>
          reduce_loop nums count (S endIndex) value
            (reduce_body nums st acc value endIndex)
      | None => reduce_loop nums count (S endIndex) acc st
      end
  end.

(** [ranges.map(toString)]. *)
Fixpoint map_toString (h : heap) (ranges : list ref)
  : list jsstring * heap :=
  match ranges with
  | [] => ([], h)
  | arr :: ranges =>
      let '(s, h) := toString h arr in
      let '(ss, h) := map_toString h ranges in
      (s :: ss, h)
  end.

(** The string returned and the heap when the function returns. After the
    [push] the array has an element, so that the [reduce] without initial
    value starts from it. *)
Definition extractRanges (h : heap) (nums : ref) : jsstring * heap :=
  let h := push h nums Infinity in
  let st :=
    match elements_of h nums with
    | [] => ReduceState h [] 0
    | first :: rest =>
        reduce_loop nums (length rest) 1 first (ReduceState h [] 0)
    end in
  let '(strings, h) := map_toString (st_heap st) (st_ranges st) in
  (join [COMMA] strings, h).

End Heap.

(** The groups that the [reduce] closes, from the group in progress [cur],
    its last number [acc] and the numbers that remain. *)
Fixpoint runs (cur : list jsnum) (acc : jsnum) (rest : list jsnum)
  : list (list jsnum) :=
  match rest with
  | [] => []
  | value :: rest =>
      if lt (add1 acc) value then cur :: runs [value] value rest
      else runs (cur ++ [value]) value rest
  end.

(** Reading a string of ranges back: the numbers between commas, a dash
    after a number standing for all the integers up to the number that
    follows it. *)
Fixpoint parse_uint (s : jsstring) : option Decimal.uint :=
  match s with
  | [] => Some Nil
  | c :: r =>
      d ← parse_uint r;
      match c with
      | 48%N => Some (D0 d) | 49%N => Some (D1 d) | 50%N => Some (D2 d)
      | 51%N => Some (D3 d) | 52%N => Some (D4 d) | 53%N => Some (D5 d)
      | 54%N => Some (D6 d) | 55%N => Some (D7 d) | 56%N => Some (D8 d)
      | 57%N => Some (D9 d)
      | _ => None
      end
  end.

Definition parse_integer (s : jsstring) : option Z :=
  match s with
  | [] => None
  | c :: r =>
      if (c =? DASH)%N then
        match r with
        | [] => None
        | _ => (λ d, Z.of_int (Neg d)) <$> parse_uint r
        end
      else (λ d, Z.of_int (Pos d)) <$> parse_uint s
  end.

(** The text before the first dash and the text after it. *)
Fixpoint split_at_dash (s : jsstring) : option (jsstring * jsstring) :=
  match s with
  | [] => None
  | c :: r =>
      if (c =? DASH)%N then Some ([], r)
      else (λ ab, (c :: fst ab, snd ab)) <$> split_at_dash r
  end.

(** The integers from [a] to [b], both included. *)
Definition range (a b : Z) : list Z :=
  (λ k : nat, a + Z.of_nat k) <$> seq 0 (Z.to_nat (b - a + 1)).

(** One item: a number, or two numbers with a dash between them (the first
    character can only be the sign of the first number). *)
Definition parse_item (s : jsstring) : option (list Z) :=
  match s with
  | [] => None
  | c :: r =>
      match split_at_dash r with
      | None => z ← parse_integer s; Some [z]
      | Some (a, b) =>
          x ← parse_integer (c :: a); y ← parse_integer b; Some (range x y)
      end
  end.

Definition parse_ranges (s : jsstring) : option (list Z) :=
  match s with
  | [] => Some []
  | _ => items ← mapM parse_item (split COMMA s); Some (concat items)
  end.

(** The items that a run of the integers from [lo] to [hi] prints as, and
    what each of them reads as. *)
Definition run_items (g : Z * Z) : list jsstring :=
  if (2 <? length (range (fst g) (snd g)))%nat
  then [decimal (fst g) ++ [DASH] ++ decimal (snd g)]
  else decimal <$> range (fst g) (snd g).

Definition run_values (g : Z * Z) : list (list Z) :=
  if (2 <? length (range (fst g) (snd g)))%nat
  then [range (fst g) (snd g)]
  else (λ z, [z]) <$> range (fst g) (snd g).

Definition is_digit (c : N) : Prop := (48 ≤ c ≤ 57)%N.

(** A sequence in which no number is more than one above the number before
    it. *)
Fixpoint no_gap (z : Z) (zs : list Z) : Prop :=
  match zs with
  | [] => True
  | y :: r => y ≤ z + 1 ∧ no_gap y r
  end.

End Katas1.

(** * 11-katas-2-tasks.js *)

Module Katas2.

(** ** parseBankAccount *)

Definition nums : list jsstring :=
  [ u16 " _ | ||_|";
    u16 "     |  |";
    u16 " _  _||_ ";
    u16 " _  _| _|";
    u16 "   |_|  |";
    u16 " _ |_  _|";
    u16 " _ |_ |_|";
    u16 " _   |  |";
    u16 " _ |_||_|";
    u16 " _ |_| _|" ].

(** [line.split(/(.{3})/)]: the separators are the successive groups of three
    characters matched by [.], and they are kept in the result because of the
    capturing group; [pending] is the text since the last separator,
    reversed. *)
Fixpoint split_chunks (pending : jsstring) (s : jsstring) : list jsstring :=
  match s with
  | [] => [rev pending]
  | a :: t =>
      match t with
      | b :: c :: rest =>
          if is_dot a && is_dot b && is_dot c
          then rev pending :: [a; b; c] :: split_chunks [] rest
          else split_chunks (a :: pending) t
      | _ => split_chunks (a :: pending) t
      end
  end.

(** [.filter(Boolean)] on strings drops the empty ones. *)
Definition filter_Boolean (l : list jsstring) : list jsstring :=
  filter (λ s : jsstring, s ≠ []) l.

(** [acc[idx] += subline]. When [idx] is the length of [acc] the slot is
    [undefined] and the array grows by the string ["undefined" + subline];
    [forEach] visits the indices in order, so [idx] is never beyond that. *)
Fixpoint add_at (acc : list jsstring) (idx : nat) (subline : jsstring)
  : list jsstring :=
  match acc, idx with
  | x :: r, O => (x ++ subline) :: r
  | x :: r, S i => x :: add_at r i subline
  | [], _ => [u16 "undefined" ++ subline]
  end.

(** [line.forEach((subline, idx) => acc[idx] += subline)]. *)
Fixpoint add_line (acc : list jsstring) (idx : nat) (line : list jsstring)
  : list jsstring :=
  match line with
  | [] => acc
  | subline :: r => add_line (add_at acc idx subline) (S idx) r
  end.

(** The nine glyph strings gathered from the lines (more when a line holds
    more than nine chunks). *)
Definition glyphs (bankAccount : jsstring) : list jsstring :=
  foldl (λ acc line, add_line acc 0 line)
        (replicate 9 [])
        ((λ line, filter_Boolean (split_chunks [] line)) <$> split LF bankAccount).

(** [.map((num) => nums.indexOf(num))]. *)
Definition digits (bankAccount : jsstring) : list Z :=
  indexOf nums <$> glyphs bankAccount.

(** [.reduce((acc, num) => (acc * 10) + num)], without initial value. *)
Definition reduce_digits (ds : list Z) : result Z :=
  match ds with
  | [] => Throw TypeError
  | d :: r => Ok (foldl (λ acc num, acc * 10 + num) d r)
  end.

Definition parseBankAccount (bankAccount : jsstring) : result Z :=
  reduce_digits (digits bankAccount).

Definition account_123456789 : jsstring :=
  u16 "    _  _     _  _  _  _  _ " ++ [LF] ++
  u16 "  | _| _||_||_ |_   ||_||_|" ++ [LF] ++
  u16 "  ||_  _|  | _||_|  ||_| _|" ++ [LF].

Definition account_023056789 : jsstring :=
  u16 " _  _  _  _  _  _  _  _  _ " ++ [LF] ++
  u16 "| | _| _|| ||_ |_   ||_||_|" ++ [LF] ++
  u16 "|_||_  _||_| _||_|  ||_| _|" ++ [LF].

(** An account number written with the glyphs of [nums]: row [k] of the
    glyph of each digit, for the three rows, each row ended by a line
    feed. *)
Definition glyph_row (k : nat) (d : nat) : jsstring :=
  take 3 (drop (3 * k) (nth d nums [])).

Definition write_account (ds : list nat) : jsstring :=
  concat (glyph_row 0 <$> ds) ++ [LF] ++
  concat (glyph_row 1 <$> ds) ++ [LF] ++
  concat (glyph_row 2 <$> ds) ++ [LF].

(** The number that a sequence of digits is the decimal notation of. *)
Definition account_value (ds : list nat) : Z :=
  foldl (λ acc d, acc * 10 + Z.of_nat d) 0 ds.

(** ** wrapText *)

(** [(?=(\s|$))] at the position where [s] starts. *)
Definition lookahead_end (s : jsstring) : bool :=
  match s with
  | [] => true
  | c :: _ => is_space c
  end.

(** The number of characters that the greedy [.{1,max}] takes first. *)
Fixpoint dot_run (max : nat) (s : jsstring) : nat :=
  match max, s with
  | S m, c :: r => if is_dot c then S (dot_run m r) else O
  | _, _ => O
  end.

(** Backtracking: the first of the lengths [k], [k-1], ..., 1 after which
    the lookahead holds. *)
Fixpoint backtrack (k : nat) (s : jsstring) : option nat :=
  match k with
  | O => None
  | S k' => if lookahead_end (drop k s) then Some k else backtrack k' s
  end.

(** The length of the match of [(?!\s).{1,columns}(?=(\s|$))] at the
    position where [s] starts. *)
Definition match_at (columns : nat) (s : jsstring) : option nat :=
  match s with
  | [] => None
  | c :: _ => if is_space c then None else backtrack (dot_run columns s) s
  end.

(** All the matches, the search resuming where the previous match ended;
    [skip] is the number of characters left of the match in progress. *)
Fixpoint match_all (columns : nat) (skip : nat) (s : jsstring)
  : list jsstring :=
  match s with
  | [] => []
  | _ :: r =>
      match skip with
      | S k => match_all columns k r
      | O =>
          match match_at columns s with
          | Some len => take len s :: match_all columns (len - 1) r
          | None => match_all columns 0 r
          end
      end
  end.

(** The lines that [wrapText(text, columns)] yields. The pattern with
    [{1,0}] is not a regular expression, and [match] gives [null], which is
    not iterable, when nothing matches. *)
Definition wrapText (text : jsstring) (columns : nat) : result (list jsstring) :=
  if bool_decide (columns = 0%nat) then Throw SyntaxError
  else
    match match_all columns 0 text with
    | [] => Throw TypeError
    | lines => Ok lines
    end.

(** The pieces of a text between its whitespace characters, and its words:
    the pieces that are not empty. *)
Fixpoint split_spaces (s : jsstring) : list jsstring :=
  match s with
  | [] => [[]]
  | c :: r =>
      if is_space c then [] :: split_spaces r
      else
        match split_spaces r with
        | w :: ws => (c :: w) :: ws
        | [] => [[c]]
        end
  end.

Definition words (s : jsstring) : list jsstring :=
  filter (λ w : jsstring, w ≠ []) (split_spaces s).

(** The text with each run of whitespace made one space, and none at the
    ends. *)
Definition normalize (s : jsstring) : jsstring := join [SPACE] (words s).

(** A line of at least 1 and at most [columns] characters that starts with
    a character that is not whitespace. *)
Definition good_line (columns : nat) (line : jsstring) : Prop :=
  (1 ≤ length line ≤ columns)%nat ∧
  ∃ c r, line = c :: r ∧ is_space c = false.

(** A word: at least one character, none of them whitespace. *)
Definition is_word (w : jsstring) : Prop :=
  w ≠ [] ∧ Forall (λ c, is_space c = false) w.

(** The lines filled first-fit: a word goes, after one space, on the line
    in progress when the line stays within [columns], and starts the next
    line otherwise. *)
Fixpoint fill_lines (columns : nat) (line : jsstring) (ws : list jsstring)
  : list jsstring :=
  match ws with
  | [] => [line]
  | w :: ws =>
      if (length line + 1 + length w <=? columns)%nat
      then fill_lines columns (line ++ SPACE :: w) ws
      else line :: fill_lines columns w ws
  end.

Definition first_fit (columns : nat) (ws : list jsstring) : list jsstring :=
  match ws with
  | [] => []
  | w :: ws => fill_lines columns w ws
  end.

(** ** getPokerHandRank *)

Inductive PokerRank :=
  | StraightFlush | FourOfKind | FullHouse | Flush | Straight
  | ThreeOfKind | TwoPairs | OnePair | HighCard.

(** The numbers of the [PokerRank] object. *)
Definition PokerRank_value (r : PokerRank) : Z :=
  match r with
  | StraightFlush => 8 | FourOfKind => 7 | FullHouse => 6 | Flush => 5
  | Straight => 4 | ThreeOfKind => 3 | TwoPairs => 2 | OnePair => 1
  | HighCard => 0
  end.

(** The suit symbols, each one code unit. *)
Definition SPADE : N := 9824.
Definition CLUB : N := 9827.
Definition HEART : N := 9829.
Definition DIAMOND : N := 9830.

(** The card literal with number [n] and suit [suit], such as ['10♥']. *)
Definition card (n : string) (suit : N) : jsstring := u16 n ++ [suit].

Fixpoint skip_spaces (s : jsstring) : jsstring :=
  match s with
  | c :: r => if is_space c then skip_spaces r else s
  | [] => []
  end.

Definition digit_value (radix : Z) (c : N) : option Z :=
  let v := if ((48 <=? c) && (c <=? 57))%N then Z.of_N c - 48
           else if ((97 <=? c) && (c <=? 122))%N then Z.of_N c - 87
           else if ((65 <=? c) && (c <=? 90))%N then Z.of_N c - 55
           else radix in
  if v <? radix then Some v else None.

(** The value of the longest prefix of digits, [None] when it is empty. *)
Fixpoint parse_digits (radix : Z) (acc : option Z) (s : jsstring) : option Z :=
  match s with
  | [] => acc
  | c :: r =>
      match digit_value radix c with
      | Some v => parse_digits radix (Some (default 0 acc * radix + v)) r
      | None => acc
      end
  end.

(** [parseInt(s)]; [None] is [NaN]. *)
Definition parseInt (s : jsstring) : option Z :=
  let s1 := skip_spaces s in
  let '(sign, s2) :=
    match s1 with
    | 45%N :: r => (-1, r)
    | 43%N :: r => (1, r)
    | _ => (1, s1)
    end in
  let '(radix, s3) :=
    match s2 with
    | 48%N :: 120%N :: r | 48%N :: 88%N :: r => (16, r)
    | _ => (10, s2)
    end in
  Z.mul sign <$> parse_digits radix None s3.

(** [card.slice(0, -1)] and [card.slice(-1)]. *)
Definition getNumber (card : jsstring) : jsstring := removelast card.
Definition getType (card : jsstring) : jsstring :=
  match last card with Some c => [c] | None => [] end.

(** [arr.filter((numberCount) => count === numberCount).length]: [filter]
    visits the elements of the sparse array only. *)
Definition countEqualNumber (arr : gmap Z Z) (count : Z) : Z :=
  Z.of_nat (length (filter (λ numberCount, count = numberCount) (elements arr))).

(** The [reduce] that counts the cards of the suit of the card before them.
    [prev] is [arr[idx - 1]], [None] at index 0. *)
Fixpoint countEqualTypes_from (acc : Z) (prev : option jsstring)
    (hand : list jsstring) : Z :=
  match hand with
  | [] => acc
  | card :: r =>
      let isEqualType :=
        match prev with
        | None => true
        | Some p => bool_decide (getType card = getType p)
        end in
      countEqualTypes_from (if isEqualType then acc + 1 else 0) (Some card) r
  end.

(** [.every((number, idx, arr) => (idx === 0 || number == arr[idx - 1] + 1))]. *)
Fixpoint every_next (prev : option Z) (l : list Z) : bool :=
  match l with
  | [] => true
  | number :: r =>
      match prev with
      | None => true
      | Some p => bool_decide (number = p + 1)
      end && every_next (Some number) r
  end.

Definition getPokerHandRank (hand : list jsstring) : PokerRank :=
  let numbers0 :=
    u16 <$> ["2"; "3"; "4"; "5"; "6"; "7"; "8"; "9"; "10"; "J"; "Q"; "K"]%string in
  let numbers :=
    if existsb (λ card, bool_decide (parseInt card = Some 2)) hand
    then u16 "A" :: numbers0 else numbers0 ++ [u16 "A"] in
  let countEqualTypes := countEqualTypes_from 0 None hand in
  let handNumbers : gmap Z Z :=
    foldl (λ (acc : gmap Z Z) card,
             let index := indexOf numbers (getNumber card) in
             <[index := match acc !! index with
                        | Some v => if bool_decide (v = 0) then 1 else v + 1
                        | None => 1
                        end]> acc)
          ∅ hand in
  let hasOrder :=
    every_next None
      (merge_sort Z.le ((λ card, indexOf numbers (getNumber card)) <$> hand)) in
  let hasOneType := bool_decide (countEqualTypes = 5) in
  if hasOrder && hasOneType then StraightFlush
  else if hasOrder then Straight
  else if hasOneType then Flush
  else if bool_decide (countEqualNumber handNumbers 2 ≠ 0)
          && bool_decide (countEqualNumber handNumbers 3 ≠ 0) then FullHouse
  else if bool_decide (countEqualNumber handNumbers 2 = 1) then OnePair
  else if bool_decide (countEqualNumber handNumbers 2 = 2) then TwoPairs
  else if bool_decide (countEqualNumber handNumbers 3 ≠ 0) then ThreeOfKind
  else if bool_decide (countEqualNumber handNumbers 4 ≠ 0) then FourOfKind
  else HighCard.

(** The cards of a hand all end with the same character, their suit. *)
Definition one_suit (hand : list jsstring) : Prop :=
  ∀ card card', card ∈ hand → card' ∈ hand → getType card = getType card'.

(** ** getFigureRectangles *)

Definition PLUS : N := 43.
Definition BAR : N := 124.

(** [str.repeat(count)], which throws for a negative count. *)
Definition repeat_string (str : jsstring) (count : Z) : result jsstring :=
  if count <? 0 then Throw RangeError
  else Ok (concat (replicate (Z.to_nat count) str)).

Definition buildRectangle (width height : Z) : result jsstring :=
  let innerWidth := width - 2 in
  let innerHeight := height - 2 in
  top ← repeat_string [DASH] innerWidth;
  let rectangle := [PLUS] ++ top ++ [PLUS] ++ [LF] in
  fill ← repeat_string [SPACE] innerWidth;
  middle ← repeat_string ([BAR] ++ fill ++ [BAR] ++ [LF]) innerHeight;
  let rectangle := rectangle ++ middle in
  bottom ← repeat_string [DASH] innerWidth;
  Ok (rectangle ++ [PLUS] ++ bottom ++ [PLUS] ++ [LF]).

(** [line.split(/\+|\|/)]: the pieces between the characters that [sep]
    holds of. *)
Fixpoint split_where (sep : N → bool) (cur : jsstring) (s : jsstring)
  : list jsstring :=
  match s with
  | [] => [rev cur]
  | c :: r =>
      if sep c then rev cur :: split_where sep [] r
      else split_where sep (c :: cur) r
  end.

Definition is_border (c : N) : bool := (c =? PLUS)%N || (c =? BAR)%N.

(** [line.split(/\+|\|/).slice(1, -1).map((innerWidth) => innerWidth.length)]. *)
Definition line_widths (line : jsstring) : list Z :=
  (λ innerWidth : jsstring, Z.of_nat (length innerWidth))
    <$> removelast (tail (split_where is_border [] line)).

(** [line.includes('+')]. *)
Definition includes_plus (line : jsstring) : bool :=
  existsb (λ c, (c =? PLUS)%N) line.

(** The body of the loop over the lines: the state is [height], [widths]
    and the strings yielded so far. *)
Definition figure_body (st : Z * list Z * list jsstring) (line : jsstring)
  : result (Z * list Z * list jsstring) :=
  let '(height, widths, yielded) := st in
  let height := height + 1 in
  st ← (if includes_plus line then
          rectangles ← mapM (λ width, buildRectangle (width + 2) height) widths;
          Ok (1, yielded ++ rectangles)
        else Ok (height, yielded));
  Ok (fst st, line_widths line, snd st).

Fixpoint figure_loop (st : Z * list Z * list jsstring) (lines : list jsstring)
  : result (Z * list Z * list jsstring) :=
  match lines with
  | [] => Ok st
  | line :: r => st ← figure_body st line; figure_loop st r
  end.

(** The strings that [getFigureRectangles(figure)] yields (when it throws,
    the model does not keep the strings yielded before). *)
Definition getFigureRectangles (figure : jsstring) : result (list jsstring) :=
  st ← figure_loop (0, [], []) (split LF figure);
  Ok (snd st).

(** The rectangle of [width] columns and [height] lines, for sizes of 2 at
    least. *)
Definition border_line (innerWidth : nat) : jsstring :=
  [PLUS] ++ replicate innerWidth DASH ++ [PLUS].

Definition inner_line (innerWidth : nat) : jsstring :=
  [BAR] ++ replicate innerWidth SPACE ++ [BAR].

Definition rectangle_lines (innerWidth innerHeight : nat) : list jsstring :=
  border_line innerWidth :: replicate innerHeight (inner_line innerWidth)
  ++ [border_line innerWidth].

Definition rectangle (innerWidth innerHeight : nat) : jsstring :=
  concat ((λ line, line ++ [LF]) <$> rectangle_lines innerWidth innerHeight).

(** A line of cells between bars: some text, then each cell after a bar,
    then a bar and some text. *)
Definition cells_line (lead : jsstring) (cells : list jsstring)
    (trail : jsstring) : jsstring :=
  lead ++ concat ((λ cell, BAR :: cell) <$> cells) ++ BAR :: trail.

(** A band of a figure: lines without a plus sign, the last of them a line
    of cells, and then a line with a plus sign. *)
Record band := Band {
  band_others : list jsstring;
  band_lead : jsstring;
  band_cells : list jsstring;
  band_trail : jsstring;
  band_border : jsstring
}.

Definition band_lines (b : band) : list jsstring :=
  band_others b
  ++ [cells_line (band_lead b) (band_cells b) (band_trail b); band_border b].

(** One rectangle for each cell of the band, as wide as the cell and as
    high as the band. *)
Definition band_rectangles (b : band) : list jsstring :=
  (λ cell : jsstring, rectangle (length cell) (S (length (band_others b))))
    <$> band_cells b.

Definition no_plus (line : jsstring) : Prop :=
  Forall (λ c, c ≠ PLUS ∧ c ≠ LF) line.

Definition plain_text (s : jsstring) : Prop :=
  Forall (λ c, c ≠ PLUS ∧ c ≠ BAR ∧ c ≠ LF) s.

Definition good_band (b : band) : Prop :=
  Forall no_plus (band_others b) ∧ plain_text (band_lead b) ∧
  Forall plain_text (band_cells b) ∧ plain_text (band_trail b) ∧
  PLUS ∈ band_border b ∧ LF ∉ band_border b.

(** What the loop keeps: the widths are lengths, and a height of 1 at least
    goes with them. *)
Definition figure_inv (st : Z * list Z * list jsstring) : Prop :=
  0 ≤ fst (fst st) ∧ Forall (λ w, 0 ≤ w) (snd (fst st)) ∧
  (snd (fst st) ≠ [] → 1 ≤ fst (fst st)).

End Katas2.

(** * Properties of the functions of 10-katas-1-tasks.js *)

Section expandBraces.
Import Katas1.

Implicit Types (s p body lit rest arg : jsstring).
Implicit Types (CASH : gmap jsstring (list jsstring)).

(** *** The pattern and the replacement on a string with a plain group *)

Lemma group_body_closed body rest :
  no_brace body → group_body (body ++ RBRACE :: rest) = Some body.
Proof.
  induction 1 as [|c body [Hl Hr] _ IH]; simpl; [done|].
  destruct (N.eqb_spec c RBRACE); [done|].
  destruct (N.eqb_spec c LBRACE); [done|].
  by rewrite IH.
Qed.

Lemma getMatch_first_group p body rest :
  no_brace p → no_brace body →
  getMatch (p ++ LBRACE :: body ++ RBRACE :: rest)
  = Some (LBRACE :: body ++ [RBRACE]).
Proof.
  intros Hp Hbody. induction Hp as [|c p [Hl _] _ IH]; simpl.
  - by rewrite group_body_closed.
  - by destruct (N.eqb_spec c LBRACE).
Qed.

Lemma getMatch_no_brace p : no_brace p → getMatch p = None.
Proof.
  induction 1 as [|c p [Hl _] _ IH]; simpl; [done|].
  by destruct (N.eqb_spec c LBRACE).
Qed.

Lemma strip_prefix_app needle rest :
  strip_prefix needle (needle ++ rest) = Some rest.
Proof.
  induction needle as [|a needle IH]; simpl; [by destruct rest|].
  by rewrite N.eqb_refl.
Qed.

Lemma find_sub_first_group p needle rest :
  no_brace p →
  find_sub (LBRACE :: needle) (p ++ (LBRACE :: needle) ++ rest) = Some (p, rest).
Proof.
  induction 1 as [|c p [Hl _] _ IH].
  - rewrite app_nil_l. unfold find_sub.
    destruct ((LBRACE :: needle) ++ rest) eqn:E; [done|].
    rewrite <-E. by rewrite strip_prefix_app.
  - change ((c :: p) ++ (LBRACE :: needle) ++ rest)
      with (c :: (p ++ (LBRACE :: needle) ++ rest)).
    cbn [find_sub strip_prefix].
    destruct (N.eqb_spec LBRACE c) as [E|_]; [by subst c|].
    by rewrite IH.
Qed.

Lemma GetSubstitution_no_dollar matched before after arg :
  no_dollar arg → GetSubstitution matched before after arg = arg.
Proof.
  induction 1 as [|c arg Hc _ IH]; simpl; [done|].
  destruct (N.eqb_spec c DOLLAR); [done|]. by rewrite IH.
Qed.

Lemma replace_first_group p body rest arg :
  no_brace p → no_dollar arg →
  replace (p ++ LBRACE :: body ++ RBRACE :: rest) (LBRACE :: body ++ [RBRACE]) arg
  = p ++ arg ++ rest.
Proof.
  intros Hp Harg. unfold replace.
  replace (p ++ LBRACE :: body ++ RBRACE :: rest)
    with (p ++ (LBRACE :: body ++ [RBRACE]) ++ rest)
    by (simpl; by rewrite <-app_assoc).
  rewrite find_sub_first_group by done.
  by rewrite GetSubstitution_no_dollar.
Qed.

Lemma split_on_Forall (P : N → Prop) sep cur s :
  Forall P cur → Forall P s → Forall (Forall P) (split_on sep cur s).
Proof.
  intros Hcur Hs. revert cur Hcur.
  induction Hs as [|c s Hc _ IH]; intros cur Hcur; simpl.
  - constructor; [by apply Forall_rev|constructor].
  - destruct (c =? sep)%N.
    + constructor; [by apply Forall_rev|]. by apply IH.
    + apply IH. by constructor.
Qed.

Lemma split_on_not_nil sep cur s : split_on sep cur s ≠ [].
Proof.
  revert cur. induction s as [|c s IH]; intros cur; simpl; [done|].
  destruct (c =? sep)%N; [done|apply IH].
Qed.

Lemma alternatives_no_dollar body :
  no_dollar body → Forall no_dollar (alternatives body).
Proof. intros. by apply split_on_Forall. Qed.

Lemma alternatives_no_brace body :
  no_brace body → Forall no_brace (alternatives body).
Proof. intros. by apply split_on_Forall. Qed.

Lemma slice_1_m1_group body : slice_1_m1 (LBRACE :: body ++ [RBRACE]) = body.
Proof. unfold slice_1_m1. simpl. apply removelast_last. Qed.

(** *** The cache does not change what [openBracket] returns *)

Lemma openBracket_cache_ok CASH bracket :
  cache_ok CASH →
  fst (openBracket CASH bracket) = split COMMA (slice_1_m1 bracket) ∧
  cache_ok (snd (openBracket CASH bracket)).
Proof.
  intros Hok. unfold openBracket.
  destruct (CASH !! bracket) as [result|] eqn:E; simpl.
  - split; [by apply Hok|done].
  - split; [done|]. intros b r. rewrite lookup_insert.
    case_decide; [by intros [= <-]; subst|by apply Hok].
Qed.

Lemma cache_ok_empty : cache_ok ∅.
Proof. intros b r. by rewrite lookup_empty. Qed.

Lemma replaceBracket_first_group CASH p body rest :
  cache_ok CASH → no_brace p → no_brace body → no_dollar body →
  fst (replaceBracket CASH (p ++ LBRACE :: body ++ RBRACE :: rest))
  = (λ a, p ++ a ++ rest) <$> alternatives body ∧
  cache_ok (snd (replaceBracket CASH (p ++ LBRACE :: body ++ RBRACE :: rest))).
Proof.
  intros Hok Hp Hbody Hdollar. unfold replaceBracket.
  rewrite getMatch_first_group by done.
  destruct (openBracket_cache_ok CASH (LBRACE :: body ++ [RBRACE]) Hok)
    as [Hargs Hok'].
  destruct (openBracket CASH (LBRACE :: body ++ [RBRACE])) as [args CASH'].
  simpl in *. split; [|done].
  rewrite Hargs, slice_1_m1_group. unfold combine.
  apply Forall_fmap_ext_1, Forall_forall. intros a Ha.
  apply replace_first_group; [done|].
  pose proof (alternatives_no_dollar body Hdollar) as Hall.
  rewrite Forall_forall in Hall. by apply Hall.
Qed.

Lemma replaceBracket_no_brace CASH p :
  no_brace p → replaceBracket CASH p = ([p], CASH).
Proof. intros Hp. unfold replaceBracket. by rewrite getMatch_no_brace. Qed.

Lemma map_replaceBracket_no_brace CASH ps :
  Forall no_brace ps →
  map_replaceBracket CASH ps = ((λ p, [p]) <$> ps, CASH).
Proof.
  induction 1 as [|p ps Hp _ IH]; simpl; [done|].
  by rewrite replaceBracket_no_brace, IH.
Qed.

Lemma map_replaceBracket_first_group CASH ps body rest :
  cache_ok CASH → Forall no_brace ps → no_brace body → no_dollar body →
  fst (map_replaceBracket CASH ((λ p, p ++ LBRACE :: body ++ RBRACE :: rest) <$> ps))
  = (λ p, (λ a, p ++ a ++ rest) <$> alternatives body) <$> ps ∧
  cache_ok (snd (map_replaceBracket CASH
                   ((λ p, p ++ LBRACE :: body ++ RBRACE :: rest) <$> ps))).
Proof.
  intros Hok Hps Hbody Hdollar. revert CASH Hok.
  induction Hps as [|p ps Hp _ IH]; intros CASH Hok; simpl; [done|].
  destruct (replaceBracket_first_group CASH p body rest Hok Hp Hbody Hdollar)
    as [Hx Hok1].
  destruct (replaceBracket CASH (p ++ LBRACE :: body ++ RBRACE :: rest))
    as [x CASH1].
  destruct (IH CASH1 Hok1) as [Hxs Hok2].
  destruct (map_replaceBracket CASH1 _) as [xs CASH2].
  simpl in *. by rewrite Hx, Hxs.
Qed.

(** *** The loop on a string with plain groups *)

Lemma forallb_not_one_false (ps : list jsstring) :
  ps ≠ [] →
  forallb (λ comb : list jsstring, negb (length comb =? 1)%nat) ((λ p, [p]) <$> ps)
  = false.
Proof. by destruct ps. Qed.

Lemma forallb_not_one_true {A} (f : A → list jsstring) (xs : list A) :
  (∀ x, (2 ≤ length (f x))%nat) →
  forallb (λ comb : list jsstring, negb (length comb =? 1)%nat) (f <$> xs) = true.
Proof.
  intros Hf. induction xs as [|x xs IH]; [done|].
  rewrite fmap_cons. cbn [forallb]. rewrite IH, andb_true_r. specialize (Hf x).
  destruct (Nat.eqb_spec (length (f x)) 1); [lia|done].
Qed.

Lemma concat_singletons (ps : list jsstring) : concat ((λ p, [p]) <$> ps) = ps.
Proof. induction ps as [|p ps IH]; [done|]. rewrite fmap_cons. simpl. by rewrite IH. Qed.

Lemma findBracets_loop_plain gs : ∀ CASH ps,
  cache_ok CASH → ps ≠ [] → Forall no_brace ps → Forall plain_group gs →
  findBracets_loop (S (length gs)) CASH ((λ p, p ++ render_groups gs) <$> ps)
  = Some (expansions ps gs).
Proof.
  induction gs as [|[body lit] gs IH]; intros CASH ps Hok Hne Hps Hgs.
  - cbn [render_groups length findBracets_loop expansions].
    rewrite (list_fmap_ext _ id ps) by (by intros; simpl; rewrite ?app_nil_r).
    rewrite list_fmap_id, map_replaceBracket_no_brace by done.
    by rewrite forallb_not_one_false, concat_singletons.
  - apply Forall_cons in Hgs as [(Hbody & Hlit & Hdollar & Htwo) Hgs].
    simpl in Hbody, Hlit, Hdollar, Htwo.
    cbn [render_groups length expansions].
    remember (S (length gs)) as fuel. cbn [findBracets_loop].
    destruct (map_replaceBracket_first_group CASH ps body
                (lit ++ render_groups gs) Hok Hps Hbody Hdollar) as [Hx Hok'].
    destruct (map_replaceBracket CASH _) as [replaced CASH'].
    simpl in Hx, Hok'. subst replaced.
    rewrite forallb_not_one_true by (by intros; rewrite length_fmap).
    subst fuel.
    replace (concat _) with
      ((λ p, p ++ render_groups gs) <$>
         (p ← ps; (λ a, p ++ a ++ lit) <$> alternatives body)).
    + apply IH; [done| | |done].
      * destruct ps as [|p ps]; [done|]. simpl.
        destruct (alternatives body) eqn:E; [simpl in Htwo; lia|done].
      * apply Forall_bind, Forall_forall. intros p Hp.
        rewrite Forall_forall in Hps. specialize (Hps p Hp).
        apply Forall_fmap, Forall_forall. intros a Ha.
        pose proof (alternatives_no_brace body Hbody) as Hall.
        rewrite Forall_forall in Hall. specialize (Hall a Ha).
        unfold no_brace in *. simpl. rewrite !Forall_app. done.
    + clear. induction ps as [|p ps IHps]; [done|].
      cbn. rewrite fmap_app, IHps. f_equal.
      rewrite <-list_fmap_compose. apply list_fmap_ext. intros _ a _. simpl.
      by rewrite <-!app_assoc.
Qed.

Lemma findBracets_loop_more_fuel fuel : ∀ fuel' CASH combinations r,
  findBracets_loop fuel CASH combinations = Some r → (fuel ≤ fuel')%nat →
  findBracets_loop fuel' CASH combinations = Some r.
Proof.
  induction fuel as [|fuel IH]; intros fuel' CASH combinations r; [done|].
  intros Hr Hle. destruct fuel' as [|fuel']; [lia|].
  simpl in *. destruct (map_replaceBracket CASH combinations) as [replaced CASH'].
  destruct (forallb _ replaced); [|done].
  apply IH; [done|lia].
Qed.

Lemma length_expansions gs : ∀ ps,
  length (expansions ps gs) = (length ps * alternatives_product gs)%nat.
Proof.
  induction gs as [|[body lit] gs IH]; intros ps; simpl; [lia|].
  rewrite IH. unfold alternatives_product. simpl.
  assert (length (p ← ps; (λ a, p ++ a ++ lit) <$> alternatives body)
          = (length ps * length (alternatives body))%nat) as ->; [|lia].
  induction ps as [|p ps IHps]; [done|].
  cbn. rewrite length_app, length_fmap, IHps. lia.
Qed.

(** *** The set of the strings found *)

Lemma Set_add_all_spec arr : ∀ set,
  NoDup set →
  NoDup (Set_add_all set arr) ∧
  (∀ x, x ∈ Set_add_all set arr ↔ x ∈ set ∨ x ∈ arr) ∧
  (length (Set_add_all set arr) ≤ length set + length arr)%nat ∧
  (NoDup (set ++ arr) → Set_add_all set arr = set ++ arr).
Proof.
  induction arr as [|x arr IH]; intros set Hset; simpl.
  - split_and!; [done| |lia|by rewrite app_nil_r].
    intros x. rewrite elem_of_nil. tauto.
  - case_bool_decide as Hin.
    + destruct (IH set Hset) as (Hnd & Hel & Hlen & Heq).
      split_and!; [done| |lia|].
      * intros y. rewrite Hel, elem_of_cons. split; [tauto|].
        intros [?|[->|?]]; tauto.
      * intros Hdup. apply NoDup_app in Hdup as (_ & Hdisj & _).
        exfalso. apply (Hdisj x Hin). by left.
    + assert (NoDup (set ++ [x])) as Hset'.
      { apply NoDup_app. split_and!; [done| |apply NoDup_singleton].
        intros y Hy ->%list_elem_of_singleton. done. }
      destruct (IH (set ++ [x]) Hset') as (Hnd & Hel & Hlen & Heq).
      split_and!; [done| | |].
      * intros y. rewrite Hel, elem_of_app, !elem_of_cons, elem_of_nil.
        tauto.
      * rewrite length_app in Hlen. simpl in Hlen. lia.
      * rewrite <-app_assoc in Heq. simpl in Heq. done.
Qed.

Lemma new_Set_spec arr :
  NoDup (new_Set arr) ∧
  (∀ x, x ∈ new_Set arr ↔ x ∈ arr) ∧
  (length (new_Set arr) ≤ length arr)%nat ∧
  (NoDup arr → new_Set arr = arr).
Proof.
  destruct (Set_add_all_spec arr [] (NoDup_nil_2)) as (Hnd & Hel & Hlen & Heq).
  split_and!; [done| |done|done].
  intros x. rewrite Hel, elem_of_nil. tauto.
Qed.

(** *** The loop ends on a string without dollar sign *)

Lemma opens_app s1 s2 : opens (s1 ++ s2) = (opens s1 + opens s2)%nat.
Proof. unfold opens. by rewrite filter_app, length_app. Qed.

Lemma opens_no_brace s : no_brace s → opens s = 0%nat.
Proof.
  unfold opens. induction 1 as [|c s [Hl _] _ IH]; [done|].
  by rewrite filter_cons_False.
Qed.

Lemma opens_cons_open s : opens (LBRACE :: s) = S (opens s).
Proof. unfold opens. by rewrite filter_cons_True. Qed.

Lemma opens_group body : no_brace body → opens (LBRACE :: body ++ [RBRACE]) = 1%nat.
Proof.
  intros Hbody. by rewrite opens_cons_open, opens_app, opens_no_brace.
Qed.

Lemma group_body_Some r body :
  group_body r = Some body → ∃ after, r = body ++ RBRACE :: after ∧ no_brace body.
Proof.
  revert body. induction r as [|c r IH]; intros body; simpl; [done|].
  destruct (N.eqb_spec c RBRACE) as [->|Hr].
  { intros [= <-]. exists r. split; [done|constructor]. }
  destruct (N.eqb_spec c LBRACE) as [->|Hl]; [done|].
  destruct (group_body r) as [body'|]; [|done]. intros [= <-].
  destruct (IH body' eq_refl) as (after & -> & Hbody).
  exists after. split; [done|]. by constructor.
Qed.

Lemma getMatch_Some line bracket :
  getMatch line = Some bracket →
  ∃ before body after,
    line = before ++ bracket ++ after ∧
    bracket = LBRACE :: body ++ [RBRACE] ∧ no_brace body.
Proof.
  induction line as [|c line IH]; simpl; [done|].
  assert (getMatch line = Some bracket →
          ∃ before body after,
            c :: line = before ++ bracket ++ after ∧
            bracket = LBRACE :: body ++ [RBRACE] ∧ no_brace body) as Hrec.
  { intros (before & body & after & -> & Hb & Hbody)%IH.
    by exists (c :: before), body, after. }
  destruct (N.eqb_spec c LBRACE) as [->|_]; [|done].
  destruct (group_body line) as [body|] eqn:Hbody; [|done].
  intros [= <-]. apply group_body_Some in Hbody as (after & -> & Hbody).
  exists [], body, after. split_and!; [|done|done].
  simpl. by rewrite <-app_assoc.
Qed.

Lemma strip_prefix_Some needle hay after :
  strip_prefix needle hay = Some after → hay = needle ++ after.
Proof.
  revert hay. induction needle as [|a needle IH]; intros [|b hay]; simpl;
    try (by intros [= <-]).
  destruct (N.eqb_spec a b) as [->|_]; [|done].
  by intros ->%IH.
Qed.

Lemma find_sub_Some needle hay before after :
  find_sub needle hay = Some (before, after) → hay = before ++ needle ++ after.
Proof.
  revert before. induction hay as [|c hay IH]; intros before; simpl.
  - destruct (strip_prefix needle []) eqn:E; [|done].
    intros [= <- <-]. by apply strip_prefix_Some in E.
  - destruct (strip_prefix needle (c :: hay)) eqn:E.
    + intros [= <- <-]. by apply strip_prefix_Some in E.
    + destruct (find_sub needle hay) as [[b a]|]; [|done].
      intros [= <- <-]. simpl. by rewrite (IH b eq_refl).
Qed.

Lemma find_sub_is_Some needle before after :
  is_Some (find_sub needle (before ++ needle ++ after)).
Proof.
  induction before as [|c before IH].
  - rewrite app_nil_l. destruct (needle ++ after) eqn:E; simpl;
      rewrite <-?E, strip_prefix_app; done.
  - change ((c :: before) ++ needle ++ after)
      with (c :: (before ++ needle ++ after)).
    cbn [find_sub]. destruct (strip_prefix needle _); [done|].
    destruct IH as [ba ->]. done.
Qed.

Lemma replaceBracket_rewritten CASH line :
  cache_ok CASH → no_dollar line →
  rewritten line (fst (replaceBracket CASH line)) ∧
  cache_ok (snd (replaceBracket CASH line)).
Proof.
  intros Hok Hline. unfold replaceBracket.
  destruct (getMatch line) as [bracket|] eqn:Hmatch; [|by split; [left|]].
  apply getMatch_Some in Hmatch as (before0 & body & after0 & Heq & Hb & Hbody).
  destruct (openBracket_cache_ok CASH bracket Hok) as [Hargs Hok'].
  destruct (openBracket CASH bracket) as [args CASH'].
  simpl in *. split; [|done]. right.
  assert (no_dollar body) as Hdollar.
  { unfold no_dollar in *. rewrite Heq, Hb in Hline.
    rewrite Forall_app, Forall_app, Forall_cons, Forall_app in Hline. tauto. }
  assert (args = alternatives body) as ->.
  { by rewrite Hargs, Hb, slice_1_m1_group. }
  destruct (find_sub_is_Some bracket before0 after0) as [[before after] Hfind].
  rewrite <-Heq in Hfind. pose proof (find_sub_Some _ _ _ _ Hfind) as Hline'.
  split.
  - unfold combine. intros Hnil%fmap_nil_inv.
    by apply (split_on_not_nil COMMA [] body).
  - unfold combine. apply Forall_fmap, Forall_forall. intros arg Harg.
    pose proof (alternatives_no_dollar body Hdollar) as Hd.
    pose proof (alternatives_no_brace body Hbody) as Hn.
    rewrite Forall_forall in Hd, Hn. specialize (Hd arg Harg).
    specialize (Hn arg Harg). simpl.
    unfold replace. rewrite Hfind, GetSubstitution_no_dollar by done.
    split.
    + unfold no_dollar in *. rewrite Hline' in Hline.
      rewrite !Forall_app in Hline. rewrite !Forall_app. tauto.
    + rewrite Hline', !opens_app, (opens_no_brace arg), Hb, opens_group by done.
      lia.
Qed.

Lemma map_replaceBracket_rewritten combinations : ∀ CASH,
  cache_ok CASH → Forall no_dollar combinations →
  Forall2 rewritten combinations (fst (map_replaceBracket CASH combinations)) ∧
  cache_ok (snd (map_replaceBracket CASH combinations)).
Proof.
  induction combinations as [|line combinations IH]; intros CASH Hok Hall;
    simpl; [by split; [constructor|]|].
  apply Forall_cons in Hall as [Hline Hall].
  destruct (replaceBracket_rewritten CASH line Hok Hline) as [Hx Hok1].
  destruct (replaceBracket CASH line) as [x CASH1].
  destruct (IH CASH1 Hok1 Hall) as [Hxs Hok2].
  destruct (map_replaceBracket CASH1 combinations) as [xs CASH2].
  simpl in *. split; [by constructor|done].
Qed.

Lemma rewritten_all_changed combinations replaced :
  Forall2 rewritten combinations replaced →
  forallb (λ comb : list jsstring, negb (length comb =? 1)%nat) replaced = true →
  Forall2 (λ line comb,
             comb ≠ [] ∧
             Forall (λ e, no_dollar e ∧ S (opens e) = opens line) comb)
          combinations replaced.
Proof.
  induction 1 as [|line comb combinations replaced Hcomb _ IH]; [constructor|].
  cbn [forallb]. intros [Hone Hflag]%andb_true_iff.
  constructor; [|by apply IH].
  by destruct Hcomb as [->|?].
Qed.

Lemma findBracets_loop_terminates bound : ∀ CASH combinations,
  cache_ok CASH → combinations ≠ [] →
  Forall (λ line, no_dollar line ∧ (opens line ≤ bound)%nat) combinations →
  is_Some (findBracets_loop (S bound) CASH combinations).
Proof.
  induction bound as [|bound IH]; intros CASH combinations Hok Hne Hall;
    cbn [findBracets_loop].
  all: destruct (map_replaceBracket_rewritten combinations CASH Hok) as [Hrw Hok'];
    [eapply Forall_impl; [done|]; by intros ? [??]|].
  all: destruct (map_replaceBracket CASH combinations) as [replaced CASH'].
  all: simpl in Hrw, Hok'.
  all: destruct (forallb _ replaced) eqn:Hflag; [|done].
  all: pose proof (rewritten_all_changed _ _ Hrw Hflag) as Hrw'.
  - destruct Hrw' as [|line comb ? ? [Hcomb He] _]; [done|].
    apply Forall_cons in Hall as [[_ Hline] _].
    destruct comb as [|e comb]; [done|].
    apply Forall_cons in He as [[_ He] _]. lia.
  - apply IH; [done| |].
    + destruct Hrw' as [|line comb ? ? [Hcomb _] _]; [done|].
      simpl. by destruct comb.
    + clear -Hrw' Hall. induction Hrw' as [|line comb ? ? [_ He] _ IHrw];
        [constructor|].
      apply Forall_cons in Hall as [[_ Hline] Hall]. simpl.
      apply Forall_app. split; [|by apply IHrw].
      eapply Forall_impl; [done|]. intros e [? ?]. split; [done|lia].
Qed.

(** When no dollar sign is in the string, each rewrite takes one ['{'] off
    the candidate, and the loop ends within as many iterations as the string
    has ['{'], and one more. *)
Lemma findBracets_terminates_no_dollar str fuel :
  no_dollar str → (opens str < fuel)%nat →
  is_Some (findBracets fuel str) ∧ is_Some (expandBraces fuel str).
Proof.
  intros Hstr Hfuel.
  destruct (findBracets_loop_terminates (opens str) ∅ [str]) as [r Hr];
    [apply cache_ok_empty|done|by repeat constructor|].
  assert (findBracets fuel str = Some r) as Hfind.
  { unfold findBracets. apply (findBracets_loop_more_fuel (S (opens str))); [done|lia]. }
  unfold expandBraces. rewrite Hfind. by split.
Qed.

(** *** A group whose alternatives are the pattern [$&] *)

Lemma replaceBracket_dollar_group CASH :
  cache_ok CASH →
  fst (replaceBracket CASH (u16 "{$&,$&}")) = [u16 "{$&,$&}"; u16 "{$&,$&}"] ∧
  cache_ok (snd (replaceBracket CASH (u16 "{$&,$&}"))).
Proof.
  intros Hok. unfold replaceBracket.
  change (getMatch (u16 "{$&,$&}")) with (Some (u16 "{$&,$&}")).
  destruct (openBracket_cache_ok CASH (u16 "{$&,$&}") Hok) as [Hargs Hok'].
  destruct (openBracket CASH (u16 "{$&,$&}")) as [args CASH'].
  simpl in Hargs, Hok'. split; [|done]. by subst args.
Qed.

Lemma map_replaceBracket_dollar_group n : ∀ CASH,
  cache_ok CASH →
  fst (map_replaceBracket CASH (replicate n (u16 "{$&,$&}")))
  = replicate n [u16 "{$&,$&}"; u16 "{$&,$&}"] ∧
  cache_ok (snd (map_replaceBracket CASH (replicate n (u16 "{$&,$&}")))).
Proof.
  induction n as [|n IH]; intros CASH Hok; [done|].
  cbn [replicate map_replaceBracket].
  destruct (replaceBracket_dollar_group CASH Hok) as [Hx Hok1].
  destruct (replaceBracket CASH (u16 "{$&,$&}")) as [x CASH1].
  destruct (IH CASH1 Hok1) as [Hxs Hok2].
  destruct (map_replaceBracket CASH1 _) as [xs CASH2].
  simpl in *. by subst.
Qed.

Lemma findBracets_loop_dollar_group fuel : ∀ n CASH,
  cache_ok CASH →
  findBracets_loop fuel CASH (replicate (S n) (u16 "{$&,$&}")) = None.
Proof.
  induction fuel as [|fuel IH]; intros n CASH Hok; [done|].
  cbn [findBracets_loop].
  destruct (map_replaceBracket_dollar_group (S n) CASH Hok) as [Hx Hok'].
  destruct (map_replaceBracket CASH _) as [replaced CASH'].
  simpl in Hx, Hok'. subst replaced.
  assert (forallb (λ comb : list jsstring, negb (length comb =? 1)%nat)
            ([u16 "{$&,$&}"; u16 "{$&,$&}"]
             :: replicate n [u16 "{$&,$&}"; u16 "{$&,$&}"]) = true) as ->.
  { cbn [forallb]. clear. induction n as [|n IHn]; [done|]. done. }
  assert (concat ([u16 "{$&,$&}"; u16 "{$&,$&}"]
                  :: replicate n [u16 "{$&,$&}"; u16 "{$&,$&}"])
          = replicate (S (S (n + n))) (u16 "{$&,$&}")) as ->.
  { clear. induction n as [|n IHn]; [done|].
    cbn [replicate concat app] in *. rewrite IHn.
    replace (S n + S n)%nat with (S (S (n + n))) by lia. done. }
  by apply IH.
Qed.

(** C9: the braces of ["{$&,$&}"] are balanced, and [replace] takes each
    alternative [$&] for the text it replaces, so the rewrite gives the
    group back with as many braces as before; the loop of [findBracets]
    doubles its candidates at each iteration and does not end, whatever
    the number of iterations allowed. *)
Theorem expandBraces_dollar_group_diverges :
  getMatch (u16 "{$&,$&}") = Some (u16 "{$&,$&}") ∧
  replace (u16 "{$&,$&}") (u16 "{$&,$&}") (u16 "$&") = u16 "{$&,$&}" ∧
  ∀ fuel, findBracets fuel (u16 "{$&,$&}") = None ∧
          expandBraces fuel (u16 "{$&,$&}") = None.
Proof.
  split; [vm_compute; reflexivity|]. split; [vm_compute; reflexivity|].
  intros fuel.
  assert (findBracets fuel (u16 "{$&,$&}") = None) as Hloop.
  { apply (findBracets_loop_dollar_group fuel 0 ∅), cache_ok_empty. }
  split; [done|]. unfold expandBraces. by rewrite Hloop.
Qed.

(** C2, as the specification states it, fails: the one group of ["{a,a}"]
    has two alternatives, their product is 2, and one string is yielded. *)
Lemma expandBraces_equal_alternatives :
  render [] [(u16 "a,a", [])] = u16 "{a,a}" ∧
  alternatives_product [(u16 "a,a", [])] = 2%nat ∧
  expandBraces 2 (u16 "{a,a}") = Some [u16 "a"] ∧
  ∀ fuel yielded,
    expandBraces fuel (u16 "{a,a}") = Some yielded → length yielded ≠ 2%nat.
Proof.
  split_and!; try (vm_compute; reflexivity).
  intros [|[|fuel]] yielded; try (vm_compute; discriminate).
  vm_compute. intros [= <-]. discriminate.
Qed.

(** C2, amended: for a string with non-nested groups of at least two
    alternatives each and no dollar sign in them, [findBracets] returns as
    many candidates as the product of the numbers of alternatives, namely
    one for each choice of alternatives. [expandBraces] yields each distinct
    candidate once: no string twice, at most that product of strings, and
    exactly that product when the candidates are all different. *)
Theorem expandBraces_non_nested (lit : jsstring) (gs : list (jsstring * jsstring))
    (fuel : nat) :
  no_brace lit → Forall plain_group gs → (length gs < fuel)%nat →
  ∃ yielded,
    findBracets fuel (render lit gs) = Some (expansions [lit] gs) ∧
    expandBraces fuel (render lit gs) = Some yielded ∧
    length (expansions [lit] gs) = alternatives_product gs ∧
    NoDup yielded ∧
    (∀ s, s ∈ yielded ↔ s ∈ expansions [lit] gs) ∧
    (length yielded ≤ alternatives_product gs)%nat ∧
    (NoDup (expansions [lit] gs) → length yielded = alternatives_product gs).
Proof.
  intros Hlit Hgs Hfuel.
  assert (findBracets fuel (render lit gs) = Some (expansions [lit] gs)) as Hfind.
  { unfold findBracets, render.
    apply (findBracets_loop_more_fuel (S (length gs))); [|lia].
    apply (findBracets_loop_plain gs ∅ [lit]);
      [apply cache_ok_empty|done|by constructor|done]. }
  assert (length (expansions [lit] gs) = alternatives_product gs) as Hlen.
  { rewrite length_expansions. simpl. lia. }
  destruct (new_Set_spec (expansions [lit] gs)) as (Hnd & Hel & Hle & Heq).
  exists (new_Set (expansions [lit] gs)).
  split_and!; [done| |done|done|done|lia|].
  - unfold expandBraces. by rewrite Hfind.
  - intros Hdup. by rewrite Heq.
Qed.

Lemma expandBraces_non_nested_witness :
  ∃ yielded,
    findBracets 3 (u16 "~/{Downloads,Pictures}/*.{jpg,gif,png}")
    = Some (expansions [u16 "~/"]
              [(u16 "Downloads,Pictures", u16 "/*."); (u16 "jpg,gif,png", [])]) ∧
    expandBraces 3 (u16 "~/{Downloads,Pictures}/*.{jpg,gif,png}") = Some yielded ∧
    length (expansions [u16 "~/"]
              [(u16 "Downloads,Pictures", u16 "/*."); (u16 "jpg,gif,png", [])])
    = 6%nat ∧
    NoDup yielded ∧
    (∀ s, s ∈ yielded ↔
          s ∈ expansions [u16 "~/"]
                [(u16 "Downloads,Pictures", u16 "/*."); (u16 "jpg,gif,png", [])]) ∧
    (length yielded ≤ 6)%nat ∧
    (NoDup (expansions [u16 "~/"]
              [(u16 "Downloads,Pictures", u16 "/*."); (u16 "jpg,gif,png", [])])
     → length yielded = 6%nat).
Proof.
  apply (expandBraces_non_nested (u16 "~/")
           [(u16 "Downloads,Pictures", u16 "/*."); (u16 "jpg,gif,png", [])] 3).
  - unfold no_brace. vm_compute. repeat constructor; discriminate.
  - repeat constructor; simpl; try (vm_compute; lia);
      unfold no_brace, no_dollar; vm_compute; repeat constructor; discriminate.
  - simpl. lia.
Defined.

End expandBraces.

Section getZigZagMatrix.
Import Katas1.

(** *** Loops with an invariant *)

Lemma for_each_seq_inv {S} (I : nat → S → Prop) (body : nat → S → result S) k :
  ∀ a s,
    I a s →
    (∀ i s, (a ≤ i < a + k)%nat → I i s → ∃ s', body i s = Ok s' ∧ I (Datatypes.S i) s') →
    ∃ s', for_each (seq a k) body s = Ok s' ∧ I (a + k)%nat s'.
Proof.
  induction k as [|k IH]; intros a s Ha Hbody; simpl.
  - exists s. by rewrite Nat.add_0_r.
  - destruct (Hbody a s) as (s1 & -> & H1); [lia|done|]. simpl.
    destruct (IH (Datatypes.S a) s1) as (s' & Hs' & HI); [done| |].
    + intros i s2 Hi. apply Hbody. lia.
    + exists s'. split; [done|]. by replace (a + Datatypes.S k)%nat with (Datatypes.S a + k)%nat by lia.
Qed.

(** *** The diagonals *)

Lemma diagonals_body_inv n i st :
  (i < n + n - 1)%nat → diagonals_inv n i st →
  ∃ st', diagonals_body n i st = Ok st' ∧ diagonals_inv n (S i) st'.
Proof.
  intros Hi (Hstep & Hlen & Hcount & Hdiags & Hlens & Hconcat).
  unfold diagonals_body, Array_from_counter.
  set (step' := if bool_decide (i = n) then -1 else step st).
  assert (step' = if (S i <=? n)%nat then 1 else -1) as Hstep'.
  { unfold step'. rewrite Hstep. case_bool_decide;
      destruct (Nat.leb_spec i n), (Nat.leb_spec (S i) n); lia. }
  assert (diagonalLength st + step'
          = Z.of_nat (if (S i <=? n)%nat then S i else n + n - S i)) as Hlen'.
  { rewrite Hstep', Hlen.
    destruct (Nat.leb_spec i n), (Nat.leb_spec (S i) n); lia. }
  assert (diagonalLength st + step' = Z.of_nat (remaining n 0 i)) as Hrem.
  { rewrite Hlen'. unfold remaining.
    destruct (Nat.leb_spec (S i) n), (Nat.ltb_spec i n), (Nat.ltb_spec i 0);
      lia. }
  destruct (Z.ltb_spec (diagonalLength st + step') 0) as [Hneg|_]; [lia|].
  eexists. split; [reflexivity|].
  assert (0 ≤ counter st + 1) as Hc.
  { destruct (Nat.leb_spec i n); nia. }
  split_and!; cbn [Katas1.step diagonalLength counter diagonals].
  - done.
  - done.
  - rewrite Hlen'. destruct (Nat.leb_spec i n), (Nat.leb_spec (S i) n); nia.
  - rewrite length_app. simpl. lia.
  - intros d diagonal Hd. apply lookup_app_Some in Hd as [Hd|[Hge Hd]].
    + by apply Hlens.
    + rewrite Hdiags in Hge, Hd.
      destruct (d - i)%nat as [|k] eqn:Hk; [|done].
      assert (d = i) as -> by lia. simpl in Hd. injection Hd as <-.
      rewrite length_fmap, length_seq. lia.
  - rewrite concat_app, Hconcat. simpl. rewrite app_nil_r.
    replace (Z.to_nat (counter st + (diagonalLength st + step') + 1))
      with (Z.to_nat (counter st + 1) + Z.to_nat (diagonalLength st + step'))%nat
      by lia.
    rewrite seq_app, fmap_app. f_equal. rewrite Nat.add_0_l.
    replace (seq (Z.to_nat (counter st + 1)) (Z.to_nat (diagonalLength st + step')))
      with (Nat.add (Z.to_nat (counter st + 1))
              <$> seq 0 (Z.to_nat (diagonalLength st + step')))
      by (rewrite fmap_add_seq; f_equal; lia).
    rewrite <-list_fmap_compose.
    apply list_fmap_ext. intros _ k _. simpl. lia.
Qed.

Lemma build_diagonals_spec n :
  (1 ≤ n)%nat →
  ∃ ds, build_diagonals n = Ok ds ∧
        length ds = (n + n - 1)%nat ∧
        (∀ d diagonal, ds !! d = Some diagonal → length diagonal = remaining n 0 d) ∧
        concat ds = Z.of_nat <$> seq 0 (n * n).
Proof.
  intros Hn. unfold build_diagonals.
  destruct (for_each_seq_inv (diagonals_inv n) (diagonals_body n) (n + n - 1) 0
              (DiagonalsState 1 0 (-1) []))
    as (st & -> & Hstep & Hlen & Hcount & Hdiags & Hlens & Hconcat).
  - split_and!; simpl; done.
  - intros i st Hi. apply diagonals_body_inv. lia.
  - simpl in *. exists (diagonals st). split_and!; [done|done|done|].
    rewrite Hconcat. do 2 f_equal.
    destruct (Nat.leb_spec (n + n - 1) n); nia.
Qed.

(** *** One cell *)

Lemma take_value (b : bool) (diagonal : list Z) :
  diagonal ≠ [] →
  ∃ v diagonal',
    (if b then pop diagonal else shift diagonal) = (Some v, diagonal') ∧
    diagonal ≡ₚ v :: diagonal' ∧ length diagonal = S (length diagonal').
Proof.
  intros Hne. destruct b.
  - destruct (exists_last Hne) as (l & x & ->).
    exists x, l. unfold pop. rewrite last_snoc, removelast_last.
    split_and!; [done| |rewrite length_app; simpl; lia].
    by rewrite Permutation_app_comm.
  - destruct diagonal as [|x l]; [done|]. by exists x, l.
Qed.

Lemma concat_insert_take (ds : list (list Z)) d diagonal diagonal' v :
  ds !! d = Some diagonal → diagonal ≡ₚ v :: diagonal' →
  concat ds ≡ₚ v :: concat (<[d := diagonal']> ds).
Proof.
  intros Hd Hperm.
  rewrite insert_take_drop by (by eapply lookup_lt_Some).
  rewrite <-(take_drop_middle ds d diagonal Hd) at 1.
  rewrite !concat_app. simpl. rewrite Hperm. simpl.
  symmetry. apply Permutation_middle.
Qed.

Lemma remaining_pos n i j :
  (i < n)%nat → (j < n)%nat → (1 ≤ remaining n i (i + j))%nat.
Proof.
  intros Hi Hj. unfold remaining.
  destruct (Nat.ltb_spec (i + j) i), (Nat.ltb_spec (i + j) n); lia.
Qed.

Lemma remaining_next_row n i d :
  (i < n)%nat →
  (remaining n i d - (if (i <=? d)%nat && (d <? i + n)%nat then 1 else 0))%nat
  = remaining n (S i) d.
Proof.
  intros Hi. unfold remaining.
  destruct (Nat.leb_spec i d), (Nat.ltb_spec d (i + n)), (Nat.ltb_spec d i),
    (Nat.ltb_spec d (S i)), (Nat.ltb_spec d n); simpl; lia.
Qed.

Lemma cell_body_inv n i j st :
  (i < n)%nat → (j < n)%nat → fill_inv n i j st →
  ∃ st', cell_body i j st = Ok st' ∧ fill_inv n i (S j) st'.
Proof.
  intros Hi Hj. destruct st as [m ds].
  intros (Hds & Hlens & Hm & Hrows & vs & Hprefix & Hperm). cbn [fst snd] in *.
  destruct (lookup_lt_is_Some_2 ds (i + j)) as [diagonal Hdiag]; [lia|].
  destruct (lookup_lt_is_Some_2 m i) as [row Hrow]; [lia|].
  assert (length row = n) as Hlrow.
  { rewrite Forall_forall in Hrows. eapply Hrows, list_elem_of_lookup_2, Hrow. }
  assert (diagonal ≠ []) as Hne.
  { specialize (Hlens _ _ Hdiag). pose proof (remaining_pos n i j Hi Hj).
    destruct (Nat.leb_spec i (i + j)), (Nat.ltb_spec (i + j) (i + j));
      simpl in Hlens; try lia; destruct diagonal; simpl in *; [lia|done]. }
  destruct (take_value (Nat.eqb ((i + j) mod 2) 0) diagonal Hne)
    as (v & diagonal' & Htake & Hpermd & Hlend).
  unfold cell_body. rewrite Hdiag, Hrow. cbn beta iota. rewrite Htake.
  eexists. split; [reflexivity|].
  split_and!; cbn [fst snd].
  - rewrite length_insert. done.
  - intros d diag Hd. destruct (decide (d = (i + j)%nat)) as [->|Hne'].
    + rewrite list_lookup_insert_eq in Hd by lia. injection Hd as <-.
      specialize (Hlens _ _ Hdiag).
      destruct (Nat.leb_spec i (i + j)), (Nat.ltb_spec (i + j) (i + j)),
        (Nat.ltb_spec (i + j) (i + S j)); simpl in *; lia.
    + rewrite list_lookup_insert_ne in Hd by done.
      rewrite (Hlens _ _ Hd).
      destruct (Nat.leb_spec i d), (Nat.ltb_spec d (i + j)),
        (Nat.ltb_spec d (i + S j)); simpl; lia.
  - by rewrite length_insert.
  - apply Forall_insert; [done|]. by rewrite length_insert.
  - exists (vs ++ [v]). rewrite Hrow in Hprefix. simpl in Hprefix. split.
    + rewrite take_insert_ge by lia.
      rewrite list_lookup_insert_eq by lia. simpl.
      rewrite (take_S_r _ j (Some v)) by (apply list_lookup_insert_eq; lia).
      rewrite take_insert_ge by lia.
      by rewrite app_assoc, Hprefix, fmap_app.
    + rewrite <-Hperm, <-app_assoc. simpl.
      rewrite (concat_insert_take ds (i + j) diagonal diagonal' v) by done.
      done.
Qed.

Lemma fill_inv_next_row n i st :
  (i < n)%nat → fill_inv n i n st → fill_inv n (S i) 0 st.
Proof.
  intros Hi. destruct st as [m ds].
  intros (Hds & Hlens & Hm & Hrows & vs & Hprefix & Hperm). simpl in *.
  split_and!; cbn [fst snd]; [done| |done|done|].
  - intros d diag Hd. rewrite (Hlens _ _ Hd), remaining_next_row by done.
    rewrite Nat.add_0_r.
    destruct (Nat.leb_spec (S i) d), (Nat.ltb_spec d (S i)); simpl; lia.
  - exists vs. split; [|done].
    destruct (lookup_lt_is_Some_2 m i) as [row Hrow]; [lia|].
    rewrite Hrow in Hprefix. simpl in Hprefix.
    rewrite (take_S_r _ _ _ Hrow), concat_app. simpl.
    rewrite take_0, !app_nil_r.
    rewrite (take_ge row) in Hprefix; [done|].
    rewrite Forall_forall in Hrows.
    by rewrite (Hrows row (list_elem_of_lookup_2 _ _ _ Hrow)).
Qed.

Lemma fill_loops_spec n st :
  fill_inv n 0 0 st →
  ∃ st', for_each (seq 0 n) (λ i, for_each (seq 0 n) (λ j, cell_body i j)) st
         = Ok st' ∧ fill_inv n n 0 st'.
Proof.
  intros Hinv.
  apply (for_each_seq_inv (λ i, fill_inv n i 0) _ n 0 st Hinv).
  intros i st1 Hi Hinv1.
  destruct (for_each_seq_inv (λ j, fill_inv n i j) (λ j, cell_body i j) n 0 st1)
    as (st2 & Hst2 & Hinv2); [done| |].
  - intros j st2 Hj. apply cell_body_inv; lia.
  - exists st2. split; [done|]. apply fill_inv_next_row; [lia|done].
Qed.

Lemma concat_all_nil (ds : list (list Z)) :
  (∀ d diagonal, ds !! d = Some diagonal → length diagonal = 0%nat) →
  concat ds = [].
Proof.
  induction ds as [|x ds IH]; intros Hall; [done|]. simpl.
  rewrite IH by (intros d diagonal Hd; by apply (Hall (S d))).
  specialize (Hall 0%nat x eq_refl). by destruct x.
Qed.

Lemma getZigZagMatrix_spec n :
  (1 ≤ n)%nat →
  ∃ (zigZagMatrix : list (list (option Z))) (values : list Z),
    getZigZagMatrix n = Ok zigZagMatrix ∧
    length zigZagMatrix = n ∧
    Forall (λ row, length row = n) zigZagMatrix ∧
    concat zigZagMatrix = Some <$> values ∧
    values ≡ₚ Z.of_nat <$> seq 0 (n * n).
Proof.
  intros Hn. unfold getZigZagMatrix.
  destruct (build_diagonals_spec n Hn) as (ds & -> & Hds & Hlens & Hconcat).
  simpl.
  destruct (fill_loops_spec n (replicate n (replicate n (Some 0)), ds))
    as ([m ds'] & -> & Hds' & Hlens' & Hm & Hrows & vs & Hprefix & Hperm).
  { split_and!; cbn [fst snd]; [done| |by rewrite length_replicate| |].
    - intros d diagonal Hd. rewrite (Hlens _ _ Hd), Nat.add_0_r.
      destruct (Nat.leb_spec 0 d), (Nat.ltb_spec d 0); simpl; lia.
    - apply Forall_replicate. by rewrite length_replicate.
    - exists []. by rewrite Hconcat. }
  simpl in *. exists m, vs. split_and!; [done|done|done| |].
  - rewrite take_ge in Hprefix by lia.
    rewrite lookup_ge_None_2 in Hprefix by lia. simpl in Hprefix.
    by rewrite app_nil_r in Hprefix.
  - rewrite (concat_all_nil ds'), app_nil_r in Hperm; [done|].
    intros d diagonal Hd. rewrite (Hlens' _ _ Hd).
    assert (d < n + n - 1)%nat by (rewrite <-Hds'; by eapply lookup_lt_Some).
    unfold remaining.
    destruct (Nat.ltb_spec d n), (Nat.leb_spec n d), (Nat.ltb_spec d (n + 0));
      simpl; lia.
Qed.

(** C4: for every [n] of at least 1, [getZigZagMatrix n] returns [n] rows of
    [n] numbers each, no cell left undefined, and the numbers of the rows
    one after the other are a permutation of 0 .. [n]² - 1. For 1 the
    matrix is [[0]] and for 2 it is [[0,1],[2,3]]. *)
Theorem getZigZagMatrix_permutation (n : nat) :
  (1 ≤ n)%nat →
  (∃ (zigZagMatrix : list (list (option Z))) (values : list Z),
     getZigZagMatrix n = Ok zigZagMatrix ∧
     length zigZagMatrix = n ∧
     Forall (λ row, length row = n) zigZagMatrix ∧
     concat zigZagMatrix = Some <$> values ∧
     values ≡ₚ Z.of_nat <$> seq 0 (n * n)) ∧
  getZigZagMatrix 1 = Ok [[Some 0]] ∧
  getZigZagMatrix 2 = Ok [[Some 0; Some 1]; [Some 2; Some 3]].
Proof.
  intros Hn. split; [by apply getZigZagMatrix_spec|].
  split; vm_compute; reflexivity.
Qed.

Lemma getZigZagMatrix_permutation_witness :
  (∃ (zigZagMatrix : list (list (option Z))) (values : list Z),
     getZigZagMatrix 4 = Ok zigZagMatrix ∧
     length zigZagMatrix = 4%nat ∧
     Forall (λ row, length row = 4%nat) zigZagMatrix ∧
     concat zigZagMatrix = Some <$> values ∧
     values ≡ₚ Z.of_nat <$> seq 0 (4 * 4)) ∧
  getZigZagMatrix 1 = Ok [[Some 0]] ∧
  getZigZagMatrix 2 = Ok [[Some 0; Some 1]; [Some 2; Some 3]].
Proof. apply (getZigZagMatrix_permutation 4). lia. Defined.

End getZigZagMatrix.

Section canDominoesMakeRow.
Import Katas1.

(** C1: [canDominoesMakeRow] answers true for the two doubles [0,0] and
    [1,1], which no order and no orientation place in a row: the function
    counts values and does not look at whether the tiles connect. *)
Theorem canDominoesMakeRow_two_doubles :
  canDominoesMakeRow [(0, 0); (1, 1)] = true ∧
  ¬ can_be_placed_in_row [(0, 0); (1, 1)].
Proof.
  split; [vm_compute; reflexivity|].
  intros (order & row & Hperm & Horient & Hrow).
  symmetry in Hperm. apply Permutation_length_2_inv in Hperm.
  destruct Hperm as [-> | ->];
    repeat match goal with
    | H : Forall2 _ (_ :: _) _ |- _ => apply Forall2_cons_inv_l in H as (? & ? & ? & H & ->)
    | H : Forall2 _ [] _ |- _ => apply Forall2_nil_inv_l in H as ->
    | H : oriented _ _ |- _ => destruct H as [-> | ->]
    end;
    simpl in Hrow; destruct Hrow as [Hrow _]; discriminate Hrow.
Qed.

End canDominoesMakeRow.

Section extractRanges_round_trip.
Import Katas1.

Implicit Types (s a b : jsstring) (zs : list Z).

(** *** [join] and [split] *)

Lemma join_cons_cons sep x y (l : list jsstring) :
  join sep (x :: y :: l) = x ++ sep ++ join sep (y :: l).
Proof. done. Qed.

Lemma join_app sep (l1 l2 : list jsstring) :
  l1 ≠ [] → l2 ≠ [] →
  join sep (l1 ++ l2) = join sep l1 ++ sep ++ join sep l2.
Proof.
  intros H1 H2. induction l1 as [|x [|y l1] IH]; [done| |].
  - destruct l2; [done|]. done.
  - change ((x :: y :: l1) ++ l2) with (x :: y :: (l1 ++ l2)).
    rewrite !join_cons_cons. change (y :: l1 ++ l2) with ((y :: l1) ++ l2).
    rewrite IH by done. by rewrite <-!app_assoc.
Qed.

Lemma join_concat sep (ls : list (list jsstring)) :
  Forall (λ l, l ≠ []) ls →
  join sep (join sep <$> ls) = join sep (concat ls).
Proof.
  induction 1 as [|l ls Hl Hls IH]; [done|].
  destruct ls as [|l' ls]; [simpl; by rewrite app_nil_r|].
  rewrite fmap_cons, fmap_cons, join_cons_cons, <-fmap_cons, IH.
  cbn [concat]. rewrite (join_app sep l); [done|done|].
  apply Forall_cons in Hls as [Hl' _]. by destruct l'.
Qed.

Lemma split_on_no_sep sep cur s :
  Forall (λ c, c ≠ sep) s → split_on sep cur s = [rev cur ++ s].
Proof.
  intros Hs. revert cur. induction Hs as [|c s Hc _ IH]; intros cur; simpl.
  - by rewrite app_nil_r.
  - destruct (N.eqb_spec c sep); [done|].
    rewrite IH. simpl. by rewrite <-app_assoc.
Qed.

Lemma split_on_app_sep sep cur s rest :
  Forall (λ c, c ≠ sep) s →
  split_on sep cur (s ++ sep :: rest) = (rev cur ++ s) :: split_on sep [] rest.
Proof.
  intros Hs. revert cur. induction Hs as [|c s Hc _ IH]; intros cur; simpl.
  - by rewrite N.eqb_refl, app_nil_r.
  - destruct (N.eqb_spec c sep); [done|].
    rewrite IH. simpl. by rewrite <-app_assoc.
Qed.

Lemma split_join sep (l : list jsstring) :
  l ≠ [] → Forall (Forall (λ c, c ≠ sep)) l → split sep (join [sep] l) = l.
Proof.
  intros Hne Hl. unfold split.
  induction Hl as [|x l Hx Hl IH]; [done|].
  destruct l as [|y l]; [by rewrite split_on_no_sep|].
  rewrite join_cons_cons. cbn [app].
  rewrite split_on_app_sep by done. by rewrite IH.
Qed.

(** *** The numbers

    On the safe integers the sum [acc + 1] is exact and a number prints as
    its decimal notation. *)

Lemma round_double_small v : Z.abs v < 2 ^ 53 → round_double v = v.
Proof.
  intros Hv. unfold round_double.
  destruct (Z.ltb_spec (Z.log2 (Z.abs v)) 53) as [|Hlog]; [done|].
  exfalso. destruct (decide (Z.abs v = 0)) as [E|Hne].
  - rewrite E in Hlog. simpl in Hlog. lia.
  - apply Z.log2_lt_pow2 in Hv; lia.
Qed.

Lemma round_double_large v : 2 ^ 53 ≤ v → 2 ^ 53 ≤ round_double v.
Proof.
  intros Hv. unfold round_double.
  rewrite (Z.abs_eq v), (Z.sgn_pos v) by lia.
  pose proof (Z.log2_spec v ltac:(lia)) as [Hlo Hhi].
  assert (53 ≤ Z.log2 v) as Hlog by (apply Z.log2_le_pow2; lia).
  rewrite (proj2 (Z.ltb_ge _ _)) by done.
  set (e := Z.log2 v) in *. set (q := 2 ^ (e - 52)).
  assert (0 < q) as Hq by (apply Z.pow_pos_nonneg; lia).
  assert (2 ^ e = 2 ^ 52 * q) as He.
  { unfold q. rewrite <-Z.pow_add_r by lia. f_equal. lia. }
  assert (2 ≤ q) as Hq2.
  { unfold q. change 2 with (2 ^ 1) at 1. apply Z.pow_le_mono_r; lia. }
  assert (2 ^ 52 ≤ v / q) as Hm.
  { apply Z.div_le_lower_bound; [done|]. lia. }
  assert (∀ m', v / q ≤ m' → 2 ^ 53 ≤ 1 * (m' * q)) as Hall.
  { intros m' Hm'. change (2 ^ 53) with (2 ^ 52 * 2). nia. }
  repeat case_match; apply Hall; lia.
Qed.

(** The sum is exact on the safe integers. *)
Lemma add1_safe z : safe_integer z → add1 (Num z) = Num (z + 1).
Proof.
  unfold safe_integer. intros Hz. unfold add1. f_equal.
  destruct (decide (z = 9007199254740991)) as [->|Hne]; [by vm_compute|].
  apply round_double_small. change (2 ^ 53) with 9007199254740992. lia.
Qed.

Lemma digits_from_spec fuel : ∀ n x,
  (1 ≤ n)%nat → 10 ^ (Z.of_nat n - 1) ≤ x → x < 10 ^ Z.of_nat (n + fuel) →
  10 ^ (Z.of_nat (digits_from fuel n x) - 1) ≤ x
  < 10 ^ Z.of_nat (digits_from fuel n x).
Proof.
  induction fuel as [|fuel IH]; intros n x Hn Hlo Hhi; cbn [digits_from].
  - by rewrite Nat.add_0_r in Hhi.
  - destruct (Z.ltb_spec x (10 ^ Z.of_nat n)) as [Hlt|Hge]; [done|].
    apply IH; [lia| |].
    + by replace (Z.of_nat (S n) - 1) with (Z.of_nat n) by lia.
    + by replace (S n + fuel)%nat with (n + S fuel)%nat by lia.
Qed.

Lemma digits_spec x :
  1 ≤ x → 10 ^ (Z.of_nat (digits x) - 1) ≤ x < 10 ^ Z.of_nat (digits x).
Proof.
  intros Hx. unfold digits. apply digits_from_spec; [done|simpl; lia|].
  pose proof (Z.log2_spec x ltac:(lia)) as [_ Hhi].
  pose proof (Z.log2_nonneg x) as Hnn.
  replace (Z.of_nat (1 + Z.to_nat (Z.log2 x))) with (Z.succ (Z.log2 x)) by lia.
  eapply Z.lt_le_trans; [exact Hhi|].
  apply Z.pow_le_mono_l. lia.
Qed.

Lemma digits_pos x : (1 ≤ digits x)%nat.
Proof.
  unfold digits. generalize (Z.to_nat (Z.log2 x)) as fuel.
  assert (∀ fuel n, (n ≤ digits_from fuel n x)%nat) as H.
  { induction fuel as [|fuel IH]; intros n; cbn [digits_from]; [done|].
    destruct (x <? _); [done|]. specialize (IH (S n)). lia. }
  intros fuel. apply (H fuel 1%nat).
Qed.

(** A decimal that a safe integer is the nearest number to is the
    integer. *)
Lemma best_multiple_safe x n p v :
  0 < x < 2 ^ 53 → 0 < p →
  best_multiple x n p = Some v → v = x.
Proof.
  intros Hx Hp. unfold best_multiple.
  assert (∀ w, (10 ^ (Z.of_nat n - 1) <=? w) && (w <? 10 ^ Z.of_nat n)
               && (round_double w =? x) = true → w = x) as Hok.
  { intros w [[Hlo _]%andb_prop Hw%Z.eqb_eq]%andb_prop.
    apply Z.leb_le in Hlo.
    assert (0 ≤ w) as Hnn.
    { eapply Z.le_trans; [|exact Hlo]. apply Z.pow_nonneg. lia. }
    destruct (Z_lt_le_dec w (2 ^ 53)) as [Hsmall|Hlarge].
    - by rewrite round_double_small in Hw by lia.
    - apply round_double_large in Hlarge. lia. }
  destruct (_ && _) eqn:E1; destruct (_ && _) eqn:E2 in |- *;
    repeat case_match; intros [= <-]; first [by apply Hok | done].
Qed.

Lemma best_multiple_self x n :
  1 ≤ x < 2 ^ 53 → n = digits x → best_multiple x n 1 = Some x.
Proof.
  intros Hx ->. unfold best_multiple.
  rewrite Z.div_1_r, !Z.mul_1_r.
  pose proof (digits_spec x ltac:(lia)) as [Hlo Hhi].
  rewrite (proj2 (Z.leb_le _ _) Hlo), (proj2 (Z.ltb_lt _ _) Hhi).
  rewrite round_double_small, Z.eqb_refl by lia. cbn [andb].
  destruct (_ && _).
  - replace (x - x) with 0 by lia. replace (x + 1 - x) with 1 by lia. done.
  - done.
Qed.

Lemma shortest_from_safe fuel : ∀ k x,
  1 ≤ x < 2 ^ 53 → (k ≤ digits x)%nat → (digits x < k + fuel)%nat →
  shortest_from fuel k (digits x) x = x.
Proof.
  induction fuel as [|fuel IH]; intros k x Hx Hk Hfuel; [done|].
  cbn [shortest_from].
  destruct (best_multiple x (digits x) _) as [v|] eqn:E1.
  { apply best_multiple_safe in E1; [done|lia|]. apply Z.pow_pos_nonneg; lia. }
  destruct (best_multiple x (S (digits x)) _) as [v|] eqn:E2.
  { apply best_multiple_safe in E2; [done|lia|]. apply Z.pow_pos_nonneg; lia. }
  destruct (decide (k = digits x)) as [->|Hne].
  - rewrite Nat.sub_diag in E1. change (10 ^ Z.of_nat 0) with 1 in E1.
    by rewrite best_multiple_self in E1.
  - apply IH; [done|lia|lia].
Qed.

Lemma shortest_safe x : 1 ≤ x < 2 ^ 53 → shortest x = x.
Proof.
  intros Hx. unfold shortest. pose proof (digits_pos x).
  apply shortest_from_safe; [done|lia|lia].
Qed.

(** A safe integer prints as its decimal notation. *)
Lemma Number_toString_safe z :
  safe_integer z → Number_toString (Num z) = decimal z.
Proof.
  unfold safe_integer. intros Hz. unfold Number_toString.
  destruct (Z.eqb_spec z 0) as [->|Hne]; [done|].
  rewrite shortest_safe by (change (2 ^ 53) with 9007199254740992; lia).
  rewrite (proj2 (Z.ltb_lt (Z.abs z) (10 ^ 21)))
    by (change (10 ^ 21) with 1000000000000000000000; lia).
  by rewrite Z.mul_comm, Z.abs_sgn.
Qed.

(** *** The decimal notation of an integer *)

Lemma uint_chars_digits d : Forall is_digit (uint_chars d).
Proof. induction d; simpl; constructor; try done; unfold is_digit; lia. Qed.

Lemma parse_uint_chars d : parse_uint (uint_chars d) = Some d.
Proof. induction d as [|d IH|d IH|d IH|d IH|d IH|d IH|d IH|d IH|d IH|d IH]; simpl; [done | by rewrite IH ..]. Qed.

Lemma uint_chars_not_nil d : d ≠ Nil → uint_chars d ≠ [].
Proof. by destruct d. Qed.

(** The notation of an integer: an optional sign and at least one digit. *)
Lemma decimal_shape z :
  ∃ c r, decimal z = c :: r ∧ (c = DASH ∨ is_digit c) ∧
         Forall is_digit r ∧ parse_integer (c :: r) = Some z.
Proof.
  pose proof (DecimalZ.of_to z) as Hz. unfold decimal.
  assert (∀ p, ∃ c r, uint_chars (Pos.to_uint p) = c :: r ∧ is_digit c ∧
                      Forall is_digit r) as Hpos.
  { intros p. pose proof (uint_chars_digits (Pos.to_uint p)) as Hd.
    pose proof (uint_chars_not_nil _ (Unsigned.to_uint_nonnil p)) as Hn.
    destruct (uint_chars (Pos.to_uint p)) as [|c r]; [done|].
    apply Forall_cons in Hd as [??]. by exists c, r. }
  destruct z as [|p|p]; cbn [Z.to_int] in *.
  - exists 48%N, []. split_and!; [done|right; unfold is_digit; lia|done|done].
  - destruct (Hpos p) as (c & r & Heq & Hc & Hr).
    exists c, r. split_and!; [done|by right|done|].
    unfold parse_integer. destruct (N.eqb_spec c DASH) as [->|_].
    { unfold is_digit, DASH in Hc. lia. }
    rewrite <-Heq, parse_uint_chars.
    change (Some (Z.of_int (Pos (Pos.to_uint p))) = Some (Z.pos p)).
    by rewrite Hz.
  - destruct (Hpos p) as (c & r & Heq & Hc & Hr).
    exists DASH, (c :: r). split_and!; [by rewrite Heq|by left|by constructor|].
    unfold parse_integer. rewrite N.eqb_refl, <-Heq, parse_uint_chars.
    change (Some (Z.of_int (Neg (Pos.to_uint p))) = Some (Z.neg p)).
    by rewrite Hz.
Qed.

Lemma is_digit_not_dash c : is_digit c → c ≠ DASH.
Proof. unfold is_digit, DASH. lia. Qed.

Lemma is_digit_not_comma c : is_digit c → c ≠ COMMA.
Proof. unfold is_digit, COMMA. lia. Qed.

Lemma split_at_dash_digits r : Forall is_digit r → split_at_dash r = None.
Proof.
  induction 1 as [|c r Hc _ IH]; simpl; [done|].
  destruct (N.eqb_spec c DASH); [by apply is_digit_not_dash in Hc|].
  by rewrite IH.
Qed.

Lemma split_at_dash_app r rest :
  Forall is_digit r → split_at_dash (r ++ DASH :: rest) = Some (r, rest).
Proof.
  induction 1 as [|c r Hc _ IH]; simpl; [done|].
  destruct (N.eqb_spec c DASH); [by apply is_digit_not_dash in Hc|].
  by rewrite IH.
Qed.

Lemma parse_item_number z : parse_item (decimal z) = Some [z].
Proof.
  destruct (decimal_shape z) as (c & r & -> & _ & Hr & Hparse).
  unfold parse_item. rewrite split_at_dash_digits by done.
  by rewrite Hparse.
Qed.

Lemma parse_item_range x y :
  parse_item (decimal x ++ [DASH] ++ decimal y) = Some (range x y).
Proof.
  destruct (decimal_shape x) as (c & r & -> & _ & Hr & Hx).
  destruct (decimal_shape y) as (c' & r' & -> & _ & _ & Hy).
  unfold parse_item. cbn [app].
  rewrite split_at_dash_app by done. by rewrite Hx, Hy.
Qed.

Lemma decimal_no_comma z : Forall (λ c, c ≠ COMMA) (decimal z).
Proof.
  destruct (decimal_shape z) as (c & r & -> & Hc & Hr & _).
  constructor.
  - destruct Hc as [->|Hc]; [done|by apply is_digit_not_comma].
  - eapply Forall_impl; [done|]. apply is_digit_not_comma.
Qed.

(** *** Ranges of integers *)

Lemma length_range x y : length (range x y) = Z.to_nat (y - x + 1).
Proof. unfold range. by rewrite length_fmap, length_seq. Qed.

Lemma range_one x : range x x = [x].
Proof.
  unfold range. replace (x - x + 1) with 1 by lia. simpl. f_equal. lia.
Qed.

Lemma range_snoc x y : x ≤ y → range x (y + 1) = range x y ++ [y + 1].
Proof.
  intros Hxy. unfold range.
  replace (Z.to_nat (y + 1 - x + 1)) with (Z.to_nat (y - x + 1) + 1)%nat by lia.
  rewrite seq_app, fmap_app. simpl. do 2 f_equal. lia.
Qed.

Lemma range_cons x y : x ≤ y → range x y = x :: range (x + 1) y.
Proof.
  intros Hxy. unfold range.
  replace (Z.to_nat (y - x + 1)) with (S (Z.to_nat (y - (x + 1) + 1))) by lia.
  cbn [seq fmap list_fmap]. f_equal; [lia|].
  rewrite <-seq_shift, <-list_fmap_compose.
  apply list_fmap_ext. intros _ k _. simpl. lia.
Qed.

Lemma range_not_nil x y : x ≤ y → range x y ≠ [].
Proof. intros Hxy. by rewrite range_cons. Qed.

Lemma last_range x y : x ≤ y → last (range x y) = Some y.
Proof.
  intros Hxy. destruct (decide (x = y)) as [->|Hne].
  - by rewrite range_one.
  - replace y with (y - 1 + 1) by lia. rewrite range_snoc by lia.
    by rewrite last_snoc.
Qed.

Lemma elem_of_range x y z : z ∈ range x y → x ≤ z ≤ y.
Proof.
  unfold range. intros (k & -> & Hk%elem_of_seq)%list_elem_of_fmap. lia.
Qed.

Lemma range_safe x y :
  safe_integer x → safe_integer y → Forall safe_integer (range x y).
Proof.
  unfold safe_integer. intros Hx Hy. apply Forall_forall.
  intros z Hz%elem_of_range. lia.
Qed.

(** *** The groups of the [reduce] *)

Lemma reduce_ranges_runs rest : ∀ nums pre cur acc endIndex startIndex ranges,
  nums = pre ++ cur ++ rest → startIndex = length pre →
  endIndex = (length pre + length cur)%nat →
  reduce_ranges nums acc endIndex rest startIndex ranges
  = ranges ++ runs cur acc rest.
Proof.
  induction rest as [|value rest IH];
    intros nums pre cur acc endIndex startIndex ranges Hnums Hstart Hend; simpl.
  - by rewrite app_nil_r.
  - assert (slice startIndex endIndex nums = cur) as Hslice.
    { unfold slice. subst. rewrite drop_app_length.
      replace (length pre + length cur - length pre)%nat with (length cur) by lia.
      by rewrite take_app_length. }
    destruct (lt (add1 acc) value).
    + rewrite (IH nums (pre ++ cur) [value]); rewrite ?length_app; simpl;
        [|subst; by rewrite <-app_assoc|lia|lia].
      by rewrite Hslice, <-app_assoc.
    + apply (IH nums pre (cur ++ [value])); [|done|rewrite length_app; simpl; lia].
      subst. by rewrite <-!app_assoc.
Qed.

Lemma runs_ascending zs : ∀ x y,
  x ≤ y → Sorted Z.lt (y :: zs) →
  safe_integer x → Forall safe_integer (y :: zs) →
  ∃ groups : list (Z * Z),
    runs (Num <$> range x y) (Num y) ((Num <$> zs) ++ [Infinity])
    = (λ g, Num <$> range (fst g) (snd g)) <$> groups ∧
    concat ((λ g, range (fst g) (snd g)) <$> groups) = range x y ++ zs ∧
    Forall (λ g, fst g ≤ snd g ∧ safe_integer (fst g) ∧ safe_integer (snd g))
      groups ∧
    groups ≠ [].
Proof.
  induction zs as [|z zs IH]; intros x y Hxy Hsorted Hx Hsafe.
  - apply Forall_cons in Hsafe as [Hy _].
    exists [(x, y)]. simpl. split_and!; [done|done| |done].
    by constructor.
  - apply Sorted_inv in Hsorted as [Hsorted Hhd]. apply HdRel_inv in Hhd.
    apply Forall_cons in Hsafe as [Hy Hsafe].
    pose proof Hsafe as Hzs. apply Forall_cons in Hzs as [Hz _].
    cbn [fmap list_fmap app runs]. rewrite add1_safe by done. cbn [lt].
    case_bool_decide as Hgap.
    + destruct (IH z z) as (groups & Hruns & Hconcat & Hall & _);
        [lia|done|done|done|].
      rewrite range_one in Hruns, Hconcat. simpl in Hruns.
      exists ((x, y) :: groups). rewrite !fmap_cons. cbn [fst snd concat].
      split_and!; [by rewrite Hruns|by rewrite Hconcat|by constructor|done].
    + assert (z = y + 1) as -> by lia.
      destruct (IH x (y + 1)) as (groups & Hruns & Hconcat & Hall & Hne);
        [lia|done|done|done|].
      rewrite range_snoc in Hruns, Hconcat by done.
      rewrite fmap_app in Hruns. simpl in Hruns.
      exists groups. split_and!; [done| |done|done].
      by rewrite Hconcat, <-app_assoc.
Qed.

(** *** Printing a run and reading it back *)

Lemma toString_run (g : Z * Z) :
  fst g ≤ snd g → safe_integer (fst g) → safe_integer (snd g) →
  toString (Num <$> range (fst g) (snd g)) = join [COMMA] (run_items g).
Proof.
  destruct g as [x y]. cbn [fst snd]. intros Hxy Hx Hy.
  unfold toString, run_items. cbn [fst snd]. rewrite length_fmap.
  destruct (2 <? length (range x y))%nat eqn:Hlen.
  - apply Nat.ltb_lt in Hlen. rewrite length_range in Hlen.
    rewrite range_cons by done. cbn [fmap list_fmap head tail].
    rewrite fmap_last, last_range by lia. cbn [fmap option_fmap option_map].
    by rewrite !Number_toString_safe by done.
  - rewrite <-list_fmap_compose. f_equal.
    apply Forall_fmap_ext_1. eapply Forall_impl; [by apply range_safe|].
    intros z Hz. by apply Number_toString_safe.
Qed.

Lemma run_items_not_nil (g : Z * Z) : fst g ≤ snd g → run_items g ≠ [].
Proof.
  intros Hg. unfold run_items. destruct (2 <? _)%nat; [done|].
  pose proof (range_not_nil _ _ Hg). by destruct (range (fst g) (snd g)).
Qed.

Lemma run_items_no_comma (g : Z * Z) :
  Forall (Forall (λ c, c ≠ COMMA)) (run_items g).
Proof.
  unfold run_items. destruct (2 <? _)%nat.
  - repeat constructor. rewrite !Forall_app. split_and!;
      [apply decimal_no_comma|by repeat constructor
      |apply decimal_no_comma].
  - apply Forall_fmap, Forall_forall. intros z _.
    apply decimal_no_comma.
Qed.

Lemma run_items_not_empty (g : Z * Z) :
  Forall (λ item : jsstring, item ≠ []) (run_items g).
Proof.
  unfold run_items. destruct (2 <? _)%nat.
  - repeat constructor. by destruct (decimal (fst g)).
  - apply Forall_fmap, Forall_forall. intros z _.
    destruct (decimal_shape z) as (c & r & Heq & _).
    unfold compose. by rewrite Heq.
Qed.

Lemma run_items_values (g : Z * Z) :
  Forall2 (λ item v, parse_item item = Some v) (run_items g) (run_values g) ∧
  concat (run_values g) = range (fst g) (snd g).
Proof.
  unfold run_items, run_values. destruct (2 <? _)%nat.
  - split; [|simpl; by rewrite app_nil_r].
    repeat constructor. apply parse_item_range.
  - split.
    + apply Forall2_fmap, Forall_Forall2_diag, Forall_forall. intros z _.
      apply parse_item_number.
    + induction (range (fst g) (snd g)) as [|z l IH]; [done|].
      rewrite fmap_cons. simpl. by rewrite IH.
Qed.

Lemma parse_ranges_groups (groups : list (Z * Z)) :
  groups ≠ [] →
  Forall (λ g, fst g ≤ snd g ∧ safe_integer (fst g) ∧ safe_integer (snd g))
    groups →
  parse_ranges
    (join [COMMA] (toString <$> ((λ g, Num <$> range (fst g) (snd g)) <$> groups)))
  = Some (concat ((λ g, range (fst g) (snd g)) <$> groups)).
Proof.
  intros Hne Hall.
  rewrite <-list_fmap_compose.
  rewrite (Forall_fmap_ext_1 _ (λ g, join [COMMA] (run_items g)))
    by (eapply Forall_impl; [done|]; intros g (? & ? & ?); by apply toString_run).
  rewrite (list_fmap_compose run_items (join [COMMA])).
  rewrite join_concat
    by (apply Forall_fmap; eapply Forall_impl; [done|];
        intros g (? & ? & ?); by apply run_items_not_nil).
  assert (concat (run_items <$> groups) ≠ []) as Hitems.
  { destruct groups as [|g groups]; [done|].
    apply Forall_cons in Hall as [[Hg _] _]. apply run_items_not_nil in Hg.
    rewrite fmap_cons. simpl. by destruct (run_items g). }
  assert (Forall (Forall (λ c, c ≠ COMMA)) (concat (run_items <$> groups)))
    as Hcomma.
  { apply Forall_concat, Forall_fmap, Forall_forall. intros g _.
    apply run_items_no_comma. }
  assert (Forall (λ item : jsstring, item ≠ []) (concat (run_items <$> groups)))
    as Hnonempty.
  { apply Forall_concat, Forall_fmap, Forall_forall. intros g _.
    apply run_items_not_empty. }
  unfold parse_ranges.
  destruct (join [COMMA] (concat (run_items <$> groups))) as [|c s] eqn:Hjoin.
  { exfalso. destruct (concat (run_items <$> groups)) as [|i1 [|i2 l]]; [done| |].
    - apply Forall_cons in Hnonempty as [? _]. simpl in Hjoin. done.
    - rewrite join_cons_cons in Hjoin. by destruct i1. }
  rewrite <-Hjoin, split_join by done.
  assert (mapM parse_item (concat (run_items <$> groups))
          = Some (concat (run_values <$> groups))) as ->.
  { apply mapM_Some. clear. induction groups as [|g groups IH]; [constructor|].
    rewrite !fmap_cons. simpl. apply Forall2_app; [|done].
    apply run_items_values. }
  simpl. f_equal. clear.
  induction groups as [|g groups IH]; [done|].
  rewrite !fmap_cons. simpl. rewrite concat_app, IH.
  by destruct (run_items_values g) as [_ ->].
Qed.

(** C5, as the specification states it, fails beyond the safe integers:
    -9007199254740994 + 1 is the number -9007199254740992, so the function
    finds no gap after -9007199254740994 and returns one range for the
    three integers, which reads as four. *)
Lemma extractRanges_round_trip_unsafe :
  Sorted Z.lt [-9007199254740994; -9007199254740992; -9007199254740991] ∧
  fst (extractRanges
         (Num <$> [-9007199254740994; -9007199254740992; -9007199254740991]))
  = u16 "-9007199254740994--9007199254740991" ∧
  parse_ranges
    (fst (extractRanges
            (Num <$> [-9007199254740994; -9007199254740992; -9007199254740991])))
  = Some [-9007199254740994; -9007199254740993; -9007199254740992;
          -9007199254740991].
Proof.
  split_and!.
  - repeat constructor; lia.
  - vm_compute. reflexivity.
  - vm_compute. reflexivity.
Qed.

(** C5, amended: for an ascending sequence of distinct safe integers (the integers
    up to 2^53 - 1 in magnitude, on which the sums of numbers are exact),
    reading the string that [extractRanges] returns, each item with a dash
    for all the integers from its start to its end and each other item for
    its number, gives the sequence back. *)
Theorem extractRanges_round_trip (zs : list Z) :
  Sorted Z.lt zs → Forall safe_integer zs →
  parse_ranges (fst (extractRanges (Num <$> zs))) = Some zs.
Proof.
  intros Hsorted Hsafe. destruct zs as [|z zs]; [done|].
  unfold extractRanges. cbn [fst fmap list_fmap app].
  rewrite (reduce_ranges_runs _ _ [] [Num z] (Num z) 1 0 []) by done.
  cbn [app].
  destruct (runs_ascending zs z z) as (groups & Hruns & Hconcat & Hall & Hne);
    [lia|done|by apply Forall_cons in Hsafe as [? _]|done|].
  rewrite range_one in Hruns, Hconcat. simpl in Hruns.
  change (list_fmap Z jsnum Num zs) with (Num <$> zs).
  rewrite Hruns, parse_ranges_groups by done.
  by rewrite Hconcat.
Qed.

Lemma extractRanges_round_trip_witness :
  parse_ranges (fst (extractRanges (Num <$> [-3; -2; -1; 0; 1; 2; 5; 7; 8; 9; 12; 13])))
  = Some [-3; -2; -1; 0; 1; 2; 5; 7; 8; 9; 12; 13].
Proof.
  apply (extractRanges_round_trip [-3; -2; -1; 0; 1; 2; 5; 7; 8; 9; 12; 13]).
  - repeat constructor.
  - unfold safe_integer. repeat constructor; lia.
Defined.

End extractRanges_round_trip.

Section extractRanges_argument.
Import Katas1.

Implicit Types (h : Heap.heap) (gs : list (list jsnum)) (nums : Heap.ref).

Lemma elements_of_app_l h gs nums arr :
  h !! nums = Some arr → Heap.elements_of (h ++ gs) nums = arr.
Proof.
  intros Hnums. unfold Heap.elements_of.
  by rewrite (lookup_app_l_Some _ _ _ _ Hnums).
Qed.

(** The [reduce] reads the caller's array and adds the groups to the heap,
    after the objects that are there: [ranges] holds the references to
    them, in order. *)
Lemma reduce_loop_groups rest : ∀ h nums arr gs acc endIndex startIndex,
  h !! nums = Some arr → drop endIndex arr = rest →
  ∃ startIndex',
    Heap.reduce_loop nums (length rest) endIndex acc
      (Heap.ReduceState (h ++ gs) (seq (length h) (length gs)) startIndex)
    = Heap.ReduceState
        (h ++ reduce_ranges arr acc endIndex rest startIndex gs)
        (seq (length h)
           (length (reduce_ranges arr acc endIndex rest startIndex gs)))
        startIndex'.
Proof.
  induction rest as [|value rest IH];
    intros h nums arr gs acc endIndex startIndex Hnums Hdrop.
  - by exists startIndex.
  - assert (arr !! endIndex = Some value) as Hvalue.
    { pose proof (lookup_drop arr endIndex 0) as H.
      by rewrite Hdrop, Nat.add_0_r in H. }
    assert (drop (S endIndex) arr = rest) as Hrest.
    { replace (S endIndex) with (endIndex + 1)%nat by lia.
      by rewrite <-drop_drop, Hdrop. }
    cbn [length Heap.reduce_loop Heap.st_heap reduce_ranges].
    rewrite (elements_of_app_l _ _ _ _ Hnums), Hvalue.
    unfold Heap.reduce_body. destruct (lt (add1 acc) value).
    + cbn [Heap.slice Heap.st_heap Heap.st_ranges Heap.st_startIndex].
      rewrite (elements_of_app_l _ _ _ _ Hnums).
      destruct (IH h nums arr (gs ++ [slice startIndex endIndex arr])
                  value (S endIndex) endIndex Hnums Hrest) as [startIndex' Hloop].
      exists startIndex'. rewrite <-Hloop. f_equal. f_equal.
      * by rewrite <-app_assoc.
      * rewrite !length_app. simpl. by rewrite seq_app.
    + apply (IH h nums arr gs value (S endIndex) startIndex Hnums Hrest).
Qed.

(** [toString] changes the group it is given, when it has more than two
    numbers, and nothing else. *)
Lemma toString_group h (done_ : list (list jsnum)) g gs :
  Heap.toString (h ++ done_ ++ g :: gs) (length h + length done_)%nat
  = (toString g,
     h ++ done_
       ++ (if (2 <? length g)%nat then removelast (tail g) else g) :: gs).
Proof.
  assert (∀ x, (h ++ done_ ++ x :: gs) !! (length h + length done_)%nat
               = Some x) as Hlookup.
  { intros x. rewrite app_assoc. apply list_lookup_middle.
    by rewrite length_app. }
  assert (∀ x y, <[(length h + length done_)%nat := y]> (h ++ done_ ++ x :: gs)
                 = h ++ done_ ++ y :: gs) as Hinsert.
  { intros x y. rewrite !app_assoc, insert_app_r_alt, length_app
      by (rewrite length_app; lia).
    by rewrite Nat.sub_diag. }
  assert (∀ x, Heap.elements_of (h ++ done_ ++ x :: gs)
                 (length h + length done_)%nat = x) as Helements.
  { intros x. unfold Heap.elements_of. by rewrite Hlookup. }
  unfold Heap.toString, Heap.shift, Heap.pop, toString.
  rewrite Helements.
  destruct (Nat.ltb_spec 2 (length g)) as [Hlen|Hlen]; [|done].
  rewrite Hinsert, Helements, Hinsert.
  destruct g as [|a [|b g]]; [simpl in Hlen; lia..|].
  cbn [head tail]. destruct (last (b :: g)) as [c|] eqn:Hlast; [done|].
  by apply last_None in Hlast.
Qed.

Lemma map_toString_groups gs : ∀ h (done_ : list (list jsnum)),
  ∃ gs', Heap.map_toString (h ++ done_ ++ gs)
           (seq (length h + length done_)%nat (length gs))
         = (toString <$> gs, h ++ done_ ++ gs').
Proof.
  induction gs as [|g gs IH]; intros h done_.
  - by exists [].
  - cbn [length seq Heap.map_toString]. rewrite toString_group.
    set (g' := if (2 <? length g)%nat then removelast (tail g) else g).
    destruct (IH h (done_ ++ [g'])) as [gs' Hmap].
    rewrite length_app in Hmap. cbn [length] in Hmap.
    replace (length h + (length done_ + 1))%nat
      with (S (length h + length done_)%nat) in Hmap by lia.
    rewrite <-app_assoc in Hmap. cbn [app] in Hmap. rewrite Hmap.
    exists (g' :: gs'). by rewrite <-app_assoc.
Qed.

(** C8, as the specification states it, fails: after the call the array
    [1, 2, 3] of the caller is [1, 2, 3, Infinity]. *)
Lemma extractRanges_changes_argument :
  snd (Heap.extractRanges [[Num 1; Num 2; Num 3]] 0%nat) !! 0%nat
  ≠ Some [Num 1; Num 2; Num 3].
Proof. vm_compute. discriminate. Qed.

(** C8, amended: [extractRanges] appends [Infinity] to the array it is
    given and leaves the elements that were there as they were; the string
    it returns is made from copies, since [slice] makes new arrays and
    [shift] and [pop] are called on these only, and the other arrays of
    the heap are as they were. *)
Theorem extractRanges_pushes_Infinity h nums (arr : list jsnum) :
  h !! nums = Some arr →
  ∃ h',
    Heap.extractRanges h nums = (fst (extractRanges arr), h') ∧
    h' !! nums = Some (arr ++ [Infinity]) ∧
    snd (extractRanges arr) = arr ++ [Infinity] ∧
    ∀ other elements,
      other ≠ nums → h !! other = Some elements → h' !! other = Some elements.
Proof.
  intros Hnums. unfold Heap.extractRanges, Heap.push, extractRanges.
  cbv zeta.
  assert (Heap.elements_of h nums = arr) as ->
    by (unfold Heap.elements_of; by rewrite Hnums).
  destruct (arr ++ [Infinity]) as [|first rest] eqn:Hfull.
  { by destruct arr. }
  set (h1 := <[nums := first :: rest]> h).
  assert (h1 !! nums = Some (first :: rest)) as Hnums1.
  { apply list_lookup_insert_eq. by eapply lookup_lt_Some. }
  assert (Heap.elements_of h1 nums = first :: rest) as ->
    by (unfold Heap.elements_of; by rewrite Hnums1).
  assert (∀ gs' other elements,
            other ≠ nums → h !! other = Some elements →
            (h1 ++ gs') !! other = Some elements) as Hframe.
  { intros gs' other elements Hne Hother. apply lookup_app_l_Some.
    unfold h1. rewrite <-Hother. by apply list_lookup_insert_ne. }
  cbn [fst snd].
  destruct (reduce_loop_groups rest h1 nums (first :: rest) [] first 1%nat 0%nat)
    as [startIndex' Hloop]; [done|done|].
  rewrite app_nil_r in Hloop. cbn [length seq] in Hloop.
  destruct (map_toString_groups
              (reduce_ranges (first :: rest) first 1%nat rest 0%nat []) h1 [])
    as [gs' Hmap].
  cbn [length app] in Hmap. rewrite Nat.add_0_r in Hmap.
  exists (h1 ++ gs'). rewrite Hloop. cbn [Heap.st_heap Heap.st_ranges].
  rewrite Hmap. split_and!; [done| |done|by apply Hframe].
  by apply lookup_app_l_Some.
Qed.

Lemma extractRanges_pushes_Infinity_witness :
  ∃ h',
    Heap.extractRanges [[Num 7; Num 8; Num 9]; [Num 1; Num 2; Num 3; Num 5]] 1%nat
    = (fst (extractRanges [Num 1; Num 2; Num 3; Num 5]), h') ∧
    h' !! 1%nat = Some ([Num 1; Num 2; Num 3; Num 5] ++ [Infinity]) ∧
    snd (extractRanges [Num 1; Num 2; Num 3; Num 5])
    = [Num 1; Num 2; Num 3; Num 5] ++ [Infinity] ∧
    ∀ other elements,
      other ≠ 1%nat →
      [[Num 7; Num 8; Num 9]; [Num 1; Num 2; Num 3; Num 5]] !! other
      = Some elements →
      h' !! other = Some elements.
Proof.
  apply (extractRanges_pushes_Infinity
           [[Num 7; Num 8; Num 9]; [Num 1; Num 2; Num 3; Num 5]] 1%nat
           [Num 1; Num 2; Num 3; Num 5]).
  reflexivity.
Defined.

End extractRanges_argument.

(** * Properties of the functions of 11-katas-2-tasks.js *)

Section parseBankAccount.
Import Katas2.

Lemma indexOf_from_bounds {A} `{EqDecision A} (l : list A) (x : A) (i : Z) :
  indexOf_from i x l = -1 ∨
  i ≤ indexOf_from i x l < i + Z.of_nat (length l).
Proof.
  revert i. induction l as [|y l IH]; intros i; simpl; [by left|].
  destruct (decide (y = x)); [right; lia|].
  destruct (IH (i + 1)) as [->|?]; [by left|right; lia].
Qed.

Lemma indexOf_nums_bounds (g : jsstring) : -1 ≤ indexOf nums g ≤ 9.
Proof.
  unfold indexOf. destruct (indexOf_from_bounds nums g 0) as [->|Hb]; [lia|].
  change (length nums) with 10%nat in Hb. lia.
Qed.

Lemma indexOf_from_elem_of {A} `{EqDecision A} (l : list A) (x : A) (i : Z) :
  x ∈ l → i ≤ indexOf_from i x l.
Proof.
  revert i. induction l as [|y l IH]; intros i Hin; simpl.
  - by apply elem_of_nil in Hin.
  - destruct (decide (y = x)); [lia|].
    apply elem_of_cons in Hin as [->|Hin]; [done|].
    specialize (IH (i + 1) Hin). lia.
Qed.

(** C7: the documented three-line block with the glyphs of the digits 1 to 9
    parses to the integer 123456789. *)
Theorem parseBankAccount_123456789 :
  parseBankAccount account_123456789 = Ok 123456789.
Proof. vm_compute. reflexivity. Qed.

(** C10: for a block of nine glyphs, [parseBankAccount] returns the numeric
    value of the nine decoded digits, the first digit being the most
    significant. The value is below 10^9; it is below 10^8 when the first
    glyph decodes to 0, and it is not negative when every glyph is in the
    table. The block whose glyphs decode to 0,2,3,0,5,6,7,8,9 gives
    23056789. *)
Theorem parseBankAccount_leading_zero (bankAccount : jsstring) :
  length (glyphs bankAccount) = 9%nat →
  ∃ d0 d1 d2 d3 d4 d5 d6 d7 d8 v,
    digits bankAccount = [d0; d1; d2; d3; d4; d5; d6; d7; d8] ∧
    parseBankAccount bankAccount = Ok v ∧
    v = d0 * 10^8 + d1 * 10^7 + d2 * 10^6 + d3 * 10^5 + d4 * 10^4
        + d5 * 10^3 + d6 * 10^2 + d7 * 10 + d8 ∧
    v < 10^9 ∧
    (d0 = 0 → v < 10^8) ∧
    (Forall (λ g, g ∈ nums) (glyphs bankAccount) → 0 ≤ v) ∧
    parseBankAccount account_023056789 = Ok 23056789.
Proof.
  intros Hlen. unfold parseBankAccount, digits.
  destruct (glyphs bankAccount) as [|g0 [|g1 [|g2 [|g3 [|g4 [|g5 [|g6 [|g7 [|g8 [|? ?]]]]]]]]]];
    try discriminate Hlen.
  exists (indexOf nums g0), (indexOf nums g1), (indexOf nums g2),
    (indexOf nums g3), (indexOf nums g4), (indexOf nums g5),
    (indexOf nums g6), (indexOf nums g7), (indexOf nums g8).
  eexists. split; [reflexivity|]. split; [reflexivity|].
  pose proof (indexOf_nums_bounds g0). pose proof (indexOf_nums_bounds g1).
  pose proof (indexOf_nums_bounds g2). pose proof (indexOf_nums_bounds g3).
  pose proof (indexOf_nums_bounds g4). pose proof (indexOf_nums_bounds g5).
  pose proof (indexOf_nums_bounds g6). pose proof (indexOf_nums_bounds g7).
  pose proof (indexOf_nums_bounds g8).
  cbn [foldl]. split; [lia|]. split; [lia|]. split; [lia|]. split.
  - intros Hall.
    repeat match goal with
    | H : Forall _ (_ :: _) |- _ => apply Forall_cons in H as [? H]
    end.
    repeat match goal with
    | H : ?g ∈ nums |- _ =>
        apply (indexOf_from_elem_of nums g 0) in H; fold (indexOf nums g) in H
    end.
    lia.
  - vm_compute. reflexivity.
Qed.

Lemma parseBankAccount_leading_zero_witness :
  ∃ d0 d1 d2 d3 d4 d5 d6 d7 d8 v,
    digits account_023056789 = [d0; d1; d2; d3; d4; d5; d6; d7; d8] ∧
    parseBankAccount account_023056789 = Ok v ∧
    v = d0 * 10^8 + d1 * 10^7 + d2 * 10^6 + d3 * 10^5 + d4 * 10^4
        + d5 * 10^3 + d6 * 10^2 + d7 * 10 + d8 ∧
    v < 10^9 ∧
    (d0 = 0 → v < 10^8) ∧
    (Forall (λ g, g ∈ nums) (glyphs account_023056789) → 0 ≤ v) ∧
    parseBankAccount account_023056789 = Ok 23056789.
Proof. apply (parseBankAccount_leading_zero account_023056789). vm_compute. reflexivity. Defined.

End parseBankAccount.

Section wrapText.
Import Katas2.

Implicit Types (s a b w line text : jsstring).

(** *** Words and whitespace *)

Lemma is_space_is_dot c : is_space c = false → is_dot c = true.
Proof.
  unfold is_space, is_dot. intros Hs.
  apply negb_true_iff, not_true_is_false. intros Hd.
  apply not_true_iff_false in Hs. apply Hs. clear Hs.
  rewrite !orb_true_iff, !N.eqb_eq in Hd.
  rewrite !orb_true_iff, !andb_true_iff, !N.eqb_eq, !N.leb_le. lia.
Qed.

Lemma split_spaces_not_nil s : split_spaces s ≠ [].
Proof.
  destruct s as [|c s]; simpl; [done|].
  destruct (is_space c); [done|]. by destruct (split_spaces s).
Qed.

Lemma split_spaces_app_space a c b :
  is_space c = true →
  split_spaces (a ++ c :: b) = split_spaces a ++ split_spaces b.
Proof.
  intros Hc. induction a as [|x a IH]; simpl; [by rewrite Hc|].
  destruct (is_space x); [by rewrite IH|].
  rewrite IH. pose proof (split_spaces_not_nil a).
  by destruct (split_spaces a).
Qed.

Lemma words_nil : words [] = [].
Proof. done. Qed.

Lemma words_cons_space c s : is_space c = true → words (c :: s) = words s.
Proof. intros Hc. unfold words. simpl. by rewrite Hc. Qed.

Lemma words_app_space a c b :
  is_space c = true → words (a ++ c :: b) = words a ++ words b.
Proof.
  intros Hc. unfold words. by rewrite split_spaces_app_space, filter_app.
Qed.

Lemma words_app_end a b :
  lookahead_end b = true → words (a ++ b) = words a ++ words b.
Proof.
  destruct b as [|c b]; simpl; intros Hb.
  - by rewrite !app_nil_r.
  - by rewrite words_app_space, words_cons_space.
Qed.

Lemma words_not_nil s : Forall (λ w, w ≠ []) (words s).
Proof. unfold words. apply Forall_forall. intros w Hw. by apply list_elem_of_filter in Hw as [? _]. Qed.

Lemma split_spaces_cons c s :
  split_spaces (c :: s)
  = if is_space c then [] :: split_spaces s
    else match split_spaces s with
         | w :: ws => (c :: w) :: ws
         | [] => [[c]]
         end.
Proof. done. Qed.

Lemma first_piece c s :
  is_space c = false →
  ∃ w rest tl,
    c :: s = (c :: w) ++ rest ∧ Forall (λ x, is_space x = false) (c :: w) ∧
    lookahead_end rest = true ∧ split_spaces (c :: s) = (c :: w) :: tl ∧
    filter (λ w : jsstring, w ≠ []) tl = words rest.
Proof.
  revert c. induction s as [|x s IH]; intros c Hc.
  - exists [], [], []. rewrite split_spaces_cons, Hc.
    split_and!; [done|by repeat constructor|done|done|done].
  - destruct (is_space x) eqn:Hx.
    + exists [], (x :: s), (split_spaces s).
      rewrite split_spaces_cons, Hc, split_spaces_cons, Hx.
      split_and!; [done|by repeat constructor|done|done|].
      by rewrite words_cons_space.
    + destruct (IH x Hx) as (w & rest & tl & Heq & Hall & Hend & Hsplit & Htl).
      exists (x :: w), rest, tl. rewrite split_spaces_cons, Hc, Hsplit.
      split_and!; [by rewrite Heq|by constructor|done|done|done].
Qed.

(** The first word of a text that starts with one. *)
Lemma first_word c s :
  is_space c = false →
  ∃ w rest,
    c :: s = (c :: w) ++ rest ∧ Forall (λ x, is_space x = false) (c :: w) ∧
    lookahead_end rest = true ∧ words (c :: s) = (c :: w) :: words rest.
Proof.
  intros Hc.
  destruct (first_piece c s Hc) as (w & rest & tl & Heq & Hall & Hend & Hsplit & Htl).
  exists w, rest. split_and!; [done|done|done|].
  unfold words at 1. rewrite Hsplit, filter_cons_True by done. by rewrite Htl.
Qed.

Lemma words_join lines : words (join [SPACE] lines) = concat (words <$> lines).
Proof.
  induction lines as [|x [|y lines] IH]; [done| |].
  - simpl. by rewrite app_nil_r.
  - change (join [SPACE] (x :: y :: lines))
      with (x ++ SPACE :: join [SPACE] (y :: lines)).
    rewrite words_app_space by done. by rewrite IH.
Qed.

(** *** The match at one position *)

Lemma dot_run_le max s : (dot_run max s ≤ max ∧ dot_run max s ≤ length s)%nat.
Proof.
  revert s. induction max as [|max IH]; intros [|c s]; simpl; try lia.
  destruct (is_dot c); [|lia]. specialize (IH s). lia.
Qed.

Lemma dot_run_word max w rest :
  Forall (λ x, is_space x = false) w → (length w ≤ max)%nat →
  (length w ≤ dot_run max (w ++ rest))%nat.
Proof.
  intros Hw. revert max. induction Hw as [|c w Hc _ IH]; intros max Hlen;
    simpl in *; [lia|].
  destruct max as [|max]; [lia|]. simpl.
  rewrite is_space_is_dot by done. specialize (IH max). lia.
Qed.

Lemma backtrack_finds k s j :
  (1 ≤ j ≤ k)%nat → lookahead_end (drop j s) = true →
  ∃ len, backtrack k s = Some len ∧ (j ≤ len ≤ k)%nat ∧
         lookahead_end (drop len s) = true.
Proof.
  induction k as [|k IH]; intros Hj Hend; [lia|]. simpl.
  destruct (lookahead_end (drop (S k) s)) eqn:E.
  - exists (S k). split_and!; [done|lia|lia|done].
  - destruct (decide (j = S k)) as [->|Hne]; [congruence|].
    destruct IH as (len & Hb & Hlen & Hl); [lia|done|].
    exists len. split_and!; [done|lia|lia|done].
Qed.

Lemma match_all_skip columns s : ∀ skip,
  match_all columns skip s = match_all columns 0 (drop skip s).
Proof.
  induction s as [|c s IH]; intros [|skip]; simpl; done.
Qed.

(** *** The lines *)

Lemma match_all_words columns n : ∀ s,
  (length s ≤ n)%nat →
  Forall (λ w, (length w ≤ columns)%nat) (words s) →
  Forall (good_line columns) (match_all columns 0 s) ∧
  concat (words <$> match_all columns 0 s) = words s.
Proof.
  induction n as [|n IH]; intros [|c s] Hn Hwords; simpl in Hn; try lia;
    try (by split; [constructor|]).
  cbn [match_all match_at].
  destruct (is_space c) eqn:Hc.
  - rewrite words_cons_space in * by done. apply IH; [lia|done].
  - destruct (first_word c s Hc) as (w & rest & Heq & Hw & Hend & Hfirst).
    rewrite Hfirst in Hwords. apply Forall_cons in Hwords as [Hlen Hrest].
    destruct (backtrack_finds (dot_run columns (c :: s)) (c :: s) (length (c :: w)))
      as (len & -> & Hbound & Hlook).
    { split; [simpl; lia|]. rewrite Heq. by apply dot_run_word. }
    { rewrite Heq. by rewrite drop_app_length. }
    pose proof (dot_run_le columns (c :: s)) as [Hmax Hs].
    simpl in Hbound, Hs.
    rewrite match_all_skip.
    replace (drop (len - 1) s) with (drop len (c :: s))
      by (destruct len; [lia|simpl; f_equal; lia]).
    assert (words (c :: s)
            = words (take len (c :: s)) ++ words (drop len (c :: s))) as Hsplit.
    { by rewrite <-words_app_end, take_drop. }
    destruct (IH (drop len (c :: s))) as [Hlines Hconcat].
    { rewrite length_drop. simpl. lia. }
    { assert (Forall (λ w, (length w ≤ columns)%nat) (words (c :: s))) as Hall
        by (rewrite Hfirst; by constructor).
      rewrite Hsplit in Hall. by apply Forall_app in Hall as [_ ?]. }
    split.
    + constructor; [|done]. split.
      * rewrite length_take. simpl. lia.
      * destruct len as [|len]; [lia|]. by exists c, (take len s).
    + rewrite fmap_cons. cbn [concat]. by rewrite Hconcat, Hsplit.
Qed.

(** C3, as the specification states it, fails: the words of ["a  b"] are
    no longer than 4, the one line yielded for 4 columns is the text itself,
    with its two spaces, and the normalized text has one. *)
Lemma wrapText_keeps_inner_spaces :
  Forall (λ w, (length w ≤ 4)%nat) (words (u16 "a  b")) ∧
  wrapText (u16 "a  b") 4 = Ok [u16 "a  b"] ∧
  join [SPACE] [u16 "a  b"] ≠ normalize (u16 "a  b").
Proof.
  split_and!.
  - vm_compute. repeat constructor.
  - vm_compute. reflexivity.
  - vm_compute. discriminate.
Qed.

(** C3, amended: for a text with at least one word and no word longer than
    [columns], [wrapText] yields lines of at least 1 and at most [columns]
    characters that start with a character that is not whitespace
    ([good_line]); the words of the lines, in order, are the words of the
    text, so no word is split, and the lines joined with single spaces have
    the normalized form of the text. *)
Theorem wrapText_lines (text : jsstring) (columns : nat) :
  words text ≠ [] →
  Forall (λ w, (length w ≤ columns)%nat) (words text) →
  ∃ lines,
    wrapText text columns = Ok lines ∧
    Forall (good_line columns) lines ∧
    concat (words <$> lines) = words text ∧
    normalize (join [SPACE] lines) = normalize text.
Proof.
  intros Hne Hwords.
  destruct (match_all_words columns (length text) text) as [Hlines Hconcat];
    [lia|done|].
  exists (match_all columns 0 text). split_and!; [|done|done|].
  - unfold wrapText. case_bool_decide as Hcol.
    + exfalso. subst columns. pose proof (words_not_nil text) as Hnn.
      destruct (words text) as [|w ws]; [done|].
      apply Forall_cons in Hwords as [Hw _]. apply Forall_cons in Hnn as [Hnn _].
      destruct w; [done|simpl in Hw; lia].
    + destruct (match_all columns 0 text) eqn:E; [|done].
      simpl in Hconcat. congruence.
  - unfold normalize. by rewrite words_join, Hconcat.
Qed.

Lemma wrapText_lines_witness :
  ∃ lines,
    wrapText (u16 "or a sequence of characters.") 12 = Ok lines ∧
    Forall (good_line 12) lines ∧
    concat (words <$> lines) = words (u16 "or a sequence of characters.") ∧
    normalize (join [SPACE] lines)
    = normalize (u16 "or a sequence of characters.").
Proof.
  apply (wrapText_lines (u16 "or a sequence of characters.") 12).
  - vm_compute. discriminate.
  - vm_compute. repeat constructor.
Defined.

End wrapText.

Section getPokerHandRank.
Import Katas2.

(** C6: [getPokerHandRank] gives StraightFlush for 4♥ 5♥ 6♥ 7♥ 8♥, Straight
    for the wheel 2♥ 4♦ 5♥ A♦ 3♠, where the ace counts low, and HighCard for
    A♥ K♥ Q♥ 2♦ 3♠. The ace next to a king still makes a straight
    (10 J Q K A), and it does not join the two ends (Q K A 2 3). *)
Theorem getPokerHandRank_examples :
  getPokerHandRank
    [card "4" HEART; card "5" HEART; card "6" HEART; card "7" HEART;
     card "8" HEART] = StraightFlush ∧
  getPokerHandRank
    [card "2" HEART; card "4" DIAMOND; card "5" HEART; card "A" DIAMOND;
     card "3" SPADE] = Straight ∧
  getPokerHandRank
    [card "A" HEART; card "K" HEART; card "Q" HEART; card "2" DIAMOND;
     card "3" SPADE] = HighCard ∧
  getPokerHandRank
    [card "10" CLUB; card "J" DIAMOND; card "Q" DIAMOND; card "K" SPADE;
     card "A" HEART] = Straight ∧
  getPokerHandRank
    [card "Q" CLUB; card "K" DIAMOND; card "A" DIAMOND; card "2" SPADE;
     card "3" HEART] = HighCard.
Proof. repeat split; vm_compute; reflexivity. Qed.

End getPokerHandRank.

(** * More properties of 10-katas-1-tasks.js *)

Section expandBraces_more.
Import Katas1.

Implicit Types (s p body rest : jsstring).
Implicit Types (CASH : gmap jsstring (list jsstring)).

Lemma new_Set_singleton s : new_Set [s] = [s].
Proof. done. Qed.

(** X1: A string in which the pattern finds no group is yielded as it is, and
    alone, after one iteration of the loop. *)
Theorem expandBraces_no_group (str : jsstring) (fuel : nat) :
  getMatch str = None → (1 ≤ fuel)%nat →
  findBracets fuel str = Some [str] ∧ expandBraces fuel str = Some [str].
Proof.
  intros Hnone Hfuel.
  assert (findBracets fuel str = Some [str]) as Hfind.
  { unfold findBracets. apply (findBracets_loop_more_fuel 1); [|done].
    cbn [findBracets_loop map_replaceBracket]. unfold replaceBracket.
    by rewrite Hnone. }
  split; [done|]. unfold expandBraces. by rewrite Hfind.
Qed.

Lemma expandBraces_no_group_witness :
  findBracets 1 (u16 "nothing to do") = Some [u16 "nothing to do"] ∧
  expandBraces 1 (u16 "nothing to do") = Some [u16 "nothing to do"].
Proof.
  apply (expandBraces_no_group (u16 "nothing to do") 1).
  - vm_compute. reflexivity.
  - lia.
Defined.

(** X3: When the first group has one alternative only, the loop stops after
    replacing it: what follows the group is yielded as it is, with the
    groups it may have. *)
Theorem expandBraces_single_alternative (p body rest : jsstring) (fuel : nat) :
  no_brace p → no_brace body → no_dollar body →
  Forall (λ c, c ≠ COMMA) body → (1 ≤ fuel)%nat →
  expandBraces fuel (p ++ LBRACE :: body ++ RBRACE :: rest)
  = Some [p ++ body ++ rest].
Proof.
  intros Hp Hbody Hdollar Hcomma Hfuel.
  assert (findBracets fuel (p ++ LBRACE :: body ++ RBRACE :: rest)
          = Some [p ++ body ++ rest]) as Hfind.
  { unfold findBracets. apply (findBracets_loop_more_fuel 1); [|done].
    cbn [findBracets_loop map_replaceBracket].
    destruct (replaceBracket_first_group ∅ p body rest cache_ok_empty Hp Hbody Hdollar)
      as [Hx _].
    destruct (replaceBracket ∅ _) as [x CASH']. simpl in Hx. subst x.
    unfold alternatives, split. rewrite split_on_no_sep by done. done. }
  unfold expandBraces. by rewrite Hfind.
Qed.

Lemma expandBraces_single_alternative_witness :
  expandBraces 4 (u16 "x" ++ LBRACE :: u16 "a" ++ RBRACE :: u16 "{b,c}")
  = Some [u16 "x" ++ u16 "a" ++ u16 "{b,c}"].
Proof.
  apply (expandBraces_single_alternative (u16 "x") (u16 "a") (u16 "{b,c}") 4).
  - vm_compute. repeat constructor; discriminate.
  - vm_compute. repeat constructor; discriminate.
  - vm_compute. repeat constructor; discriminate.
  - vm_compute. repeat constructor; discriminate.
  - lia.
Defined.

Lemma replaceBracket_not_nil CASH line :
  cache_ok CASH →
  fst (replaceBracket CASH line) ≠ [] ∧ cache_ok (snd (replaceBracket CASH line)).
Proof.
  intros Hok. unfold replaceBracket.
  destruct (getMatch line) as [bracket|]; [|done].
  destruct (openBracket_cache_ok CASH bracket Hok) as [Hargs Hok'].
  destruct (openBracket CASH bracket) as [args CASH'].
  simpl in *. split; [|done]. unfold combine. intros Hnil%fmap_nil_inv.
  subst args. by apply split_on_not_nil in Hnil.
Qed.

Lemma map_replaceBracket_not_nil combinations : ∀ CASH,
  cache_ok CASH → combinations ≠ [] →
  concat (fst (map_replaceBracket CASH combinations)) ≠ [] ∧
  cache_ok (snd (map_replaceBracket CASH combinations)).
Proof.
  induction combinations as [|line combinations IH]; intros CASH Hok Hne;
    [done|]. simpl.
  destruct (replaceBracket_not_nil CASH line Hok) as [Hx Hok1].
  destruct (replaceBracket CASH line) as [x CASH1]. simpl in Hx, Hok1.
  assert (cache_ok (snd (map_replaceBracket CASH1 combinations))) as Hok2.
  { destruct combinations as [|l2 c2]; [done|]. by apply IH. }
  destruct (map_replaceBracket CASH1 combinations) as [xs CASH2].
  simpl in *. split; [|done]. by destruct x.
Qed.

Lemma findBracets_loop_not_nil fuel : ∀ CASH combinations r,
  cache_ok CASH → combinations ≠ [] →
  findBracets_loop fuel CASH combinations = Some r → r ≠ [].
Proof.
  induction fuel as [|fuel IH]; intros CASH combinations r Hok Hne; [done|].
  cbn [findBracets_loop].
  destruct (map_replaceBracket_not_nil combinations CASH Hok Hne) as [Hc Hok'].
  destruct (map_replaceBracket CASH combinations) as [replaced CASH'].
  simpl in Hc, Hok'. destruct (forallb _ replaced).
  - by apply IH.
  - by intros [= <-].
Qed.

Lemma new_Set_not_nil (arr : list jsstring) : arr ≠ [] → new_Set arr ≠ [].
Proof.
  destruct (new_Set_spec arr) as (_ & Hel & _).
  destruct arr as [|x arr]; [done|]. intros _ Hnil.
  specialize (Hel x). rewrite Hnil in Hel.
  apply (elem_of_nil x), Hel. by left.
Qed.

(** X4: Whatever the string, when [expandBraces] returns it yields at least one
    string and no string twice. *)
Theorem expandBraces_yields_distinct (str : jsstring) (fuel : nat)
    (yielded : list jsstring) :
  expandBraces fuel str = Some yielded → yielded ≠ [] ∧ NoDup yielded.
Proof.
  unfold expandBraces, findBracets.
  destruct (findBracets_loop fuel ∅ [str]) as [r|] eqn:Hr; [|done].
  intros [= <-].
  apply findBracets_loop_not_nil in Hr; [|apply cache_ok_empty|done].
  split; [by apply new_Set_not_nil|apply new_Set_spec].
Qed.

Lemma expandBraces_yields_distinct_witness :
  [u16 "a"] ≠ [] ∧ NoDup [u16 "a"].
Proof.
  apply (expandBraces_yields_distinct (u16 "{a,a}") 2 [u16 "a"]).
  vm_compute. reflexivity.
Defined.

(** X2: For a string without a dollar sign the loop of [findBracets] ends
    within as many iterations as the string has ['{'], and one more:
    [expandBraces] returns, and what it yields does not depend on the number
    of iterations allowed beyond that. *)
Theorem expandBraces_returns_without_dollar (str : jsstring) :
  no_dollar str →
  ∃ yielded, ∀ fuel, (opens str < fuel)%nat →
    expandBraces fuel str = Some yielded.
Proof.
  intros Hstr.
  destruct (findBracets_loop_terminates (opens str) ∅ [str]) as [r Hr];
    [apply cache_ok_empty|done|by repeat constructor|].
  exists (new_Set r). intros fuel Hfuel. unfold expandBraces, findBracets.
  by rewrite (findBracets_loop_more_fuel (S (opens str)) fuel ∅ [str] r Hr)
    by lia.
Qed.

Lemma expandBraces_returns_without_dollar_witness :
  ∃ yielded, ∀ fuel,
    (opens (u16 "It{{em,alic}iz,erat}e{d,}, please.") < fuel)%nat →
    expandBraces fuel (u16 "It{{em,alic}iz,erat}e{d,}, please.") = Some yielded.
Proof.
  apply (expandBraces_returns_without_dollar
           (u16 "It{{em,alic}iz,erat}e{d,}, please.")).
  vm_compute. repeat constructor; discriminate.
Defined.

End expandBraces_more.

Section extractRanges_more.
Import Katas1.

Implicit Types (zs : list Z).

(** The groups of [extractRanges] are the runs of the array with its
    [Infinity]. *)
Lemma extractRanges_runs (first : jsnum) (rest : list jsnum) :
  extractRanges (first :: rest)
  = (join [COMMA] (toString <$> runs [first] first (rest ++ [Infinity])),
     first :: rest ++ [Infinity]).
Proof.
  unfold extractRanges. cbn [app].
  by rewrite (reduce_ranges_runs _ _ [] [first] first 1 0 []).
Qed.

Lemma runs_no_gap zs : ∀ (cur : list jsnum) z,
  no_gap z zs → Forall safe_integer (z :: zs) →
  runs cur (Num z) ((Num <$> zs) ++ [Infinity]) = [cur ++ (Num <$> zs)].
Proof.
  induction zs as [|y zs IH]; intros cur z Hgap Hsafe.
  - simpl. by rewrite app_nil_r.
  - destruct Hgap as [Hy Hgap]. apply Forall_cons in Hsafe as [Hz Hsafe].
    cbn [fmap list_fmap app runs]. rewrite add1_safe by done. cbn [lt].
    rewrite bool_decide_eq_false_2 by lia.
    change (list_fmap Z jsnum Num zs) with (Num <$> zs).
    rewrite (IH _ _ Hgap Hsafe). by rewrite <-app_assoc.
Qed.

Lemma no_gap_range lo hi : no_gap lo (range (lo + 1) hi).
Proof.
  unfold range.
  generalize (Z.to_nat (hi - (lo + 1) + 1)) as k. intros k. revert lo.
  induction k as [|k IH]; intros lo; [done|].
  cbn [seq fmap list_fmap no_gap]. split; [lia|].
  rewrite <-seq_shift, <-list_fmap_compose.
  rewrite (list_fmap_ext _ (λ j : nat, (lo + 1 + 0) + 1 + Z.of_nat j) (seq 0 k))
    by (intros; simpl; lia).
  apply IH.
Qed.

(** X5: The safe integers from [lo] to [hi] print as [lo-hi] when there
    are three of them or more, and as the one or the two numbers
    otherwise. *)
Theorem extractRanges_one_run (lo hi : Z) :
  lo ≤ hi → safe_integer lo → safe_integer hi →
  fst (extractRanges (Num <$> range lo hi))
  = if bool_decide (lo + 2 ≤ hi)
    then Number_toString (Num lo) ++ [DASH] ++ Number_toString (Num hi)
    else if bool_decide (lo = hi) then Number_toString (Num lo)
    else Number_toString (Num lo) ++ [COMMA] ++ Number_toString (Num hi).
Proof.
  intros Hle Hlo Hhi. rewrite (range_cons lo hi) by done. rewrite fmap_cons.
  rewrite extractRanges_runs. cbn [fst].
  rewrite (runs_no_gap _ _ _ (no_gap_range lo hi))
    by (rewrite <-range_cons by done; by apply range_safe).
  cbn [fmap list_fmap join].
  change (list_fmap Z jsnum Num (range (lo + 1) hi)) with (Num <$> range (lo + 1) hi).
  change ([Num lo] ++ (Num <$> range (lo + 1) hi))
    with (Num <$> (lo :: range (lo + 1) hi)).
  rewrite <-range_cons by done.
  pose proof (toString_run (lo, hi) Hle Hlo Hhi) as Hrun. cbn [fst snd] in Hrun.
  rewrite Hrun. unfold run_items. cbn [fst snd]. rewrite length_range.
  rewrite !Number_toString_safe by done.
  case_bool_decide as H2.
  - destruct (Nat.ltb_spec 2 (Z.to_nat (hi - lo + 1))); [done|lia].
  - destruct (Nat.ltb_spec 2 (Z.to_nat (hi - lo + 1))); [lia|].
    case_bool_decide as H1.
    + subst hi. by rewrite range_one.
    + assert (hi = lo + 1) as -> by lia.
      rewrite range_cons, range_one by lia. done.
Qed.

Lemma extractRanges_one_run_witness :
  fst (extractRanges (Num <$> range (-2) 3))
  = if bool_decide (-2 + 2 ≤ 3)
    then Number_toString (Num (-2)) ++ [DASH] ++ Number_toString (Num 3)
    else if bool_decide (-2 = 3) then Number_toString (Num (-2))
    else Number_toString (Num (-2)) ++ [COMMA] ++ Number_toString (Num 3).
Proof.
  apply (extractRanges_one_run (-2) 3); [lia|unfold safe_integer; lia..].
Defined.

(** X6: The function does not check the order of the numbers: three safe
    integers or more, none of them more than one above the number before it
    (descending or repeated numbers, say), print as one range from the
    first to the last. *)
Theorem extractRanges_no_order_check (z : Z) (zs : list Z) (y : Z) :
  no_gap z zs → Forall safe_integer (z :: zs) →
  (2 ≤ length zs)%nat → last zs = Some y →
  fst (extractRanges (Num <$> z :: zs))
  = Number_toString (Num z) ++ [DASH] ++ Number_toString (Num y).
Proof.
  intros Hgap Hsafe Hlen Hlast. rewrite fmap_cons, extractRanges_runs. cbn [fst].
  rewrite (runs_no_gap _ _ _ Hgap Hsafe). cbn [fmap list_fmap join app].
  unfold toString. cbn [length head tail].
  change (list_fmap Z jsnum Num zs) with (Num <$> zs).
  rewrite length_fmap, fmap_last, Hlast.
  destruct (Nat.ltb_spec 2 (S (length zs))); [done|lia].
Qed.

Lemma extractRanges_no_order_check_witness :
  fst (extractRanges (Num <$> 5 :: [3; 1]))
  = Number_toString (Num 5) ++ [DASH] ++ Number_toString (Num 1).
Proof.
  apply (extractRanges_no_order_check 5 [3; 1] 1).
  - simpl. lia.
  - unfold safe_integer. repeat constructor; lia.
  - simpl. lia.
  - reflexivity.
Defined.

Lemma runs_second_Infinity zs : ∀ (cur : list jsnum) z,
  runs cur (Num z) ((Num <$> zs) ++ [Infinity; Infinity])
  = runs cur (Num z) ((Num <$> zs) ++ [Infinity]).
Proof.
  induction zs as [|y zs IH]; intros cur z; [done|].
  cbn [fmap list_fmap app runs]. by rewrite !IH.
Qed.

(** X7: A second call with the same array, which the first call has left with
    its [Infinity], returns the same string and pushes one more
    [Infinity]. *)
Theorem extractRanges_again (zs : list Z) :
  extractRanges (snd (extractRanges (Num <$> zs)))
  = (fst (extractRanges (Num <$> zs)), (Num <$> zs) ++ [Infinity; Infinity]).
Proof.
  destruct zs as [|z zs]; [done|].
  rewrite fmap_cons, !extractRanges_runs. cbn [fst snd].
  rewrite extractRanges_runs. rewrite <-!app_assoc. cbn [app].
  by rewrite runs_second_Infinity.
Qed.

End extractRanges_more.

Section getZigZagMatrix_cells.
Import Katas1.

Lemma diagonals_body_content n i st :
  (i < n + n - 1)%nat → diagonals_content_inv n i st →
  ∃ st', diagonals_body n i st = Ok st' ∧ diagonals_content_inv n (S i) st'.
Proof.
  intros Hi (Hinv & Hbase & Hcontent).
  destruct (diagonals_body_inv n i st Hi Hinv) as (st' & Hbody & Hinv').
  exists st'. split; [done|]. split; [done|].
  destruct Hinv as (_ & _ & _ & Hdiags & _).
  destruct Hinv' as (_ & Hlen' & _ & _ & Hlens' & _).
  unfold diagonals_body, Array_from_counter in Hbody.
  destruct (Z.ltb_spec
              (diagonalLength st + (if bool_decide (i = n) then -1 else step st)) 0);
    [done|].
  cbn [mbind result_bind] in Hbody. injection Hbody as <-.
  cbn [counter diagonals diagonalLength] in *.
  assert (diagonalLength st + (if bool_decide (i = n) then -1 else step st)
          = Z.of_nat (remaining n 0 i)) as Hrem.
  { rewrite Hlen'. unfold remaining.
    destruct (Nat.leb_spec (S i) n), (Nat.ltb_spec i n), (Nat.ltb_spec i 0);
      lia. }
  split.
  - cbn [diagonal_base]. lia.
  - intros d diagonal Hd. apply lookup_app_Some in Hd as [Hd|[Hge Hd]].
    + by apply Hcontent.
    + rewrite Hdiags in Hge, Hd.
      destruct (d - i)%nat as [|k] eqn:Hk; [|done].
      assert (d = i) as -> by lia. simpl in Hd. injection Hd as <-.
      rewrite Hrem, Nat2Z.id. apply list_fmap_ext. intros _ k _. simpl. lia.
Qed.

Lemma build_diagonals_content n :
  (1 ≤ n)%nat →
  ∃ ds, build_diagonals n = Ok ds ∧
        length ds = (n + n - 1)%nat ∧
        ∀ d diagonal, ds !! d = Some diagonal →
                      diagonal = diagonal_left n d (remaining n 0 d).
Proof.
  intros Hn. unfold build_diagonals.
  destruct (for_each_seq_inv (diagonals_content_inv n) (diagonals_body n)
              (n + n - 1) 0 (DiagonalsState 1 0 (-1) []))
    as (st & -> & (_ & _ & _ & Hdiags & _) & _ & Hcontent).
  - split; [|done]. split_and!; simpl; done.
  - intros i st Hi. apply diagonals_body_content. lia.
  - simpl in *. exists (diagonals st). split_and!; [done|done|].
    intros d diagonal Hd. rewrite (Hcontent _ _ Hd). unfold diagonal_left.
    destruct (Nat.eqb (d mod 2) 0); [done|].
    apply list_fmap_ext. intros _ k _. simpl. lia.
Qed.

Lemma removelast_fmap_seq (f : nat → Z) k :
  removelast (f <$> seq 0 (S k)) = f <$> seq 0 k.
Proof.
  replace (S k) with (k + 1)%nat by lia.
  rewrite seq_app, fmap_app. simpl. by rewrite removelast_last.
Qed.

Lemma last_fmap_seq (f : nat → Z) k : last (f <$> seq 0 (S k)) = Some (f k).
Proof.
  replace (S k) with (k + 1)%nat by lia.
  rewrite seq_app, fmap_app. simpl. by rewrite last_snoc.
Qed.

(** Taking a number from the diagonal of the cell at row [i] and column
    [j], when the rows before [i] and the columns before [j] are done. *)
Lemma take_zigzag_value n i j :
  (i < n)%nat → (j < n)%nat →
  ∃ left,
    remaining n i (i + j) = S left ∧
    (if Nat.eqb ((i + j) mod 2) 0
     then pop (diagonal_left n (i + j) (S left))
     else shift (diagonal_left n (i + j) (S left)))
    = (Some (zigzag_value n i j), diagonal_left n (i + j) left).
Proof.
  intros Hi Hj. pose proof (remaining_pos n i j Hi Hj) as Hpos.
  destruct (remaining n i (i + j)) as [|left] eqn:Hrem; [lia|].
  exists left. split; [done|].
  assert (remaining n 0 (i + j) = (S left + (i - (i + j + 1 - n)))%nat) as Hlen.
  { rewrite <-Hrem. unfold remaining.
    destruct (Nat.ltb_spec (i + j) 0), (Nat.ltb_spec (i + j) i),
      (Nat.ltb_spec (i + j) n); lia. }
  unfold diagonal_left, zigzag_value. cbv zeta.
  destruct (Nat.eqb ((i + j) mod 2) 0).
  - unfold pop. rewrite last_fmap_seq, removelast_fmap_seq. do 2 f_equal. lia.
  - unfold shift. cbn [seq fmap list_fmap head tail]. f_equal; [f_equal; lia|].
    rewrite <-seq_shift, <-list_fmap_compose.
    apply list_fmap_ext. intros _ k _. simpl. lia.
Qed.

Lemma cell_body_content n i j st :
  (i < n)%nat → (j < n)%nat → fill_content_inv n i j st →
  ∃ st', cell_body i j st = Ok st' ∧ fill_content_inv n i (S j) st'.
Proof.
  intros Hi Hj. destruct st as [m ds].
  intros (Hds & Hcontent & Hm & Hrows & Hcells). cbn [fst snd] in *.
  destruct (lookup_lt_is_Some_2 ds (i + j)) as [diagonal Hdiag]; [lia|].
  destruct (lookup_lt_is_Some_2 m i) as [row Hrow]; [lia|].
  assert (length row = n) as Hlrow.
  { rewrite Forall_forall in Hrows. eapply Hrows, list_elem_of_lookup_2, Hrow. }
  destruct (take_zigzag_value n i j Hi Hj) as (left & Hrem & Htake).
  pose proof (Hcontent _ _ Hdiag) as Hd.
  rewrite Hrem in Hd.
  replace ((i <=? i + j)%nat && (i + j <? i + j)%nat) with false in Hd
    by (destruct (Nat.leb_spec i (i + j)), (Nat.ltb_spec (i + j) (i + j));
        simpl; lia).
  rewrite Nat.sub_0_r in Hd. subst diagonal.
  unfold cell_body. rewrite Hdiag, Hrow. cbn beta iota. rewrite Htake.
  eexists. split; [reflexivity|].
  split_and!; cbn [fst snd].
  - by rewrite length_insert.
  - intros d diag Hd. destruct (decide (d = (i + j)%nat)) as [->|Hne].
    + rewrite list_lookup_insert_eq in Hd by lia. injection Hd as <-.
      rewrite Hrem. f_equal.
      destruct (Nat.leb_spec i (i + j)), (Nat.ltb_spec (i + j) (i + S j));
        simpl; lia.
    + rewrite list_lookup_insert_ne in Hd by done.
      rewrite (Hcontent _ _ Hd). f_equal.
      destruct (Nat.leb_spec i d), (Nat.ltb_spec d (i + j)),
        (Nat.ltb_spec d (i + S j)); simpl; lia.
  - by rewrite length_insert.
  - apply Forall_insert; [done|]. by rewrite length_insert.
  - intros i' j' row' Hbefore Hj' Hrow'.
    destruct (decide (i' = i)) as [->|Hne].
    + rewrite list_lookup_insert_eq in Hrow' by lia. injection Hrow' as <-.
      destruct (decide (j' = j)) as [->|Hnej].
      * rewrite list_lookup_insert_eq by lia. done.
      * rewrite list_lookup_insert_ne by done.
        apply (Hcells i j' row); [lia|done|done].
    + rewrite list_lookup_insert_ne in Hrow' by done.
      apply (Hcells i' j' row'); [lia|done|done].
Qed.

Lemma fill_content_next_row n i st :
  (i < n)%nat → fill_content_inv n i n st → fill_content_inv n (S i) 0 st.
Proof.
  intros Hi. destruct st as [m ds].
  intros (Hds & Hcontent & Hm & Hrows & Hcells). cbn [fst snd] in *.
  split_and!; cbn [fst snd]; [done| |done|done|].
  - intros d diag Hd. rewrite (Hcontent _ _ Hd), remaining_next_row by done.
    f_equal. rewrite Nat.add_0_r.
    destruct (Nat.leb_spec (S i) d), (Nat.ltb_spec d (S i)); simpl; lia.
  - intros i' j' row Hbefore Hj' Hrow. apply (Hcells i' j' row); [lia|done|done].
Qed.

Lemma fill_loops_content n st :
  fill_content_inv n 0 0 st →
  ∃ st', for_each (seq 0 n) (λ i, for_each (seq 0 n) (λ j, cell_body i j)) st
         = Ok st' ∧ fill_content_inv n n 0 st'.
Proof.
  intros Hinv.
  apply (for_each_seq_inv (λ i, fill_content_inv n i 0) _ n 0 st Hinv).
  intros i st1 Hi Hinv1.
  destruct (for_each_seq_inv (λ j, fill_content_inv n i j) (λ j, cell_body i j)
              n 0 st1) as (st2 & Hst2 & Hinv2); [done| |].
  - intros j st2 Hj. apply cell_body_content; lia.
  - exists st2. split; [done|]. apply fill_content_next_row; [lia|done].
Qed.

(** X8: The matrix of [getZigZagMatrix n] holds, at row [i] and column [j], the
    rank of the cell on the zig-zag path: the number of cells on the
    anti-diagonals before its own, plus its place on its anti-diagonal,
    counted downwards on the odd anti-diagonals and upwards on the even
    ones. *)
Theorem getZigZagMatrix_cell (n i j : nat) :
  (i < n)%nat → (j < n)%nat →
  ∃ zigZagMatrix row,
    getZigZagMatrix n = Ok zigZagMatrix ∧
    zigZagMatrix !! i = Some row ∧
    row !! j = Some (Some (zigzag_value n i j)).
Proof.
  intros Hi Hj. unfold getZigZagMatrix.
  destruct (build_diagonals_content n) as (ds & -> & Hds & Hcontent); [lia|].
  cbn [mbind result_bind].
  destruct (fill_loops_content n (replicate n (replicate n (Some 0)), ds))
    as ([m ds'] & -> & _ & _ & Hm & _ & Hcells).
  { split_and!; cbn [fst snd]; [done| |by rewrite length_replicate| |].
    - intros d diagonal Hd. rewrite (Hcontent _ _ Hd). f_equal.
      rewrite Nat.add_0_r.
      destruct (Nat.leb_spec 0 d), (Nat.ltb_spec d 0); simpl; lia.
    - apply Forall_replicate. by rewrite length_replicate.
    - intros i' j' row Hbefore. lia. }
  cbn [mbind result_bind fst snd] in *.
  destruct (lookup_lt_is_Some_2 m i) as [row Hrow]; [lia|].
  exists m, row. split_and!; [done|done|].
  apply (Hcells i j row); [lia|done|done].
Qed.

Lemma getZigZagMatrix_cell_witness :
  ∃ zigZagMatrix row,
    getZigZagMatrix 4 = Ok zigZagMatrix ∧
    zigZagMatrix !! 1%nat = Some row ∧
    row !! 3%nat = Some (Some (zigzag_value 4 1 3)).
Proof. apply (getZigZagMatrix_cell 4 1 3); lia. Defined.

End getZigZagMatrix_cells.

Section createCompassPoints.
Import Katas1.

(** X9: [createCompassPoints] returns the 32 points of the compass clockwise
    from the north, each with its abbreviation, and the azimuth of the
    point at index [i] is [i] times 11.25 degrees. *)
Theorem createCompassPoints_table :
  abbreviation <$> createCompassPoints
  = u16 <$> [ "N"; "NbE"; "NNE"; "NEbN"; "NE"; "NEbE"; "ENE"; "EbN";
              "E"; "EbS"; "ESE"; "SEbE"; "SE"; "SEbS"; "SSE"; "SbE";
              "S"; "SbW"; "SSW"; "SWbS"; "SW"; "SWbW"; "WSW"; "WbS";
              "W"; "WbN"; "WNW"; "NWbW"; "NW"; "NWbN"; "NNW"; "NbW" ]%string ∧
  azimuth <$> createCompassPoints
  = (λ i : nat, Z.of_nat i * 1125) <$> seq 0 32.
Proof. split; vm_compute; reflexivity. Qed.

End createCompassPoints.

Section canDominoesMakeRow_more.
Import Katas1.

Implicit Types (row : gmap Z Z) (dominoes : list (Z * Z)).

Lemma foldl_permutation_comm {A B} (f : B → A → B) (l1 l2 : list A) :
  (∀ b x y, f (f b x) y = f (f b y) x) →
  l1 ≡ₚ l2 → ∀ b, foldl f b l1 = foldl f b l2.
Proof.
  intros Hcomm. induction 1 as [|x l1 l2 _ IH|x y l|l1 l2 l3 _ IH1 _ IH2];
    intros b; simpl.
  - done.
  - apply IH.
  - by rewrite Hcomm.
  - by rewrite IH1, IH2.
Qed.

Lemma addMove_add row domino count :
  addMove row domino count
  = <[domino := default 0 (row !! domino) + count]> row.
Proof.
  unfold addMove. f_equal. destruct (row !! domino) as [v|]; simpl; [|lia].
  case_bool_decide; lia.
Qed.

Lemma addMove_comm row x c y d :
  addMove (addMove row x c) y d = addMove (addMove row y d) x c.
Proof.
  rewrite !addMove_add. destruct (decide (x = y)) as [->|Hne].
  - rewrite !lookup_insert_eq, !insert_insert_eq. simpl. f_equal. lia.
  - rewrite !lookup_insert_ne by done. by apply insert_insert_ne.
Qed.

Lemma gameRow_permutation dominoes1 dominoes2 :
  dominoes1 ≡ₚ dominoes2 → gameRow dominoes1 = gameRow dominoes2.
Proof.
  intros Hperm. unfold gameRow. apply foldl_permutation_comm; [|done].
  intros row [a b] [c d]. cbn [fst snd].
  generalize (if bool_decide (a = b) then -1 else 1) as s.
  generalize (if bool_decide (c = d) then -1 else 1) as t. intros t s.
  rewrite (addMove_comm (addMove row a s) b s c t).
  rewrite (addMove_comm row a s c t).
  rewrite (addMove_comm (addMove (addMove row c t) a s) b s d t).
  by rewrite (addMove_comm (addMove row c t) a s d t).
Qed.

Lemma gameRow_oriented order placed :
  Forall2 oriented order placed → ∀ row,
  foldl (λ row domino,
           let leftSide := fst domino in
           let rightSide := snd domino in
           let shift := if bool_decide (leftSide = rightSide) then -1 else 1 in
           addMove (addMove row leftSide shift) rightSide shift) row order
  = foldl (λ row domino,
           let leftSide := fst domino in
           let rightSide := snd domino in
           let shift := if bool_decide (leftSide = rightSide) then -1 else 1 in
           addMove (addMove row leftSide shift) rightSide shift) row placed.
Proof.
  induction 1 as [|[a b] t order placed Ht _ IH]; intros row; [done|].
  cbn [foldl]. destruct Ht as [->| ->]; [apply IH|].
  cbn [fst snd]. rewrite <-IH. f_equal.
  rewrite (bool_decide_ext (b = a) (a = b)) by done.
  apply addMove_comm.
Qed.

(** X11: The answer of [canDominoesMakeRow] does not depend on the order of the
    tiles nor on the side a tile is given by: any [i, j] can stand for
    [j, i]. *)
Theorem canDominoesMakeRow_order_orientation (dominoes order placed : list (Z * Z)) :
  order ≡ₚ dominoes → Forall2 oriented order placed →
  canDominoesMakeRow placed = canDominoesMakeRow dominoes.
Proof.
  intros Hperm Horient. unfold canDominoesMakeRow.
  assert (gameRow placed = gameRow dominoes) as ->; [|done].
  rewrite <-(gameRow_permutation _ _ Hperm). unfold gameRow.
  symmetry. by apply gameRow_oriented.
Qed.

Lemma canDominoesMakeRow_order_orientation_witness :
  canDominoesMakeRow [(4, 2); (1, 3); (3, 2)]
  = canDominoesMakeRow [(1, 3); (2, 3); (2, 4)].
Proof.
  apply (canDominoesMakeRow_order_orientation
           [(1, 3); (2, 3); (2, 4)] [(2, 4); (1, 3); (2, 3)]
           [(4, 2); (1, 3); (3, 2)]).
  - apply (Permutation_cons_append [(1, 3); (2, 3)] (2, 4)).
  - repeat constructor; by right.
Defined.

End canDominoesMakeRow_more.

Section canDominoesMakeRow_rows.
Import Katas1.

Implicit Types (row : gmap Z Z) (dominoes : list (Z * Z)) (tile : Z * Z).

Lemma addMove_lookup row x c k :
  default 0 (addMove row x c !! k)
  = default 0 (row !! k) + (if bool_decide (x = k) then c else 0).
Proof.
  rewrite addMove_add. case_bool_decide as E.
  - subst. by rewrite lookup_insert_eq.
  - rewrite lookup_insert_ne by done. lia.
Qed.

(** What [gameRow] holds at [k]: one for each side [k] of a tile that is
    not a double, minus two for each double [k, k]. *)
Lemma gameRow_tally dominoes : ∀ row k,
  default 0 (foldl (λ row domino,
           let leftSide := fst domino in
           let rightSide := snd domino in
           let shift := if bool_decide (leftSide = rightSide) then -1 else 1 in
           addMove (addMove row leftSide shift) rightSide shift) row dominoes
             !! k)
  = default 0 (row !! k) + loose_sides k dominoes - 2 * doubles_of k dominoes.
Proof.
  induction dominoes as [|[a b] dominoes IH]; intros row k.
  - simpl. lia.
  - cbn [foldl]. rewrite IH. cbn [fst snd loose_sides doubles_of foldr].
    rewrite !addMove_lookup.
    fold (loose_sides k dominoes). fold (doubles_of k dominoes).
    repeat case_bool_decide; lia.
Qed.

Lemma gameRow_lookup dominoes k v :
  gameRow dominoes !! k = Some v →
  v = loose_sides k dominoes - 2 * doubles_of k dominoes.
Proof.
  intros Hk. pose proof (gameRow_tally dominoes ∅ k) as H.
  change (default 0 (gameRow dominoes !! k)
          = default 0 ((∅ : gmap Z Z) !! k) + loose_sides k dominoes
            - 2 * doubles_of k dominoes) in H.
  rewrite Hk, lookup_empty in H. simpl in H. lia.
Qed.

Lemma loose_sides_cons k tile dominoes :
  loose_sides k (tile :: dominoes)
  = (if bool_decide (fst tile = snd tile) then 0
     else (if bool_decide (fst tile = k) then 1 else 0)
          + (if bool_decide (snd tile = k) then 1 else 0))
    + loose_sides k dominoes.
Proof. done. Qed.

Lemma doubles_of_cons k tile dominoes :
  doubles_of k (tile :: dominoes)
  = (if bool_decide (fst tile = k ∧ snd tile = k) then 1 else 0)
    + doubles_of k dominoes.
Proof. done. Qed.

Lemma loose_sides_nonneg k dominoes : 0 ≤ loose_sides k dominoes.
Proof.
  induction dominoes as [|tile dominoes IH]; [done|].
  rewrite loose_sides_cons. repeat case_bool_decide; lia.
Qed.

Lemma doubles_of_doubles k dominoes :
  0 ≤ doubles_of k dominoes ∧
  (doubles_of k dominoes ≠ 0 → (k, k) ∈ doubles dominoes).
Proof.
  induction dominoes as [|[a b] dominoes [IH1 IH2]]; [done|].
  rewrite doubles_of_cons. cbn [fst snd]. unfold doubles in *.
  case_bool_decide as E.
  - destruct E as [-> ->]. split; [lia|]. intros _.
    rewrite filter_cons_True by done. apply list_elem_of_here.
  - split; [lia|]. intros H. apply list_elem_of_filter. split; [done|].
    apply list_elem_of_further.
    assert ((k, k) ∈ filter (λ tile, fst tile = snd tile) dominoes) as Hin
      by (apply IH2; lia).
    by apply list_elem_of_filter in Hin as [_ ?].
Qed.

Lemma doubles_cons_NoDup tile dominoes :
  NoDup (doubles (tile :: dominoes)) → NoDup (doubles dominoes).
Proof.
  unfold doubles. destruct (decide (fst tile = snd tile)) as [E|E].
  - rewrite filter_cons_True by done. by intros [_ ?]%NoDup_cons.
  - by rewrite filter_cons_False by done.
Qed.

Lemma doubles_of_NoDup k dominoes :
  NoDup (doubles dominoes) → doubles_of k dominoes ≤ 1.
Proof.
  induction dominoes as [|[a b] dominoes IH]; intros Hnd; [done|].
  rewrite doubles_of_cons. cbn [fst snd].
  specialize (IH (doubles_cons_NoDup _ _ Hnd)).
  case_bool_decide as E; [|lia]. destruct E as [-> ->].
  unfold doubles in Hnd. rewrite filter_cons_True in Hnd by done.
  apply NoDup_cons in Hnd as [Hnotin _].
  destruct (doubles_of_doubles k dominoes) as [_ Hin].
  destruct (decide (doubles_of k dominoes = 0)) as [->|Hne]; [lia|].
  by destruct Hnotin; apply Hin.
Qed.

(** In a row the sides of the tiles that are not doubles pair up, except
    for the first and the last side of the row. *)
Lemma row_parity rest : ∀ tile k,
  is_row (tile :: rest) →
  ∃ q, loose_sides k (tile :: rest)
       = (if bool_decide (fst tile = k) then 1 else 0)
         + (if bool_decide (row_end (snd tile) rest = k) then 1 else 0)
         + 2 * q.
Proof.
  induction rest as [|next rest IH]; intros [a b] k Hrow.
  - rewrite loose_sides_cons. cbn [fst snd row_end loose_sides foldr].
    repeat case_bool_decide; subst;
      first [by exists 0; lia | by exists (-1); lia | lia | congruence].
  - destruct Hrow as [Hab Hrow]. cbn [fst snd] in Hab. subst b.
    destruct (IH next k Hrow) as [q Hq].
    rewrite loose_sides_cons, Hq. cbn [fst snd row_end].
    repeat case_bool_decide; subst;
      first [by exists q; lia | by exists (q + 1); lia
            | by exists (q - 1); lia | lia | congruence].
Qed.

(** A double inside a row of two tiles or more, no double of which occurs
    twice, has a neighbour that is not a double. *)
Lemma row_double_neighbour rest : ∀ tile k,
  is_row (tile :: rest) → NoDup (doubles (tile :: rest)) →
  (k, k) ∈ tile :: rest → rest ≠ [] →
  1 ≤ loose_sides k (tile :: rest).
Proof.
  induction rest as [|next rest IH]; intros [a b] k Hrow Hnd Hin Hne; [done|].
  destruct Hrow as [Hab Hrow]. cbn [fst snd] in Hab. subst b.
  destruct next as [c d]. cbn [fst] in *.
  rewrite loose_sides_cons. cbn [fst snd].
  apply elem_of_cons in Hin as [Hin|Hin].
  - injection Hin as <- <-.
    rewrite bool_decide_true by done. rewrite loose_sides_cons. cbn [fst snd].
    pose proof (loose_sides_nonneg k rest).
    unfold doubles in Hnd. rewrite filter_cons_True in Hnd by done.
    apply NoDup_cons in Hnd as [Hnotin _].
    case_bool_decide as E.
    + subst d. destruct Hnotin. rewrite filter_cons_True by done.
      apply list_elem_of_here.
    + rewrite (bool_decide_true (k = k)) by done. case_bool_decide; lia.
  - destruct rest as [|next' rest].
    + apply list_elem_of_singleton in Hin. injection Hin as <- <-.
      cbn [loose_sides foldr fst snd].
      case_bool_decide as E.
      * subst a. unfold doubles in Hnd.
        rewrite !filter_cons_True in Hnd by done.
        apply NoDup_cons in Hnd as [Hnotin _]. destruct Hnotin.
        apply list_elem_of_here.
      * rewrite (bool_decide_true (k = k)) by done.
        repeat case_bool_decide; lia.
    + assert (1 ≤ loose_sides k ((c, d) :: next' :: rest)) as H.
      { apply IH; [done|by apply doubles_cons_NoDup in Hnd|done|done]. }
      repeat case_bool_decide; lia.
Qed.

(** The values at which [gameRow] of a row is negative or odd are among
    the first and the last side of the row. *)
Lemma row_odd_ends tile rest k :
  is_row (tile :: rest) → NoDup (doubles (tile :: rest)) →
  let val := loose_sides k (tile :: rest) - 2 * doubles_of k (tile :: rest) in
  val < 0 ∨ Z.rem val 2 ≠ 0 →
  k = fst tile ∨ k = row_end (snd tile) rest.
Proof.
  intros Hrow Hnd val Hbad.
  destruct (decide (k = fst tile)) as [|Hfst]; [by left|].
  destruct (decide (k = row_end (snd tile) rest)) as [|Hend]; [by right|].
  exfalso. destruct (row_parity rest tile k Hrow) as [q Hq].
  rewrite !bool_decide_false in Hq by done.
  pose proof (doubles_of_NoDup k _ Hnd) as Hle.
  destruct (doubles_of_doubles k (tile :: rest)) as [Hge Hin].
  pose proof (loose_sides_nonneg k (tile :: rest)) as Hnn.
  destruct Hbad as [Hneg|Hodd].
  - assert (doubles_of k (tile :: rest) ≠ 0) as Hd by (unfold val in Hneg; lia).
    apply Hin in Hd. apply list_elem_of_filter in Hd as [_ Hd].
    destruct rest as [|next rest].
    + apply list_elem_of_singleton in Hd. subst tile. by destruct Hfst.
    + pose proof (row_double_neighbour _ _ _ Hrow Hnd Hd ltac:(done)) as H.
      unfold val in Hneg. lia.
  - apply Hodd. unfold val. rewrite Hq.
    replace (0 + 0 + 2 * q - 2 * doubles_of k (tile :: rest))
      with ((q - doubles_of k (tile :: rest)) * 2) by lia.
    by apply Z.rem_mul.
Qed.

Lemma nonPairSide_count (vals : list Z) : ∀ acc,
  foldl (λ acc val,
           if bool_decide (val < 0) || bool_decide (Z.rem val 2 ≠ 0)
           then acc + 1 else acc) acc vals
  = acc + Z.of_nat (length (filter (λ val, val < 0 ∨ Z.rem val 2 ≠ 0) vals)).
Proof.
  induction vals as [|val vals IH]; intros acc; [simpl; lia|].
  cbn [foldl]. rewrite IH.
  destruct (decide (val < 0 ∨ Z.rem val 2 ≠ 0)) as [Hbad|Hok].
  - rewrite filter_cons_True by done.
    replace (bool_decide (val < 0) || bool_decide (Z.rem val 2 ≠ 0))
      with true; [simpl; lia|].
    symmetry. apply orb_true_iff.
    destruct Hbad; [left|right]; by apply bool_decide_eq_true.
  - rewrite filter_cons_False by done.
    replace (bool_decide (val < 0) || bool_decide (Z.rem val 2 ≠ 0))
      with false; [done|].
    symmetry. apply orb_false_iff.
    split; apply bool_decide_eq_false; tauto.
Qed.

Lemma length_filter_snd (P : Z → Prop) `{!∀ x, Decision (P x)}
    (kvs : list (Z * Z)) :
  length (filter P (snd <$> kvs)) = length (filter (λ kv, P (snd kv)) kvs).
Proof.
  induction kvs as [|kv kvs IH]; [done|]. rewrite fmap_cons.
  destruct (decide (P (snd kv))).
  - rewrite !filter_cons_True by done. simpl. by rewrite IH.
  - by rewrite !filter_cons_False by done.
Qed.

(** Fewer than three values are counted when those counted are all at one
    of two indices. *)
Lemma nonPairSide_two_ends (a b : Z) row :
  (∀ k val, row !! k = Some val → val < 0 ∨ Z.rem val 2 ≠ 0 → k = a ∨ k = b) →
  foldl (λ acc val,
           if bool_decide (val < 0) || bool_decide (Z.rem val 2 ≠ 0)
           then acc + 1 else acc) 0 (elements row) < 3.
Proof.
  intros Hends. rewrite nonPairSide_count. unfold elements.
  rewrite length_filter_snd.
  set (kvs := filter (λ kv, snd kv < 0 ∨ Z.rem (snd kv) 2 ≠ 0)
                (filter (λ kv, is_index (fst kv) = true) (map_to_list row))).
  assert (kvs `sublist_of` map_to_list row) as Hsub.
  { unfold kvs. etrans; apply sublist_filter. }
  assert (fst <$> kvs ⊆+ [a; b]) as Hle.
  { apply NoDup_submseteq.
    - assert (fst <$> kvs `sublist_of` fst <$> map_to_list row) as Hfst
        by (by apply fmap_sublist).
      exact (sublist_NoDup _ _ (NoDup_fst_map_to_list row) Hfst).
    - intros k [[k' val] [-> Hin]]%list_elem_of_fmap. cbn [fst].
      unfold kvs in Hin. apply list_elem_of_filter in Hin as [Hbad Hin].
      apply list_elem_of_filter in Hin as [_ Hin].
      apply elem_of_map_to_list in Hin.
      destruct (Hends _ _ Hin Hbad) as [Hk|Hk]; rewrite Hk;
        [apply list_elem_of_here|apply list_elem_of_further, list_elem_of_here]. }
  apply submseteq_length in Hle. rewrite length_fmap in Hle. simpl in Hle. lia.
Qed.

Lemma doubles_oriented order placed :
  Forall2 oriented order placed → doubles placed = doubles order.
Proof.
  unfold doubles. induction 1 as [|[a b] t order placed Ht _ IH]; [done|].
  destruct Ht as [->| ->]; [|cbn [fst snd]].
  - destruct (decide (a = b)).
    + by rewrite !filter_cons_True, IH by done.
    + by rewrite !filter_cons_False, IH by done.
  - destruct (decide (a = b)) as [->|].
    + by rewrite !filter_cons_True, IH by done.
    + rewrite !filter_cons_False, IH; [done|simpl; congruence|simpl; congruence].
Qed.

(** X12: Tiles that can be placed in a row, and among which no double occurs
    twice, are accepted: [canDominoesMakeRow] returns true for them. *)
Theorem canDominoesMakeRow_accepts_rows (dominoes : list (Z * Z)) :
  NoDup (doubles dominoes) → can_be_placed_in_row dominoes →
  canDominoesMakeRow dominoes = true.
Proof.
  intros Hnd (order & placed & Hperm & Horient & Hrow).
  assert (gameRow dominoes = gameRow placed) as Hsame.
  { rewrite <-(gameRow_permutation _ _ Hperm). unfold gameRow.
    by apply gameRow_oriented. }
  assert (NoDup (doubles placed)) as Hnd'.
  { rewrite (doubles_oriented _ _ Horient). unfold doubles in *.
    by rewrite Hperm. }
  unfold canDominoesMakeRow. rewrite Hsame. apply bool_decide_eq_true.
  destruct placed as [|tile rest].
  - apply (nonPairSide_two_ends 0 0). intros k val Hk.
    change (gameRow []) with (∅ : gmap Z Z) in Hk. by rewrite lookup_empty in Hk.
  - apply (nonPairSide_two_ends (fst tile) (row_end (snd tile) rest)).
    intros k val Hk Hbad. apply gameRow_lookup in Hk. subst val.
    by apply (row_odd_ends tile rest k).
Qed.

Lemma canDominoesMakeRow_accepts_rows_witness :
  canDominoesMakeRow [(1, 1); (2, 2); (1, 2)] = true.
Proof.
  apply (canDominoesMakeRow_accepts_rows [(1, 1); (2, 2); (1, 2)]).
  - change (NoDup [(1, 1); (2, 2)]).
    apply NoDup_cons. split; [|apply NoDup_singleton].
    intros H%list_elem_of_singleton. discriminate H.
  - exists [(1, 1); (1, 2); (2, 2)], [(1, 1); (1, 2); (2, 2)].
    split; [|split].
    + apply perm_skip, perm_swap.
    + repeat constructor; by left.
    + simpl. done.
Defined.

End canDominoesMakeRow_rows.

Section addPoints.
Import Katas1.

Lemma concat_imap_pairs {A} (l : list A) : ∀ (f g : nat → A → A) (i : nat),
  length (concat (imap (λ idx x, [f idx x; g idx x]) l)) = (2 * length l)%nat ∧
  concat (imap (λ idx x, [f idx x; g idx x]) l) !! (2 * i)%nat
  = f i <$> l !! i ∧
  concat (imap (λ idx x, [f idx x; g idx x]) l) !! (2 * i + 1)%nat
  = g i <$> l !! i.
Proof.
  induction l as [|x l IH]; intros f g i; [done|].
  rewrite imap_cons.
  change (imap ((λ idx x, [f idx x; g idx x]) ∘ S) l)
    with (imap (λ idx x, [(f ∘ S) idx x; (g ∘ S) idx x]) l).
  destruct (IH (f ∘ S) (g ∘ S) (pred i)) as (Hlen & Heven & Hodd).
  cbn [concat app length]. split; [rewrite Hlen; lia|].
  destruct i as [|i]; [done|].
  replace (2 * S i)%nat with (S (S (2 * i))) by lia.
  replace (S (S (2 * i)) + 1)%nat with (S (S (2 * i + 1))) by lia.
  cbn [lookup list_lookup pred] in *. split; [apply Heven|apply Hodd].
Qed.

(** X10: Each level of points keeps the points of the level before it, at the
    even indices, and puts after each of them the point between it and the
    next one, the first point being next to the last. *)
Theorem addPoints_between (points : list jsstring)
    (getPoint : jsstring → jsstring → jsstring) (idx : nat) :
  (idx < length points)%nat →
  length (addPoints points getPoint) = (2 * length points)%nat ∧
  addPoints points getPoint !! (2 * idx)%nat = points !! idx ∧
  addPoints points getPoint !! (2 * idx + 1)%nat
  = Some (if Nat.even idx
          then getPoint (point_at points idx)
                 (point_at points (S idx mod length points))
          else getPoint (point_at points (S idx mod length points))
                 (point_at points idx)).
Proof.
  intros Hidx. unfold addPoints.
  destruct (concat_imap_pairs points (λ _ dir, dir)
              (λ idx _, getDirection points idx (idx + 1) getPoint) idx)
    as (Hlen & Heven & Hodd).
  split; [done|]. split.
  - rewrite Heven. by destruct (points !! idx).
  - rewrite Hodd. destruct (lookup_lt_is_Some_2 points idx Hidx) as [dir ->].
    cbn [fmap option_fmap option_map]. f_equal. unfold getDirection.
    replace (idx + 1)%nat with (S idx) by lia.
    destruct (Nat.even idx) eqn:E.
    + apply Nat.even_spec in E as [k ->].
      replace ((2 * k) mod 2)%nat with 0%nat; [done|].
      symmetry. rewrite Nat.mul_comm. apply Nat.Div0.mod_mul.
    + assert (Nat.odd idx = true) as [k ->]%Nat.odd_spec
        by (by rewrite <-Nat.negb_even, E).
      replace ((2 * k + 1) mod 2)%nat with 1%nat; [done|].
      symmetry. rewrite Nat.add_comm, Nat.mul_comm, Nat.Div0.mod_add. done.
Qed.

Lemma addPoints_between_witness :
  length (addPoints sides getCommonPoint) = (2 * length sides)%nat ∧
  addPoints sides getCommonPoint !! (2 * 3)%nat = sides !! 3%nat ∧
  addPoints sides getCommonPoint !! (2 * 3 + 1)%nat
  = Some (if Nat.even 3
          then getCommonPoint (point_at sides 3)
                 (point_at sides (4 mod length sides))
          else getCommonPoint (point_at sides (4 mod length sides))
                 (point_at sides 3)).
Proof. apply (addPoints_between sides getCommonPoint 3). simpl. lia. Defined.

End addPoints.

(** * More properties of 11-katas-2-tasks.js *)

Section wrapText_more.
Import Katas2.

Implicit Types (s w text : jsstring).

Lemma match_all_no_word columns s : words s = [] → match_all columns 0 s = [].
Proof.
  induction s as [|c s IH]; [done|]. intros Hwords.
  cbn [match_all match_at]. destruct (is_space c) eqn:Hc.
  - apply IH. by rewrite words_cons_space in Hwords.
  - destruct (first_word c s Hc) as (w & rest & _ & _ & _ & Hfirst).
    by rewrite Hfirst in Hwords.
Qed.

(** X13: A text without a word, empty or of whitespace only, makes [wrapText]
    throw: [match] returns [null], which the loop cannot iterate (and for 0
    columns the pattern is refused before that). *)
Theorem wrapText_no_word (text : jsstring) (columns : nat) :
  words text = [] →
  wrapText text columns
  = Throw (if bool_decide (columns = 0%nat) then SyntaxError else TypeError).
Proof.
  intros Hwords. unfold wrapText. case_bool_decide; [done|].
  by rewrite match_all_no_word.
Qed.

Lemma wrapText_no_word_witness :
  wrapText (u16 "   ") 10
  = Throw (if bool_decide (10%nat = 0%nat) then SyntaxError else TypeError).
Proof. apply (wrapText_no_word (u16 "   ") 10). vm_compute. reflexivity. Defined.

Lemma dot_run_all max s :
  Forall (λ c, is_dot c = true) s → dot_run max s = Nat.min max (length s).
Proof.
  intros Hs. revert max. induction Hs as [|c s Hc _ IH]; intros [|max]; simpl;
    try done.
  by rewrite Hc, IH.
Qed.

Lemma backtrack_here k s :
  (1 ≤ k)%nat → lookahead_end (drop k s) = true → backtrack k s = Some k.
Proof. intros Hk Hend. destruct k as [|k]; [lia|]. simpl. by rewrite Hend. Qed.

Lemma backtrack_none k s :
  (∀ j, (1 ≤ j ≤ k)%nat → lookahead_end (drop j s) = false) →
  backtrack k s = None.
Proof.
  induction k as [|k IH]; intros Hall; [done|]. simpl.
  rewrite (Hall (S k)) by lia. apply IH. intros j Hj. apply Hall. lia.
Qed.

(** X14: A text that starts with a character that is not whitespace, has no line
    terminator and is no longer than [columns] is yielded as it is, as the
    only line. *)
Theorem wrapText_fits (c : N) (r : jsstring) (columns : nat) :
  is_space c = false → Forall (λ x, is_dot x = true) r →
  (length (c :: r) ≤ columns)%nat →
  wrapText (c :: r) columns = Ok [c :: r].
Proof.
  intros Hc Hr Hlen. unfold wrapText.
  rewrite bool_decide_eq_false_2 by (simpl in Hlen; lia).
  cbn [match_all match_at]. rewrite Hc.
  rewrite dot_run_all by (constructor; [by apply is_space_is_dot|done]).
  rewrite Nat.min_r by done.
  rewrite backtrack_here;
    [|simpl; lia|by rewrite drop_all].
  rewrite firstn_all, match_all_skip.
  cbn [length]. rewrite Nat.sub_succ, Nat.sub_0_r, drop_all. done.
Qed.

Lemma wrapText_fits_witness :
  wrapText (116%N :: u16 "wo  words ") 12 = Ok [116%N :: u16 "wo  words "].
Proof.
  apply (wrapText_fits 116%N (u16 "wo  words ") 12).
  - reflexivity.
  - vm_compute. repeat constructor.
  - simpl. lia.
Defined.

Lemma match_all_long_word columns w :
  (1 ≤ columns)%nat → Forall (λ x, is_space x = false) w →
  (columns ≤ length w)%nat →
  match_all columns 0 w = [drop (length w - columns) w].
Proof.
  intros Hcol Hw. induction Hw as [|c w Hc Hw IH]; intros Hlen;
    [simpl in Hlen; lia|].
  assert (Forall (λ x, is_dot x = true) (c :: w)) as Hdot.
  { constructor; [by apply is_space_is_dot|].
    eapply Forall_impl; [done|]. apply is_space_is_dot. }
  cbn [match_all match_at]. rewrite Hc, dot_run_all by done.
  rewrite Nat.min_l by done.
  destruct (decide (length (c :: w) = columns)) as [Heq|Hne].
  - rewrite backtrack_here; [|done|by rewrite <-Heq, drop_all].
    rewrite <-Heq, firstn_all, match_all_skip, Nat.sub_diag.
    cbn [length]. rewrite Nat.sub_succ, Nat.sub_0_r, drop_all. done.
  - rewrite backtrack_none.
    + rewrite IH by (simpl in *; lia).
      replace (length (c :: w) - columns)%nat with (S (length w - columns))
        by (simpl in *; lia).
      done.
    + intros j Hj.
      destruct (drop j (c :: w)) as [|x rest] eqn:Hdrop.
      * apply (f_equal length) in Hdrop. rewrite length_drop in Hdrop.
        simpl in *. lia.
      * simpl.
        assert (x ∈ c :: w) as Hx.
        { eapply (subseteq_drop j). rewrite Hdrop. by left. }
        pose proof (Forall_cons_2 _ _ _ Hc Hw) as Hall.
        rewrite Forall_forall in Hall. by apply Hall.
Qed.

(** X15: A text of one word that is longer than [columns] loses its first
    characters: the only line yielded is made of its last [columns]
    characters. *)
Theorem wrapText_long_word (w : jsstring) (columns : nat) :
  (1 ≤ columns)%nat → Forall (λ x, is_space x = false) w →
  (columns < length w)%nat →
  wrapText w columns = Ok [drop (length w - columns) w].
Proof.
  intros Hcol Hw Hlen. unfold wrapText.
  rewrite bool_decide_eq_false_2 by lia.
  rewrite match_all_long_word by (done || lia). done.
Qed.

Lemma wrapText_long_word_witness :
  wrapText (u16 "constructor") 4 = Ok [drop (length (u16 "constructor") - 4) (u16 "constructor")].
Proof.
  apply (wrapText_long_word (u16 "constructor") 4).
  - lia.
  - vm_compute. repeat constructor.
  - vm_compute. lia.
Defined.

End wrapText_more.

Section wrapText_words.
Import Katas2.

Implicit Types (s w line text : jsstring) (ws : list jsstring).

Lemma dot_run_prefix max line rest :
  Forall (λ x, is_dot x = true) line → (length line ≤ max)%nat →
  (length line ≤ dot_run max (line ++ rest))%nat.
Proof.
  intros Hline. revert max.
  induction Hline as [|c line Hc _ IH]; intros max Hlen; simpl in *; [lia|].
  destruct max as [|max]; [lia|]. simpl. rewrite Hc. specialize (IH max). lia.
Qed.

Lemma backtrack_last k s j :
  (1 ≤ j ≤ k)%nat → lookahead_end (drop j s) = true →
  (∀ i, (j < i ≤ k)%nat → lookahead_end (drop i s) = false) →
  backtrack k s = Some j.
Proof.
  induction k as [|k IH]; intros Hj Hend Hafter; [lia|]. simpl.
  destruct (decide (j = S k)) as [->|Hne]; [by rewrite Hend|].
  rewrite Hafter by lia. apply IH; [lia|done|]. intros i Hi. apply Hafter. lia.
Qed.

(** The match at a line that ends before whitespace or at the end of the
    text, when no later position within reach does. *)
Lemma match_all_line columns c r rest :
  is_space c = false → Forall (λ x, is_dot x = true) r →
  (length (c :: r) ≤ columns)%nat → lookahead_end rest = true →
  (∀ i, (length (c :: r) < i ≤ columns)%nat → (i ≤ length (c :: r ++ rest))%nat →
        lookahead_end (drop i (c :: r ++ rest)) = false) →
  match_all columns 0 (c :: r ++ rest)
  = (c :: r) :: match_all columns 0 rest.
Proof.
  intros Hc Hr Hlen Hrest Hafter.
  cbn [match_all match_at]. rewrite Hc.
  pose proof (dot_run_le columns (c :: r ++ rest)) as [Hmax Hs].
  assert (length (c :: r) ≤ dot_run columns ((c :: r) ++ rest))%nat as Hrun.
  { apply dot_run_prefix; [|done].
    constructor; [by apply is_space_is_dot|done]. }
  change ((c :: r) ++ rest) with (c :: r ++ rest) in Hrun.
  rewrite (backtrack_last _ _ (length (c :: r))).
  - rewrite match_all_skip. cbn [length]. rewrite Nat.sub_succ, Nat.sub_0_r.
    cbn [take]. by rewrite take_app_length, drop_app_length.
  - split; [simpl; lia|done].
  - change (c :: r ++ rest) with ((c :: r) ++ rest).
    by rewrite drop_app_length.
  - intros i Hi. apply Hafter; lia.
Qed.

Lemma match_all_space columns c s :
  is_space c = true → match_all columns 0 (c :: s) = match_all columns 0 s.
Proof. intros Hc. cbn [match_all match_at]. by rewrite Hc. Qed.

Lemma join_space_cons w ws :
  join [SPACE] (w :: ws) = w ++ concat ((λ w, SPACE :: w) <$> ws).
Proof.
  revert w. induction ws as [|w' ws IH]; intros w.
  - simpl. by rewrite app_nil_r.
  - rewrite join_cons_cons, IH. done.
Qed.

Lemma match_all_fill_lines columns ws : ∀ c r,
  is_space c = false → Forall (λ x, is_dot x = true) r →
  (length (c :: r) ≤ columns)%nat →
  Forall is_word ws → Forall (λ w, (length w ≤ columns)%nat) ws →
  match_all columns 0 (c :: r ++ concat ((λ w, SPACE :: w) <$> ws))
  = fill_lines columns (c :: r) ws.
Proof.
  induction ws as [|w ws IH]; intros c r Hc Hr Hlen Hws Hlens.
  - cbn [fmap list_fmap concat fill_lines].
    rewrite match_all_line; [done..|].
    intros i Hi Hi'. rewrite app_nil_r in Hi'. lia.
  - apply Forall_cons in Hws as [[Hne Hw] Hws].
    apply Forall_cons in Hlens as [Hwlen Hlens].
    destruct w as [|d w]; [done|]. apply Forall_cons in Hw as [Hd Hw].
    rewrite fmap_cons. cbn [concat fill_lines].
    destruct (Nat.leb_spec (length (c :: r) + 1 + length (d :: w)) columns)
      as [Hfit|Hover].
    + change ((c :: r) ++ SPACE :: d :: w) with (c :: r ++ SPACE :: d :: w).
      rewrite <-(IH c (r ++ SPACE :: d :: w)); [|done| |by rewrite length_cons, length_app in *; simpl in *; lia|done|done].
      * by rewrite <-!app_assoc.
      * apply Forall_app. split; [done|]. constructor; [done|].
        constructor; [by apply is_space_is_dot|].
        eapply Forall_impl; [exact Hw|]. intros x. apply is_space_is_dot.
    + rewrite match_all_line; [|done..| |].
      * rewrite <-app_comm_cons, match_all_space by done.
        f_equal. rewrite <-app_comm_cons. apply IH; [done| |done..].
        eapply Forall_impl; [exact Hw|]. intros x. apply is_space_is_dot.
      * done.
      * intros i Hi _.
        change (c :: r ++ (SPACE :: d :: w) ++ concat ((λ w, SPACE :: w) <$> ws))
          with ((c :: r) ++ SPACE :: (d :: w) ++ concat ((λ w, SPACE :: w) <$> ws)).
        replace i with (length (c :: r) + S (i - length (c :: r) - 1))%nat by lia.
        rewrite drop_app_add. cbn [drop].
        assert (i - length (c :: r) - 1 < length (d :: w))%nat as Hin by lia.
        rewrite drop_app_le by lia.
        destruct (drop (i - length (c :: r) - 1) (d :: w)) as [|x tl] eqn:E.
        { apply (f_equal length) in E. rewrite length_drop in E. simpl in E.
          simpl in Hin. lia. }
        cbn [app lookahead_end].
        assert (x ∈ d :: w) as Hx.
        { apply (subseteq_drop (i - length (c :: r) - 1)). rewrite E.
          apply list_elem_of_here. }
        assert (Forall (λ c, is_space c = false) (d :: w)) as Hdw
          by by constructor.
        by apply (proj1 (Forall_forall _ _) Hdw).
Qed.

Lemma fill_lines_not_nil columns ws : ∀ line, fill_lines columns line ws ≠ [].
Proof.
  induction ws as [|w ws IH]; intros line; cbn [fill_lines]; [done|].
  destruct (_ <=? _)%nat; [apply IH|done].
Qed.

(** X16: On words separated by single spaces, none longer than [columns],
    [wrapText] fills the lines first-fit: each line takes the next word as
    long as the line stays within [columns]. *)
Theorem wrapText_first_fit (ws : list jsstring) (columns : nat) :
  ws ≠ [] → Forall is_word ws → Forall (λ w, (length w ≤ columns)%nat) ws →
  wrapText (join [SPACE] ws) columns = Ok (first_fit columns ws).
Proof.
  intros Hne Hws Hlens. destruct ws as [|w ws]; [done|].
  pose proof Hws as Hws'. pose proof Hlens as Hlens'.
  apply Forall_cons in Hws' as [[Hw Hchars] Hws'].
  apply Forall_cons in Hlens' as [Hlen Hlens'].
  destruct w as [|c r]; [done|]. apply Forall_cons in Hchars as [Hc Hr].
  unfold wrapText. rewrite bool_decide_eq_false_2 by (simpl in Hlen; lia).
  rewrite join_space_cons. rewrite <-app_comm_cons.
  rewrite match_all_fill_lines; [|done| |done..].
  - cbn [first_fit].
    by destruct (fill_lines columns (c :: r) ws) eqn:E;
      [apply fill_lines_not_nil in E|].
  - eapply Forall_impl; [exact Hr|]. intros x. apply is_space_is_dot.
Qed.

Lemma wrapText_first_fit_witness :
  wrapText (join [SPACE] (u16 <$> ["or"; "a"; "sequence"; "of"]%string)) 8
  = Ok (first_fit 8 (u16 <$> ["or"; "a"; "sequence"; "of"]%string)).
Proof.
  apply (wrapText_first_fit (u16 <$> ["or"; "a"; "sequence"; "of"]%string) 8).
  - discriminate.
  - vm_compute. repeat constructor; discriminate.
  - vm_compute. repeat constructor.
Defined.

End wrapText_words.

Section parseBankAccount_more.
Import Katas2.

Implicit Types (acc chunks : list jsstring) (ds : list nat).

Lemma length_add_at acc idx subline :
  (length acc ≤ length (add_at acc idx subline))%nat.
Proof.
  revert idx. induction acc as [|x acc IH]; intros idx; simpl; [lia|].
  destruct idx; simpl; [lia|]. specialize (IH idx). lia.
Qed.

Lemma length_add_line line : ∀ acc idx,
  (length acc ≤ length (add_line acc idx line))%nat.
Proof.
  induction line as [|subline line IH]; intros acc idx; simpl; [lia|].
  pose proof (length_add_at acc idx subline).
  specialize (IH (add_at acc idx subline) (S idx)). lia.
Qed.

Lemma length_glyphs bankAccount : (9 ≤ length (glyphs bankAccount))%nat.
Proof.
  unfold glyphs.
  generalize ((λ line, filter_Boolean (split_chunks [] line))
                <$> split LF bankAccount) as lines.
  assert (9 ≤ length (replicate 9 ([] : jsstring)))%nat as Hacc by (simpl; lia).
  revert Hacc. generalize (replicate 9 ([] : jsstring)) as acc.
  intros acc Hacc lines. revert acc Hacc.
  induction lines as [|line lines IH]; intros acc Hacc; simpl; [done|].
  apply IH. pose proof (length_add_line line acc 0). lia.
Qed.

Lemma indexOf_from_not_elem_of {A} `{EqDecision A} (l : list A) (x : A) (i : Z) :
  x ∉ l → indexOf_from i x l = -1.
Proof.
  revert i. induction l as [|y l IH]; intros i Hx; simpl; [done|].
  apply not_elem_of_cons in Hx as [Hne Hx].
  destruct (decide (y = x)); [congruence|]. by apply IH.
Qed.

(** X17: Whatever the string, [parseBankAccount] returns a number and does not
    throw: there are always nine glyphs at least, and a glyph that is not in
    the table counts as the digit -1. *)
Theorem parseBankAccount_never_throws (bankAccount : jsstring) :
  (9 ≤ length (digits bankAccount))%nat ∧
  (∃ v, parseBankAccount bankAccount = Ok v) ∧
  Forall2 (λ g d, (g ∉ nums → d = -1) ∧ (g ∈ nums → 0 ≤ d ≤ 9))
    (glyphs bankAccount) (digits bankAccount).
Proof.
  pose proof (length_glyphs bankAccount) as Hlen.
  unfold parseBankAccount, digits. rewrite length_fmap. split_and!; [done| |].
  - destruct (glyphs bankAccount) as [|g gs]; [simpl in Hlen; lia|].
    rewrite fmap_cons. by eexists.
  - apply Forall2_fmap_r, Forall_Forall2_diag, Forall_forall. intros g _. split.
    + intros Hg. by apply indexOf_from_not_elem_of.
    + intros Hg. pose proof (indexOf_nums_bounds g).
      pose proof (indexOf_from_elem_of nums g 0 Hg). unfold indexOf in *. lia.
Qed.

(** *** Writing an account number and reading it back *)

Lemma glyph_row_spec k d :
  (k < 3)%nat → (d < 10)%nat →
  ∃ a b c, glyph_row k d = [a; b; c] ∧
           is_dot a = true ∧ is_dot b = true ∧ is_dot c = true ∧
           a ≠ LF ∧ b ≠ LF ∧ c ≠ LF.
Proof.
  intros Hk Hd.
  destruct k as [|[|[|k]]]; [| | |lia];
    (destruct d as [|[|[|[|[|[|[|[|[|[|d]]]]]]]]]]; [..|lia]);
    eexists _, _, _; (split; [vm_compute; reflexivity|]);
    by repeat split.
Qed.

Lemma glyph_rows_glyph d :
  (d < 10)%nat →
  glyph_row 0 d ++ glyph_row 1 d ++ glyph_row 2 d = nth d nums [] ∧
  indexOf nums (nth d nums []) = Z.of_nat d.
Proof.
  intros Hd.
  destruct d as [|[|[|[|[|[|[|[|[|[|d]]]]]]]]]]; [..|lia]; by vm_compute.
Qed.

Lemma split_chunks_concat chunks :
  Forall (λ ch, ∃ a b c, ch = [a; b; c] ∧ is_dot a = true ∧ is_dot b = true
                        ∧ is_dot c = true) chunks →
  filter_Boolean (split_chunks [] (concat chunks)) = chunks.
Proof.
  induction 1 as [|ch chunks (a & b & c & -> & Ha & Hb & Hc) _ IH]; [done|].
  cbn [concat app split_chunks]. rewrite Ha, Hb, Hc. cbn [andb rev].
  unfold filter_Boolean in *. rewrite filter_cons_False by (by intros []).
  rewrite filter_cons_True by done. by rewrite IH.
Qed.

Lemma add_at_middle (pre acc : list jsstring) (x subline : jsstring) :
  add_at (pre ++ x :: acc) (length pre) subline = pre ++ (x ++ subline) :: acc.
Proof. induction pre as [|y pre IH]; simpl; [done|by rewrite IH]. Qed.

Lemma add_line_zip chunks : ∀ pre acc,
  length chunks = length acc →
  add_line (pre ++ acc) (length pre) chunks = pre ++ zip_with app acc chunks.
Proof.
  induction chunks as [|subline chunks IH]; intros pre [|x acc] Hlen;
    simpl in Hlen; try lia; [done|].
  cbn [add_line zip_with]. rewrite add_at_middle.
  replace (pre ++ (x ++ subline) :: acc) with ((pre ++ [x ++ subline]) ++ acc)
    by (by rewrite <-app_assoc).
  replace (S (length pre)) with (length (pre ++ [x ++ subline]))
    by (rewrite length_app; simpl; lia).
  rewrite IH by lia. by rewrite <-app_assoc.
Qed.

Lemma add_line_zip_0 chunks acc :
  length chunks = length acc → add_line acc 0 chunks = zip_with app acc chunks.
Proof. apply (add_line_zip chunks [] acc). Qed.

Lemma zip_with_app_fmap {A} (f g : A → jsstring) (l : list A) :
  zip_with app (f <$> l) (g <$> l) = (λ x, f x ++ g x) <$> l.
Proof. induction l as [|x l IH]; [done|]. cbn. by rewrite IH. Qed.

Lemma glyph_row_chunks k ds :
  (k < 3)%nat → Forall (λ d, (d < 10)%nat) ds →
  Forall (λ ch, ∃ a b c, ch = [a; b; c] ∧ is_dot a = true ∧ is_dot b = true
                        ∧ is_dot c = true) (glyph_row k <$> ds) ∧
  Forall (λ c, c ≠ LF) (concat (glyph_row k <$> ds)).
Proof.
  intros Hk Hds. split.
  - apply Forall_fmap. eapply Forall_impl; [done|]. intros d Hd.
    destruct (glyph_row_spec k d Hk Hd) as (a & b & c & Heq & ? & ? & ? & _).
    by exists a, b, c.
  - apply Forall_concat, Forall_fmap. eapply Forall_impl; [done|]. intros d Hd.
    destruct (glyph_row_spec k d Hk Hd) as (a & b & c & Heq & _ & _ & _ & ? & ? & ?).
    simpl. rewrite Heq. by repeat constructor.
Qed.

Lemma glyphs_write_account ds :
  length ds = 9%nat → Forall (λ d, (d < 10)%nat) ds →
  glyphs (write_account ds) = (λ d, nth d nums []) <$> ds.
Proof.
  intros Hlen Hds. unfold glyphs, write_account, split.
  destruct (glyph_row_chunks 0 ds) as [Hc0 Hn0]; [lia|done|].
  destruct (glyph_row_chunks 1 ds) as [Hc1 Hn1]; [lia|done|].
  destruct (glyph_row_chunks 2 ds) as [Hc2 Hn2]; [lia|done|].
  cbn [app]. rewrite split_on_app_sep by done. cbn [rev app].
  rewrite split_on_app_sep by done. cbn [rev app].
  rewrite split_on_app_sep by done. cbn [rev app split_on].
  rewrite !fmap_cons, fmap_nil. cbn [foldl].
  rewrite !split_chunks_concat by done.
  change (filter_Boolean (split_chunks [] [])) with ([] : list jsstring).
  cbn [add_line].
  assert (replicate 9 ([] : jsstring) = (λ _, []) <$> ds) as ->.
  { rewrite <-Hlen. clear. induction ds as [|d ds IH]; [done|].
    cbn. by rewrite IH. }
  rewrite (add_line_zip_0 (glyph_row 0 <$> ds)) by (by rewrite !length_fmap).
  rewrite zip_with_app_fmap.
  rewrite (add_line_zip_0 (glyph_row 1 <$> ds)) by (by rewrite !length_fmap).
  rewrite zip_with_app_fmap.
  rewrite (add_line_zip_0 (glyph_row 2 <$> ds)) by (by rewrite !length_fmap).
  rewrite zip_with_app_fmap.
  apply Forall_fmap_ext_1. eapply Forall_impl; [done|]. intros d Hd.
  simpl. rewrite <-app_assoc. by apply glyph_rows_glyph.
Qed.

(** X18: Nine digits written with the glyphs of the table, row by row, are read
    back as the number they are the decimal notation of. *)
Theorem parseBankAccount_write_account (ds : list nat) :
  length ds = 9%nat → Forall (λ d, (d < 10)%nat) ds →
  parseBankAccount (write_account ds) = Ok (account_value ds).
Proof.
  intros Hlen Hds. unfold parseBankAccount, digits.
  rewrite glyphs_write_account by done.
  rewrite <-list_fmap_compose.
  rewrite (Forall_fmap_ext_1 _ Z.of_nat ds)
    by (eapply Forall_impl; [done|]; intros d Hd; by apply glyph_rows_glyph).
  destruct ds as [|d ds]; [done|]. unfold account_value. cbn.
  f_equal. rewrite Z.mul_0_l, Z.add_0_l. generalize (Z.of_nat d) as a.
  clear. induction ds as [|x ds IH]; intros a; [done|]. cbn. apply IH.
Qed.

Lemma parseBankAccount_write_account_witness :
  parseBankAccount (write_account [4; 0; 9; 1; 2; 7; 5; 3; 6]%nat)
  = Ok (account_value [4; 0; 9; 1; 2; 7; 5; 3; 6]%nat).
Proof.
  apply (parseBankAccount_write_account [4; 0; 9; 1; 2; 7; 5; 3; 6]%nat).
  - reflexivity.
  - repeat constructor.
Defined.

End parseBankAccount_more.

Section getFigureRectangles.
Import Katas2.

Implicit Types (line lead trail cell : jsstring) (cells lines : list jsstring).
Implicit Types (st : Z * list Z * list jsstring).

(** *** The rectangle built *)

Lemma repeat_string_nat str (count : nat) :
  repeat_string str (Z.of_nat count) = Ok (concat (replicate count str)).
Proof.
  unfold repeat_string. destruct (Z.ltb_spec (Z.of_nat count) 0); [lia|].
  by rewrite Nat2Z.id.
Qed.

Lemma concat_replicate_singleton (c : N) n : concat (replicate n [c]) = replicate n c.
Proof. induction n as [|n IH]; [done|]. simpl. by rewrite IH. Qed.

Lemma buildRectangle_rectangle (innerWidth innerHeight : nat) :
  buildRectangle (Z.of_nat innerWidth + 2) (Z.of_nat innerHeight + 2)
  = Ok (rectangle innerWidth innerHeight).
Proof.
  unfold buildRectangle.
  replace (Z.of_nat innerWidth + 2 - 2) with (Z.of_nat innerWidth) by lia.
  replace (Z.of_nat innerHeight + 2 - 2) with (Z.of_nat innerHeight) by lia.
  rewrite !repeat_string_nat. cbn [mbind result_bind].
  rewrite !repeat_string_nat. cbn [mbind result_bind]. f_equal.
  unfold rectangle, rectangle_lines, border_line, inner_line.
  rewrite !concat_replicate_singleton.
  rewrite fmap_cons, fmap_app, fmap_replicate. cbn [concat fmap list_fmap].
  rewrite concat_app. cbn [concat]. rewrite app_nil_r.
  by rewrite <-!app_assoc.
Qed.

(** X19: [buildRectangle] makes the rectangle of [height] lines of [width]
    characters when both are 2 at least, and it throws when one of them is
    less: [repeat] refuses a negative count. *)
Theorem buildRectangle_sizes (width height : Z) :
  buildRectangle width height
  = if bool_decide (2 ≤ width ∧ 2 ≤ height)
    then Ok (rectangle (Z.to_nat (width - 2)) (Z.to_nat (height - 2)))
    else Throw RangeError.
Proof.
  case_bool_decide as Hsize.
  - rewrite <-buildRectangle_rectangle. f_equal; lia.
  - unfold buildRectangle, repeat_string.
    destruct (Z.ltb_spec (width - 2) 0); [done|]. cbn [mbind result_bind].
    destruct (Z.ltb_spec (height - 2) 0); [done|]. lia.
Qed.

(** *** The widths of a line *)

Lemma split_where_app_sep sep cur s c rest :
  Forall (λ x, sep x = false) s → sep c = true →
  split_where sep cur (s ++ c :: rest) = (rev cur ++ s) :: split_where sep [] rest.
Proof.
  intros Hs Hc. revert cur. induction Hs as [|x s Hx _ IH]; intros cur; simpl.
  - by rewrite Hc, app_nil_r.
  - rewrite Hx, IH. simpl. by rewrite <-app_assoc.
Qed.

Lemma split_where_no_sep sep cur s :
  Forall (λ x, sep x = false) s → split_where sep cur s = [rev cur ++ s].
Proof.
  intros Hs. revert cur. induction Hs as [|x s Hx _ IH]; intros cur; simpl.
  - by rewrite app_nil_r.
  - rewrite Hx, IH. simpl. by rewrite <-app_assoc.
Qed.

Lemma plain_text_no_border s : plain_text s → Forall (λ x, is_border x = false) s.
Proof.
  intros Hs. eapply Forall_impl; [exact Hs|].
  intros x (Hp & Hb & _). unfold is_border.
  destruct (N.eqb_spec x PLUS), (N.eqb_spec x BAR); done.
Qed.

Lemma split_where_cells cells : ∀ lead trail,
  plain_text lead → Forall plain_text cells → plain_text trail →
  split_where is_border [] (cells_line lead cells trail)
  = lead :: cells ++ [trail].
Proof.
  unfold cells_line.
  induction cells as [|cell cells IH]; intros lead trail Hlead Hcells Htrail.
  - cbn [fmap list_fmap concat app].
    rewrite split_where_app_sep; [|by apply plain_text_no_border|done].
    by rewrite split_where_no_sep by (by apply plain_text_no_border).
  - apply Forall_cons in Hcells as [Hcell Hcells].
    rewrite fmap_cons. cbn [concat app]. rewrite <-app_assoc.
    rewrite split_where_app_sep; [|by apply plain_text_no_border|done].
    by rewrite IH.
Qed.

Lemma line_widths_cells lead cells trail :
  plain_text lead → Forall plain_text cells → plain_text trail →
  line_widths (cells_line lead cells trail)
  = (λ cell : jsstring, Z.of_nat (length cell)) <$> cells.
Proof.
  intros Hlead Hcells Htrail. unfold line_widths.
  rewrite split_where_cells by done. cbn [tail].
  by rewrite removelast_last.
Qed.

Lemma line_widths_border_line innerWidth :
  line_widths (border_line innerWidth) = [Z.of_nat innerWidth].
Proof.
  unfold line_widths, border_line. cbn [app split_where is_border]. simpl.
  rewrite split_where_app_sep; [|by apply Forall_replicate|done].
  simpl. by rewrite length_replicate.
Qed.

Lemma line_widths_nonneg line : Forall (λ w, 0 ≤ w) (line_widths line).
Proof.
  unfold line_widths. apply Forall_fmap, Forall_forall. intros w _. simpl. lia.
Qed.

Lemma includes_plus_true line : PLUS ∈ line → includes_plus line = true.
Proof.
  intros Hin. unfold includes_plus. apply existsb_exists. exists PLUS.
  split; [by apply list_elem_of_In|done].
Qed.

Lemma includes_plus_false line :
  Forall (λ c, c ≠ PLUS) line → includes_plus line = false.
Proof.
  unfold includes_plus. induction 1 as [|c line Hc _ IH]; [done|]. simpl.
  rewrite IH. by destruct (N.eqb_spec c PLUS).
Qed.

(** *** One line of the figure *)

Lemma figure_body_plain height widths yielded line :
  includes_plus line = false →
  figure_body (height, widths, yielded) line
  = Ok (height + 1, line_widths line, yielded).
Proof. intros Hline. unfold figure_body. by rewrite Hline. Qed.

Lemma mapM_buildRectangle height (widths : list Z) :
  Forall (λ w, 0 ≤ w) widths → (widths ≠ [] → 1 ≤ height) →
  mapM (λ width, buildRectangle (width + 2) (height + 1)) widths
  = Ok ((λ w, rectangle (Z.to_nat w) (Z.to_nat (height - 1))) <$> widths).
Proof.
  intros Hwidths Hheight.
  assert (1 ≤ height ∨ widths = []) as [Hh| ->]
    by (destruct widths; [by right|left; by apply Hheight]); [|done].
  clear Hheight. induction Hwidths as [|w widths Hw _ IH]; [done|].
  cbn [mapM]. rewrite IH.
  replace (buildRectangle (w + 2) (height + 1))
    with (buildRectangle (Z.of_nat (Z.to_nat w) + 2)
            (Z.of_nat (Z.to_nat (height - 1)) + 2))
    by (f_equal; lia).
  by rewrite buildRectangle_rectangle.
Qed.

Lemma figure_body_border height widths yielded line :
  includes_plus line = true →
  Forall (λ w, 0 ≤ w) widths → (widths ≠ [] → 1 ≤ height) →
  figure_body (height, widths, yielded) line
  = Ok (1, line_widths line,
        yielded ++ ((λ w, rectangle (Z.to_nat w) (Z.to_nat (height - 1)))
                      <$> widths)).
Proof.
  intros Hline Hwidths Hheight. unfold figure_body. rewrite Hline.
  by rewrite mapM_buildRectangle.
Qed.

Lemma figure_loop_app lines1 : ∀ st lines2,
  figure_loop st (lines1 ++ lines2)
  = st' ← figure_loop st lines1; figure_loop st' lines2.
Proof.
  induction lines1 as [|line lines1 IH]; intros st lines2; [done|].
  cbn [app figure_loop]. destruct (figure_body st line) as [st1|e]; [|done].
  cbn [mbind result_bind]. apply IH.
Qed.

Lemma figure_loop_plain lines : ∀ height widths yielded,
  Forall (λ line, includes_plus line = false) lines → lines ≠ [] →
  ∃ widths',
    figure_loop (height, widths, yielded) lines
    = Ok (height + Z.of_nat (length lines), widths', yielded) ∧
    last (line_widths <$> lines) = Some widths'.
Proof.
  induction lines as [|line lines IH]; intros height widths yielded Hall Hne;
    [done|].
  apply Forall_cons in Hall as [Hline Hall].
  cbn [figure_loop]. rewrite figure_body_plain by done.
  cbn [mbind result_bind].
  destruct lines as [|line' lines].
  - exists (line_widths line). split; [|done]. simpl. do 3 f_equal.
  - destruct (IH (height + 1) (line_widths line) yielded Hall) as (ws & -> & Hlast);
      [done|].
    exists ws. split; [|by rewrite fmap_cons, last_cons, Hlast].
    do 3 f_equal. simpl length. lia.
Qed.

Lemma figure_loop_plain_yielded lines : ∀ height widths yielded,
  Forall (λ line, includes_plus line = false) lines →
  ∃ height' widths',
    figure_loop (height, widths, yielded) lines = Ok (height', widths', yielded).
Proof.
  intros height widths yielded Hall. destruct lines as [|line lines].
  - by exists height, widths.
  - destruct (figure_loop_plain (line :: lines) height widths yielded Hall)
      as (ws & -> & _); [done|]. by eexists _, _.
Qed.

(** *** What the loop keeps *)

Lemma figure_body_inv st line :
  figure_inv st →
  ∃ st', figure_body st line = Ok st' ∧ figure_inv st' ∧
         ∃ rectangles,
           snd st' = snd st ++ rectangles ∧
           Forall (λ r, ∃ innerWidth innerHeight, r = rectangle innerWidth innerHeight)
             rectangles.
Proof.
  destruct st as [[height widths] yielded]. intros (Hh & Hw & Hne).
  cbn [fst snd] in *.
  destruct (includes_plus line) eqn:Hline.
  - rewrite figure_body_border by done. eexists. split; [done|]. split.
    + split_and!; cbn [fst snd]; [lia|apply line_widths_nonneg|lia].
    + eexists. split; [done|]. apply Forall_fmap, Forall_forall.
      intros w _. by eexists _, _.
  - rewrite figure_body_plain by done. eexists. split; [done|]. split.
    + split_and!; cbn [fst snd]; [lia|apply line_widths_nonneg|lia].
    + exists []. by rewrite app_nil_r.
Qed.

Lemma figure_loop_inv lines : ∀ st,
  figure_inv st →
  ∃ st', figure_loop st lines = Ok st' ∧
         ∃ rectangles,
           snd st' = snd st ++ rectangles ∧
           Forall (λ r, ∃ innerWidth innerHeight, r = rectangle innerWidth innerHeight)
             rectangles.
Proof.
  induction lines as [|line lines IH]; intros st Hinv.
  - exists st. split; [done|]. exists []. by rewrite app_nil_r.
  - destruct (figure_body_inv st line Hinv) as (st1 & Hst1 & Hinv1 & r1 & Hr1 & Hall1).
    destruct (IH st1 Hinv1) as (st2 & Hst2 & r2 & Hr2 & Hall2).
    exists st2. cbn [figure_loop]. rewrite Hst1. cbn [mbind result_bind].
    split; [done|]. exists (r1 ++ r2). split; [|by apply Forall_app].
    by rewrite Hr2, Hr1, <-app_assoc.
Qed.

(** X20: Whatever the figure, [getFigureRectangles] does not throw, and each
    string it yields is a rectangle of two lines and two columns at least:
    a line of dashes between plus signs, lines of spaces between bars, and
    the first line again. *)
Theorem getFigureRectangles_yields_rectangles (figure : jsstring) :
  ∃ yielded,
    getFigureRectangles figure = Ok yielded ∧
    Forall (λ r, ∃ innerWidth innerHeight : nat,
                   r = rectangle innerWidth innerHeight ∧
                   buildRectangle (Z.of_nat innerWidth + 2) (Z.of_nat innerHeight + 2)
                   = Ok r)
      yielded.
Proof.
  unfold getFigureRectangles.
  destruct (figure_loop_inv (split LF figure) (0, [], []))
    as (st & -> & rectangles & Hsnd & Hall).
  { split_and!; cbn [fst snd]; [lia|done|done]. }
  cbn [mbind result_bind]. exists (snd st). split; [done|].
  rewrite Hsnd. cbn [snd app]. eapply Forall_impl; [done|].
  intros r (iw & ih & ->). exists iw, ih. split; [done|].
  apply buildRectangle_rectangle.
Qed.

(** X21: A figure without a plus sign yields nothing. *)
Theorem getFigureRectangles_no_plus (figure : jsstring) :
  PLUS ∉ figure → getFigureRectangles figure = Ok [].
Proof.
  intros Hfigure. unfold getFigureRectangles.
  assert (Forall (λ line, includes_plus line = false) (split LF figure)) as Hlines.
  { assert (Forall (λ c, c ≠ PLUS) figure) as Hall
      by (apply Forall_forall; intros c Hc ->; done).
    pose proof (split_on_Forall (λ c, c ≠ PLUS) LF [] figure (Forall_nil_2 _) Hall)
      as Hsplit.
    eapply Forall_impl; [done|]. apply includes_plus_false. }
  destruct (figure_loop_plain_yielded (split LF figure) 0 [] [] Hlines)
    as (h & ws & ->).
  done.
Qed.

Lemma getFigureRectangles_no_plus_witness :
  getFigureRectangles (u16 "|  |" ++ [LF] ++ u16 "|  |") = Ok [].
Proof.
  apply (getFigureRectangles_no_plus (u16 "|  |" ++ [LF] ++ u16 "|  |")).
  vm_compute. intros Hin.
  repeat (apply elem_of_cons in Hin as [Hin|Hin]; [discriminate Hin|]).
  by apply elem_of_nil in Hin.
Defined.

End getFigureRectangles.

Section getFigureRectangles_figures.
Import Katas2.

Implicit Types (line lead trail cell : jsstring) (cells lines : list jsstring).

Lemma lines_join_LF lines :
  concat ((λ line, line ++ [LF]) <$> lines) = join [LF] (lines ++ [[]]).
Proof.
  induction lines as [|line lines IH]; [done|].
  rewrite fmap_cons. cbn [concat]. rewrite IH.
  destruct lines as [|line' lines]; simpl; by rewrite <-app_assoc.
Qed.

Lemma figure_loop_same_lines (k : nat) line height widths yielded :
  includes_plus line = false → line_widths line = widths →
  figure_loop (height, widths, yielded) (replicate k line)
  = Ok (height + Z.of_nat k, widths, yielded).
Proof.
  intros Hline Hwidths. revert height.
  induction k as [|k IH]; intros height.
  - simpl. do 3 f_equal. lia.
  - cbn [replicate figure_loop]. rewrite figure_body_plain by done.
    cbn [mbind result_bind]. rewrite Hwidths, IH. do 3 f_equal. lia.
Qed.

Lemma includes_plus_inner_line innerWidth :
  includes_plus (inner_line innerWidth) = false.
Proof.
  apply includes_plus_false. unfold inner_line.
  rewrite !Forall_app. split_and!; [by repeat constructor| |by repeat constructor].
  by apply Forall_replicate.
Qed.

Lemma line_widths_inner_line innerWidth :
  line_widths (inner_line innerWidth) = [Z.of_nat innerWidth].
Proof.
  unfold line_widths, inner_line. cbn [app split_where is_border]. simpl.
  rewrite split_where_app_sep; [|by apply Forall_replicate|done].
  simpl. by rewrite length_replicate.
Qed.

Lemma border_line_no_LF innerWidth : Forall (λ c, c ≠ LF) (border_line innerWidth).
Proof.
  unfold border_line. rewrite !Forall_app.
  split_and!; [by repeat constructor| |by repeat constructor].
  by apply Forall_replicate.
Qed.

Lemma inner_line_no_LF innerWidth : Forall (λ c, c ≠ LF) (inner_line innerWidth).
Proof.
  unfold inner_line. rewrite !Forall_app.
  split_and!; [by repeat constructor| |by repeat constructor].
  by apply Forall_replicate.
Qed.

(** X22: The figure that is one rectangle gives that rectangle back, and alone. *)
Theorem getFigureRectangles_rectangle (innerWidth innerHeight : nat) :
  getFigureRectangles (rectangle innerWidth innerHeight)
  = Ok [rectangle innerWidth innerHeight].
Proof.
  unfold getFigureRectangles. unfold rectangle at 1.
  rewrite lines_join_LF, split_join; [|by destruct (rectangle_lines _ _)|].
  2:{ rewrite Forall_app. split; [|by repeat constructor].
      unfold rectangle_lines. constructor; [apply border_line_no_LF|].
      rewrite Forall_app. split;
        [apply Forall_replicate, inner_line_no_LF
        |constructor; [apply border_line_no_LF|constructor]]. }
  unfold rectangle_lines.
  assert (includes_plus (border_line innerWidth) = true) as Hborder
    by (apply includes_plus_true; by left).
  cbn [app figure_loop].
  rewrite figure_body_border by done. cbn [mbind result_bind fmap list_fmap app].
  rewrite line_widths_border_line, <-app_assoc, figure_loop_app.
  rewrite figure_loop_same_lines
    by (apply includes_plus_inner_line || apply line_widths_inner_line).
  cbn [mbind result_bind app figure_loop].
  rewrite figure_body_border; [|done|by repeat constructor; lia|lia].
  cbn [mbind result_bind]. rewrite figure_body_plain by done.
  cbn [mbind result_bind snd fmap list_fmap app]. do 3 f_equal; lia.
Qed.

Lemma figure_loop_plain_height lines : ∀ height widths yielded,
  Forall (λ line, includes_plus line = false) lines →
  ∃ widths',
    figure_loop (height, widths, yielded) lines
    = Ok (height + Z.of_nat (length lines), widths', yielded).
Proof.
  intros height widths yielded Hall. destruct lines as [|line lines].
  - exists widths. simpl. do 3 f_equal. lia.
  - destruct (figure_loop_plain (line :: lines) height widths yielded Hall)
      as (ws & -> & _); [done|]. by eexists.
Qed.

Lemma no_plus_includes line : no_plus line → includes_plus line = false.
Proof.
  intros Hline. apply includes_plus_false.
  eapply Forall_impl; [exact Hline|]. by intros c [? _].
Qed.

Lemma plain_text_no (c : N) s :
  c = PLUS ∨ c = LF → plain_text s → Forall (λ x, x ≠ c) s.
Proof.
  intros Hc Hs. eapply Forall_impl; [exact Hs|].
  intros x (? & ? & ?). by destruct Hc as [-> | ->].
Qed.

Lemma cells_line_no (c : N) lead cells trail :
  c = PLUS ∨ c = LF →
  plain_text lead → Forall plain_text cells → plain_text trail →
  Forall (λ x, x ≠ c) (cells_line lead cells trail).
Proof.
  intros Hc Hlead Hcells Htrail. unfold cells_line. rewrite !Forall_app.
  split_and!; [by apply plain_text_no| |].
  - apply Forall_concat, Forall_fmap.
    eapply Forall_impl; [exact Hcells|]. intros cell Hcell. simpl.
    constructor; [by destruct Hc as [-> | ->]|by apply plain_text_no].
  - constructor; [by destruct Hc as [-> | ->]|by apply plain_text_no].
Qed.

Lemma figure_loop_band (b : band) widths yielded more :
  good_band b →
  figure_loop (1, widths, yielded) (band_lines b ++ more)
  = figure_loop (1, line_widths (band_border b), yielded ++ band_rectangles b) more.
Proof.
  intros (Hothers & Hlead & Hcells & Htrail & Hplus & HLF).
  unfold band_lines. rewrite <-app_assoc, figure_loop_app.
  destruct (figure_loop_plain_height (band_others b) 1 widths yielded)
    as (ws & ->).
  { eapply Forall_impl; [exact Hothers|]. apply no_plus_includes. }
  cbn [mbind result_bind app figure_loop].
  rewrite figure_body_plain
    by (apply includes_plus_false, cells_line_no; auto).
  cbn [mbind result_bind].
  rewrite line_widths_cells by done.
  rewrite figure_body_border;
    [|by apply includes_plus_true
     |apply Forall_fmap, Forall_forall; intros ? _; simpl; lia|lia].
  cbn [mbind result_bind]. do 3 f_equal.
  unfold band_rectangles. rewrite <-list_fmap_compose.
  apply list_fmap_ext. intros _ cell _. simpl. f_equal; lia.
Qed.

Lemma figure_loop_bands (bands : list band) : ∀ widths yielded more,
  Forall good_band bands →
  ∃ widths',
    figure_loop (1, widths, yielded) (concat (band_lines <$> bands) ++ more)
    = figure_loop (1, widths', yielded ++ concat (band_rectangles <$> bands)) more.
Proof.
  induction bands as [|b bands IH]; intros widths yielded more Hall.
  - exists widths. simpl. by rewrite app_nil_r.
  - apply Forall_cons in Hall as [Hb Hall].
    rewrite !fmap_cons. cbn [concat]. rewrite <-app_assoc.
    rewrite figure_loop_band by done.
    destruct (IH (line_widths (band_border b)) (yielded ++ band_rectangles b)
                more Hall) as (ws & ->).
    exists ws. by rewrite <-app_assoc.
Qed.

(** X23: A figure made of a first line with a plus sign and then of bands, each
    band some lines without plus sign, the last of them a line of cells
    between bars, and a line with a plus sign: one rectangle is yielded for
    each cell of each band, as wide as the cell and as high as the band.
    Only the last line of a band before its border gives the widths, and
    the lines after the last border give nothing. *)
Theorem getFigureRectangles_bands (top : jsstring) (bands : list band)
    (rest : list jsstring) :
  PLUS ∈ top → LF ∉ top → Forall good_band bands → Forall no_plus rest →
  getFigureRectangles (join [LF] (top :: concat (band_lines <$> bands) ++ rest))
  = Ok (concat (band_rectangles <$> bands)).
Proof.
  intros Hplus HLF Hbands Hrest. unfold getFigureRectangles.
  rewrite split_join; [|done|].
  2:{ constructor; [apply Forall_forall; by intros c Hc ->|].
      rewrite Forall_app. split.
      - apply Forall_concat, Forall_fmap.
        eapply Forall_impl; [exact Hbands|].
        intros b (Hothers & Hlead & Hcells & Htrail & _ & Hb). simpl.
        unfold band_lines. rewrite Forall_app. split.
        + eapply Forall_impl; [exact Hothers|]. intros line Hline.
          eapply Forall_impl; [exact Hline|]. by intros c [_ ?].
        + constructor; [apply cells_line_no; auto|].
          constructor; [|done]. apply Forall_forall. by intros c Hc ->.
      - eapply Forall_impl; [exact Hrest|]. intros line Hline.
        eapply Forall_impl; [exact Hline|]. by intros c [_ ?]. }
  cbn [figure_loop].
  rewrite figure_body_border; [|by apply includes_plus_true|done|done].
  cbn [mbind result_bind fmap list_fmap app].
  destruct (figure_loop_bands bands (line_widths top) [] rest Hbands) as (ws & ->).
  destruct (figure_loop_plain_yielded rest 1 ws
              ([] ++ concat (band_rectangles <$> bands))) as (h & ws' & ->).
  { eapply Forall_impl; [exact Hrest|]. apply no_plus_includes. }
  done.
Qed.

Lemma getFigureRectangles_bands_witness :
  getFigureRectangles
    (join [LF]
       (u16 "+------+-----+"
        :: concat (band_lines
                     <$> [Band [u16 "|  a   |     |"] [] [u16 "      "; u16 "     "] []
                            (u16 "+------+-----+")])
        ++ [[]]))
  = Ok (concat (band_rectangles
                  <$> [Band [u16 "|  a   |     |"] [] [u16 "      "; u16 "     "] []
                         (u16 "+------+-----+")])).
Proof.
  apply (getFigureRectangles_bands (u16 "+------+-----+")
           [Band [u16 "|  a   |     |"] [] [u16 "      "; u16 "     "] []
              (u16 "+------+-----+")] [[]]).
  - by left.
  - vm_compute. intros Hin.
    repeat (apply elem_of_cons in Hin as [Hin|Hin]; [discriminate Hin|]).
    by apply elem_of_nil in Hin.
  - constructor; [|constructor].
    split_and!; cbn [band_others band_lead band_cells band_trail band_border].
    + vm_compute. repeat constructor; discriminate.
    + constructor.
    + vm_compute. repeat constructor; discriminate.
    + constructor.
    + by left.
    + vm_compute. intros Hin.
      repeat (apply elem_of_cons in Hin as [Hin|Hin]; [discriminate Hin|]).
      by apply elem_of_nil in Hin.
  - repeat constructor.
Defined.

End getFigureRectangles_figures.

Section getPokerHandRank_more.
Import Katas2.

Implicit Types (hand : list jsstring) (card : jsstring).

Lemma countEqualTypes_five c1 c2 c3 c4 c5 :
  countEqualTypes_from 0 None [c1; c2; c3; c4; c5] = 5 ↔
  getType c2 = getType c1 ∧ getType c3 = getType c2 ∧
  getType c4 = getType c3 ∧ getType c5 = getType c4.
Proof.
  cbn [countEqualTypes_from].
  repeat case_bool_decide; split; intros; try lia; try tauto; done.
Qed.

Lemma one_suit_five c1 c2 c3 c4 c5 :
  one_suit [c1; c2; c3; c4; c5] ↔
  getType c2 = getType c1 ∧ getType c3 = getType c2 ∧
  getType c4 = getType c3 ∧ getType c5 = getType c4.
Proof.
  unfold one_suit. split.
  - intros Hall. split_and!; apply Hall; set_solver.
  - intros (H2 & H3 & H4 & H5) card card' Hc Hc'.
    assert (∀ c, c ∈ [c1; c2; c3; c4; c5] → getType c = getType c1) as Hfirst.
    { intros c Hin. repeat (apply elem_of_cons in Hin as [->|Hin]);
        [congruence..|by apply elem_of_nil in Hin]. }
    by rewrite (Hfirst card), (Hfirst card').
Qed.

Lemma hasOneType_one_suit hand :
  length hand = 5%nat →
  countEqualTypes_from 0 None hand = 5 ↔ one_suit hand.
Proof.
  intros Hlen.
  destruct hand as [|c1 [|c2 [|c3 [|c4 [|c5 [|? ?]]]]]]; try discriminate Hlen.
  by rewrite countEqualTypes_five, one_suit_five.
Qed.

(** X24: For a hand of five cards, the rank is Flush or StraightFlush exactly
    when the five cards end with the same character, their suit. *)
Theorem getPokerHandRank_flush (hand : list jsstring) :
  length hand = 5%nat →
  (getPokerHandRank hand = StraightFlush ∨ getPokerHandRank hand = Flush)
  ↔ one_suit hand.
Proof.
  intros Hlen. rewrite <-(hasOneType_one_suit hand Hlen).
  unfold getPokerHandRank. cbv zeta.
  destruct (every_next None _); case_bool_decide as Hsuit; cbn [andb].
  - split; [done|intros _; by left].
  - split; [by intros [|]|done].
  - split; [done|intros _; by right].
  - split; [|done].
    repeat match goal with
           | |- ((if ?b then _ else _) = _ ∨ _) → _ =>
               destruct b; [by intros [|]|]
           end.
    by intros [|].
Qed.

Lemma getPokerHandRank_flush_witness :
  (getPokerHandRank
     [card "4" CLUB; card "5" CLUB; card "6" CLUB; card "7" CLUB; card "Q" CLUB]
   = StraightFlush ∨
   getPokerHandRank
     [card "4" CLUB; card "5" CLUB; card "6" CLUB; card "7" CLUB; card "Q" CLUB]
   = Flush)
  ↔ one_suit
      [card "4" CLUB; card "5" CLUB; card "6" CLUB; card "7" CLUB; card "Q" CLUB].
Proof.
  apply (getPokerHandRank_flush
           [card "4" CLUB; card "5" CLUB; card "6" CLUB; card "7" CLUB;
            card "Q" CLUB]).
  reflexivity.
Defined.

(** *** The order of the cards *)

Lemma existsb_permutation {A} (f : A → bool) (l1 l2 : list A) :
  l1 ≡ₚ l2 → existsb f l1 = existsb f l2.
Proof.
  induction 1 as [|x l1 l2 _ IH|x y l|l1 l2 l3 _ IH1 _ IH2]; simpl.
  - done.
  - by rewrite IH.
  - by destruct (f x), (f y).
  - by rewrite IH1.
Qed.

Lemma one_suit_permutation hand1 hand2 :
  hand1 ≡ₚ hand2 → one_suit hand1 ↔ one_suit hand2.
Proof.
  intros Hperm. unfold one_suit.
  split; intros Hall card card' Hc Hc'; apply Hall;
    by (rewrite Hperm || rewrite <-Hperm).
Qed.

Lemma handNumbers_permutation (numbers : list jsstring) hand1 hand2 :
  hand1 ≡ₚ hand2 →
  foldl (λ (acc : gmap Z Z) card,
           let index := indexOf numbers (getNumber card) in
           <[index := match acc !! index with
                      | Some v => if bool_decide (v = 0) then 1 else v + 1
                      | None => 1
                      end]> acc) ∅ hand1
  = foldl (λ (acc : gmap Z Z) card,
           let index := indexOf numbers (getNumber card) in
           <[index := match acc !! index with
                      | Some v => if bool_decide (v = 0) then 1 else v + 1
                      | None => 1
                      end]> acc) ∅ hand2.
Proof.
  intros Hperm. apply foldl_permutation_comm; [|done].
  intros acc a b. cbv zeta.
  generalize (indexOf numbers (getNumber a)) as i.
  generalize (indexOf numbers (getNumber b)) as j. intros j i.
  destruct (decide (i = j)) as [->|Hne]; [done|].
  rewrite !lookup_insert_ne by done. by apply insert_insert_ne.
Qed.

Lemma merge_sort_permutation (l1 l2 : list Z) :
  l1 ≡ₚ l2 → merge_sort Z.le l1 = merge_sort Z.le l2.
Proof.
  intros Hperm. apply (Sorted_unique Z.le).
  - apply Sorted_merge_sort. apply _.
  - apply Sorted_merge_sort. apply _.
  - by rewrite !merge_sort_Permutation.
Qed.

(** X25: For a hand of five cards, the rank does not depend on the order in
    which the cards are given. *)
Theorem getPokerHandRank_permutation (hand1 hand2 : list jsstring) :
  length hand1 = 5%nat → hand1 ≡ₚ hand2 →
  getPokerHandRank hand1 = getPokerHandRank hand2.
Proof.
  intros Hlen Hperm.
  assert (length hand2 = 5%nat) as Hlen2 by (by rewrite <-Hperm).
  unfold getPokerHandRank. cbv zeta.
  rewrite (bool_decide_ext (countEqualTypes_from 0 None hand1 = 5)
             (countEqualTypes_from 0 None hand2 = 5))
    by (by rewrite (hasOneType_one_suit hand1 Hlen),
             (hasOneType_one_suit hand2 Hlen2), (one_suit_permutation _ _ Hperm)).
  rewrite (existsb_permutation _ _ _ Hperm).
  generalize (if existsb (λ card, bool_decide (parseInt card = Some 2)) hand2
              then u16 "A" :: (u16 <$> ["2"; "3"; "4"; "5"; "6"; "7"; "8"; "9";
                                        "10"; "J"; "Q"; "K"]%string)
              else (u16 <$> ["2"; "3"; "4"; "5"; "6"; "7"; "8"; "9"; "10"; "J";
                             "Q"; "K"]%string) ++ [u16 "A"]) as numbers.
  intros numbers.
  pose proof (handNumbers_permutation numbers _ _ Hperm) as Hmap.
  cbv zeta in Hmap. rewrite Hmap.
  rewrite (merge_sort_permutation
             ((λ card, indexOf numbers (getNumber card)) <$> hand1)
             ((λ card, indexOf numbers (getNumber card)) <$> hand2))
    by (by apply fmap_Permutation).
  done.
Qed.

Lemma getPokerHandRank_permutation_witness :
  getPokerHandRank
    [card "2" HEART; card "4" DIAMOND; card "5" HEART; card "A" DIAMOND;
     card "3" SPADE]
  = getPokerHandRank
      [card "4" DIAMOND; card "5" HEART; card "A" DIAMOND; card "3" SPADE;
       card "2" HEART].
Proof.
  apply (getPokerHandRank_permutation
           [card "2" HEART; card "4" DIAMOND; card "5" HEART; card "A" DIAMOND;
            card "3" SPADE]
           [card "4" DIAMOND; card "5" HEART; card "A" DIAMOND; card "3" SPADE;
            card "2" HEART]).
  - reflexivity.
  - apply (Permutation_cons_append
             [card "4" DIAMOND; card "5" HEART; card "A" DIAMOND; card "3" SPADE]
             (card "2" HEART)).
Defined.

End getPokerHandRank_more.
